(** * go-file-extract: a shallow embedding of the two program variants

    The repository holds two variants of the same command-line tool:
    - [src/main.go], organised around an [App] value
      ([getSavedConfig], [saveCurrentConfig], [filterOutFlag],
      [parseArguments], [getData], [main]);
    - [src/unnamed/part_000], a single [main] working on a global [config].

    Go strings are byte strings and are modelled by [string]; slices of
    strings by [list string] (a nil slice and an empty slice are both [[]],
    the code only ever takes their [len]); Go maps by [option (gmap _ _)],
    where [None] is the nil map; fallible functions return [result].
    Everything outside the process (regexp, go-git, os/exec, the file
    system, standard input, map iteration order, [fmt] scanning) is a field
    of the record [World]; the configuration file is a [Disk], and what
    [encoding/json] makes of the strings written to it is [json_Config]. *)

From Stdlib Require Import ZArith Ascii String.
From stdpp Require Import strings gmap list sorting pretty.

Local Open Scope string_scope.
Local Open Scope list_scope.

(** ** Results of fallible functions *)

Inductive result (A : Type) : Type :=
| Ok (a : A)
| Err (msg : string).
Arguments Ok {A} a.
Arguments Err {A} msg.

Definition is_ok {A} (r : result A) : bool :=
  match r with Ok _ => true | Err _ => false end.

(** ** Byte-string helpers standing for the Go [strings] and [filepath] calls *)

Definition nl : string := String (ascii_of_nat 10) EmptyString.

(** White space as [unicode.IsSpace] sees it, on the UTF-8 bytes of a Go
    string.  [is_space] is the ASCII part: tab, newline, vertical tab, form
    feed, carriage return and space. *)
Definition is_space (c : ascii) : bool :=
  let n := nat_of_ascii c in
  (n =? 32)%nat || ((9 <=? n)%nat && (n <=? 13)%nat).

Definition byte_is (n : nat) (c : ascii) : bool := (nat_of_ascii c =? n)%nat.

Definition byte_in (lo hi : nat) (c : ascii) : bool :=
  ((lo <=? nat_of_ascii c) && (nat_of_ascii c <=? hi))%nat.

(** [space_len l]: the number of bytes of the white-space rune [l] starts
    with, 0 when it starts with none.  Beyond ASCII, [unicode.IsSpace] holds
    of U+0085 and U+00A0 (C2 85, C2 A0), U+1680 (E1 9A 80), U+2000 to U+200A
    (E2 80 80 to E2 80 8A), U+2028, U+2029 and U+202F (E2 80 A8, A9, AF),
    U+205F (E2 81 9F) and U+3000 (E3 80 80).  The first byte of each of
    these encodings is never a continuation byte, so it always starts a rune
    of the decoder, also after invalid bytes. *)
Definition space_len (l : list ascii) : nat :=
  match l with
  | [] => 0
  | c0 :: t =>
      if is_space c0 then 1
      else
        match t with
        | [] => 0
        | c1 :: t1 =>
            if byte_is 194 c0 && (byte_is 133 c1 || byte_is 160 c1) then 2
            else
              match t1 with
              | [] => 0
              | c2 :: _ =>
                  if byte_is 225 c0 && byte_is 154 c1 && byte_is 128 c2 then 3
                  else if byte_is 226 c0 && byte_is 128 c1 &&
                          (byte_in 128 138 c2 || byte_in 168 169 c2 ||
                           byte_is 175 c2) then 3
                  else if byte_is 226 c0 && byte_is 129 c1 && byte_is 159 c2
                  then 3
                  else if byte_is 227 c0 && byte_is 128 c1 && byte_is 128 c2
                  then 3
                  else 0
              end
        end
  end.

(** [strings.Fields]: maximal runs of bytes outside white-space runes, in
    order.  [cur] is the field being read, in reverse; [skip] counts the
    bytes still to pass of the white-space rune being read. *)
Fixpoint Fields_from (skip : nat) (s : list ascii) (cur : list ascii)
  : list string :=
  match s with
  | [] => match cur with [] => [] | _ => [string_of_list_ascii (rev cur)] end
  | c :: s' =>
      match skip with
      | S k => Fields_from k s' cur
      | O =>
          match space_len s with
          | O => Fields_from 0 s' (c :: cur)
          | S k =>
              match cur with
              | [] => Fields_from k s' []
              | _ => string_of_list_ascii (rev cur) :: Fields_from k s' []
              end
          end
      end
  end.

Definition Fields (s : string) : list string :=
  Fields_from 0 (list_ascii_of_string s) [].

(** The white-space rune a byte sequence ends with, on the reversed
    sequence: the decoder reading backwards ([utf8.DecodeLastRuneInString])
    finds it exactly when the sequence ends with its encoding. *)
Definition space_len_rev (r : list ascii) : nat :=
  match r with
  | [] => 0
  | c :: t =>
      if is_space c then 1
      else
        match t with
        | [] => 0
        | b :: t1 =>
            if (space_len [b; c] =? 2)%nat then 2
            else
              match t1 with
              | [] => 0
              | a :: _ => if (space_len [a; b; c] =? 3)%nat then 3 else 0
              end
        end
  end.

(** Dropping the white-space runes [s] starts with; [len] tells where one
    starts. *)
Fixpoint drop_spaces (len : list ascii -> nat) (skip : nat) (s : list ascii)
  : list ascii :=
  match s with
  | [] => []
  | _ :: s' =>
      match skip with
      | S k => drop_spaces len k s'
      | O => match len s with
             | O => s
             | S k => drop_spaces len k s'
             end
      end
  end.

(** [strings.TrimSpace]: leading, then trailing white space removed. *)
Definition TrimSpace (s : string) : string :=
  string_of_list_ascii
    (rev (drop_spaces space_len_rev 0
            (rev (drop_spaces space_len 0 (list_ascii_of_string s))))).

(** [bufio.Reader.ReadString('\n')] on the content of standard input: up to
    and including the first newline, or everything when there is none. *)
Fixpoint ReadString_nl (s : string) : string :=
  match s with
  | EmptyString => EmptyString
  | String c s' =>
      if Ascii.eqb c (ascii_of_nat 10) then String c EmptyString
      else String c (ReadString_nl s')
  end.

(** [strings.HasPrefix]. *)
Definition HasPrefix (s p : string) : bool := String.prefix p s.

(** [strings.SplitN(s, "=", 2)]: one part when there is no ["="], else the
    part before the first ["="] and everything after it. *)
Fixpoint SplitN_eq2_from (s : string) (before : string) : list string :=
  match s with
  | EmptyString => [before]
  | String c s' =>
      if Ascii.eqb c "="%char then [before; s']
      else SplitN_eq2_from s' (before +:+ String c EmptyString)
  end.

Definition SplitN_eq2 (s : string) : list string := SplitN_eq2_from s "".

(** [filepath.Ext], with the Unix path separator: scanning from the last
    byte towards the first, stop at a separator; at the first dot met,
    return the suffix starting there. *)
Fixpoint Ext_scan (rpath : list ascii) (suffix : list ascii) : string :=
  match rpath with
  | [] => ""
  | c :: r =>
      if Ascii.eqb c "/"%char then ""
      else if Ascii.eqb c "."%char then string_of_list_ascii (c :: suffix)
      else Ext_scan r (c :: suffix)
  end.

Definition Ext (path : string) : string :=
  Ext_scan (rev (list_ascii_of_string path)) [].

(** ** Configuration (both variants declare the same two structs) *)

Record FolderConfig : Type := mkFolderConfig {
  SavedName : option (gmap string (list string))
}.

Record Config : Type := mkConfig {
  Folders : option (gmap string FolderConfig);
  FileTypeExecutables : option (gmap string string)
}.

(** Reading a Go map: a nil map reads as an empty one. *)
Definition map_get {V} (m : option (gmap string V)) (k : string) : option V :=
  match m with Some g => g !! k | None => None end.

(** [len(m)] of a Go map. *)
Definition map_len {V} (m : option (gmap string V)) : nat :=
  match m with Some g => size g | None => 0 end.

(** The zero value of [FolderConfig], what [Folders[dir]] reads for a
    missing key. *)
Definition zeroFolderConfig : FolderConfig := {| SavedName := None |}.

(** [folderConfig.SavedName[name]]: a missing key reads as the nil slice. *)
Definition saved_tokens (fc : FolderConfig) (name : string) : list string :=
  default [] (map_get (SavedName fc) name).

(** ** The JSON round trip of the configuration

    [json.MarshalIndent] writes every Go string, map keys included, "coerced
    to valid UTF-8": the encoder walks the bytes with
    [utf8.DecodeRuneInString] and writes U+FFFD for each byte where the
    decoder answers [RuneError] with width 1; everything else is read back
    by [json.Unmarshal] as it was.  Directory names and command-line tokens
    are arbitrary byte strings, so what is loaded need not be what was
    saved. *)

Definition cont (c : ascii) : bool := byte_in 128 191 c.

(** The range accepted for the second byte after the first byte [c0] of a
    three-byte encoding (no overlong forms, no surrogates). *)
Definition second_of_three (c0 c1 : ascii) : bool :=
  if byte_is 224 c0 then byte_in 160 191 c1
  else if byte_is 237 c0 then byte_in 128 159 c1
  else cont c1.

(** The same for a four-byte encoding (no overlong forms, nothing above
    U+10FFFF). *)
Definition second_of_four (c0 c1 : ascii) : bool :=
  if byte_is 240 c0 then byte_in 144 191 c1
  else if byte_is 244 c0 then byte_in 128 143 c1
  else cont c1.

(** [utf8_len l]: the width of the rune [l] starts with, 0 where the
    decoder answers [RuneError] with width 1. *)
Definition utf8_len (l : list ascii) : nat :=
  match l with
  | [] => 0
  | c0 :: t =>
      if byte_in 0 127 c0 then 1
      else
        match t with
        | [] => 0
        | c1 :: t1 =>
            if byte_in 194 223 c0 then (if cont c1 then 2 else 0)
            else
              match t1 with
              | [] => 0
              | c2 :: t2 =>
                  if byte_in 224 239 c0
                  then (if second_of_three c0 c1 && cont c2 then 3 else 0)
                  else
                    match t2 with
                    | [] => 0
                    | c3 :: _ =>
                        if byte_in 240 244 c0 && second_of_four c0 c1 &&
                           cont c2 && cont c3
                        then 4 else 0
                    end
              end
        end
  end.

(** U+FFFD in UTF-8. *)
Definition replacement : list ascii :=
  [ascii_of_nat 239; ascii_of_nat 191; ascii_of_nat 189].

(** The bytes the encoder writes for [l]; [skip] counts the bytes still to
    copy of the rune being written. *)
Fixpoint coerce_bytes (skip : nat) (l : list ascii) : list ascii :=
  match l with
  | [] => []
  | c :: t =>
      match skip with
      | S k => c :: coerce_bytes k t
      | O =>
          match utf8_len l with
          | O => replacement ++ coerce_bytes 0 t
          | S k => c :: coerce_bytes k t
          end
      end
  end.

(** A Go string after [json.MarshalIndent] and [json.Unmarshal]. *)
Definition json_string (s : string) : string :=
  string_of_list_ascii (coerce_bytes 0 (list_ascii_of_string s)).

(** [utf8.ValidString]: the encoder has nothing to replace. *)
Definition valid_utf8 (s : string) : Prop := json_string s = s.

(** The order in which the encoder writes the entries of a map: by key,
    bytewise. *)
Definition key_le {V} (x y : string * V) : Prop := String.le x.1 y.1.

Global Instance key_le_dec {V} : RelDecision (@key_le V) :=
  fun x y => String.le_dec x.1 y.1.

(** A Go map after the round trip: the entries are written in key order
    with coerced keys, and the decoder stores them one after the other, so
    of two keys coerced to the same string the later one stays. *)
Definition json_object {V} (f : V -> V) (m : gmap string V) : gmap string V :=
  foldl (fun acc kv => <[json_string kv.1 := f kv.2]> acc) ∅
        (merge_sort key_le (map_to_list m)).

Definition json_tokens (tokens : list string) : list string :=
  json_string <$> tokens.

Definition json_FolderConfig (fc : FolderConfig) : FolderConfig :=
  {| SavedName := json_object json_tokens <$> SavedName fc |}.

(** [Config] after the round trip; a nil map is written as [null] and read
    back as nil. *)
Definition json_Config (c : Config) : Config :=
  {| Folders := json_object json_FolderConfig <$> Folders c;
     FileTypeExecutables := json_object json_string <$> FileTypeExecutables c |}.

(** The configuration file.  [Stored c]: the file holds the text
    [json.MarshalIndent] writes for [c] (a file that parses reads, for the
    variant that loads it, like such a text); loading it gives
    [json_Config c]. *)
Inductive ConfigFile : Type :=
| Absent
| Unreadable (e : string)
| Malformed (e : string)
| Stored (c : Config).

(** The part of the file system the configuration store touches: the file
    at [config_path homeDir], and whether creating its directory and
    writing it would fail.  Runs that share a [Disk] share the home
    directory. *)
Record Disk : Type := mkDisk {
  config_file : ConfigFile;
  mkdir_error : option string;   (* failure of os.MkdirAll, if any *)
  write_error : option string    (* failure of os.WriteFile, if any *)
}.

(** ** Run options and the argument parser

    The parsing loop of [parseArguments] (main.go 131-198) and the one at
    the head of [main] in part_000 (108-176) are the same loop; they differ
    in how a failure is reported, so the loop returns a [ParseError] that
    each variant renders itself.  The loop index [i] is the position of
    [args] in the original slice: [args[i+1]] is the head of [rest]. *)

Record Options : Type := mkOptions {
  files : list string;
  ignorePattern : string;
  ignoreGitIgnore : bool;
  delimiter : string;
  wrapCode : bool;
  saveName : string;
  byName : string;
  execCommand : string;
  fileExecs : gmap string string
}.

Definition DefaultDelimiter : string := "======".

Definition defaultOptions : Options :=
  {| files := []; ignorePattern := ""; ignoreGitIgnore := false;
     delimiter := DefaultDelimiter; wrapCode := true; saveName := "";
     byName := ""; execCommand := ""; fileExecs := ∅ |}.

Inductive ParseError : Type :=
| MissingValue (flag : string)
| InvalidFileExec
| UnknownArgument (arg : string).

(** The [range pairs] loop of the [-file-exec] case. *)
Fixpoint file_exec_pairs (pairs : list string) (fe : gmap string string)
  : option (gmap string string) :=
  match pairs with
  | [] => Some fe
  | pr :: pairs' =>
      match SplitN_eq2 pr with
      | [ext; cmd] => file_exec_pairs pairs' (<[ext := cmd]> fe)
      | _ => None
      end
  end.

Definition set_files (o : Options) (v : list string) : Options :=
  mkOptions v (ignorePattern o) (ignoreGitIgnore o) (delimiter o) (wrapCode o)
            (saveName o) (byName o) (execCommand o) (fileExecs o).
Definition set_ignorePattern (o : Options) (v : string) : Options :=
  mkOptions (files o) v (ignoreGitIgnore o) (delimiter o) (wrapCode o)
            (saveName o) (byName o) (execCommand o) (fileExecs o).
Definition set_ignoreGitIgnore (o : Options) (v : bool) : Options :=
  mkOptions (files o) (ignorePattern o) v (delimiter o) (wrapCode o)
            (saveName o) (byName o) (execCommand o) (fileExecs o).
Definition set_delimiter (o : Options) (v : string) : Options :=
  mkOptions (files o) (ignorePattern o) (ignoreGitIgnore o) v (wrapCode o)
            (saveName o) (byName o) (execCommand o) (fileExecs o).
Definition set_wrapCode (o : Options) (v : bool) : Options :=
  mkOptions (files o) (ignorePattern o) (ignoreGitIgnore o) (delimiter o) v
            (saveName o) (byName o) (execCommand o) (fileExecs o).
Definition set_saveName (o : Options) (v : string) : Options :=
  mkOptions (files o) (ignorePattern o) (ignoreGitIgnore o) (delimiter o)
            (wrapCode o) v (byName o) (execCommand o) (fileExecs o).
Definition set_byName (o : Options) (v : string) : Options :=
  mkOptions (files o) (ignorePattern o) (ignoreGitIgnore o) (delimiter o)
            (wrapCode o) (saveName o) v (execCommand o) (fileExecs o).
Definition set_execCommand (o : Options) (v : string) : Options :=
  mkOptions (files o) (ignorePattern o) (ignoreGitIgnore o) (delimiter o)
            (wrapCode o) (saveName o) (byName o) v (fileExecs o).
Definition set_fileExecs (o : Options) (v : gmap string string) : Options :=
  mkOptions (files o) (ignorePattern o) (ignoreGitIgnore o) (delimiter o)
            (wrapCode o) (saveName o) (byName o) (execCommand o) v.

Fixpoint parse_loop (args : list string) (o : Options) : ParseError + Options :=
  match args with
  | [] => inr o
  | a :: rest =>
      if String.eqb a "-ignore-pattern" then
        match rest with
        | [] => inl (MissingValue a)
        | v :: rest' => parse_loop rest' (set_ignorePattern o v)
        end
      else if String.eqb a "-ignore-gitignore" then
        parse_loop rest (set_ignoreGitIgnore o true)
      else if String.eqb a "-delimiter" then
        match rest with
        | [] => inl (MissingValue a)
        | v :: rest' => parse_loop rest' (set_delimiter o v)
        end
      else if String.eqb a "-wrap-code" then
        match rest with
        | [] => inl (MissingValue a)
        | wrapCodeStr :: rest' =>
            parse_loop rest'
              (if String.eqb wrapCodeStr "false" then set_wrapCode o false else o)
        end
      else if String.eqb a "-name" then
        match rest with
        | [] => inl (MissingValue a)
        | v :: rest' => parse_loop rest' (set_saveName o v)
        end
      else if String.eqb a "-by-name" then
        match rest with
        | [] => inl (MissingValue a)
        | v :: rest' => parse_loop rest' (set_byName o v)
        end
      else if String.eqb a "-files" then
        match rest with
        | [] => inl (MissingValue a)
        | _ :: _ =>
            (* the inner loop: take tokens while the next one does not
               start with "-" *)
            (fix collect (l : list string) (o : Options) {struct l}
               : ParseError + Options :=
               match l with
               | [] => inr o
               | x :: l' =>
                   if HasPrefix x "-" then parse_loop l o
                   else collect l' (set_files o (files o ++ [x]))
               end) rest o
        end
      else if String.eqb a "-exec" then
        match rest with
        | [] => inl (MissingValue a)
        | v :: rest' => parse_loop rest' (set_execCommand o v)
        end
      else if String.eqb a "-file-exec" then
        match rest with
        | [] => inl (MissingValue a)
        | v :: rest' =>
            match file_exec_pairs (Fields v) (fileExecs o) with
            | None => inl InvalidFileExec
            | Some fe => parse_loop rest' (set_fileExecs o fe)
            end
        end
      else inl (UnknownArgument a)
  end.

(** ** The world outside the process *)

Inductive GitIgnore : Type :=
| NoRepository                         (* git.PlainOpenWithOptions fails *)
| PatternsError (e : string)           (* gitignore.ReadPatterns fails *)
| Patterns (matches : string -> bool). (* gitignore.NewMatcher(patterns).Match *)

Record World : Type := mkWorld {
  os_Args0 : string;                           (* os.Args[0] *)
  UserHomeDir : result string;
  Getwd : result string;
  regexp_Compile : string -> result (string -> bool);
  git : GitIgnore;
  filepath_Rel : string -> result string;      (* filepath.Rel(".", path) *)
  CombinedOutput : string -> list string -> string * option string;
  ReadFile : string -> result string;
  clipboard_WriteAll : string -> option string;
  stdin : string;
  range_keys : gmap string (list string) -> list string;
  Sscanf_d : string -> option Z;               (* fmt.Sscanf(input, "%d", &index) *)
  Scanln_d : string -> result Z                (* fmt.Scanln(&choice) *)
}.

(** [range] over a Go map visits every key once, in an order of its own. *)
Definition range_keys_ok (w : World) : Prop :=
  forall m, range_keys w m ≡ₚ (map_to_list m).*1.

(** ** The file processor

    The body of the [range files] loop is the same text in [getData]
    (main.go 262-337) and in [main] of part_000 (296-371), except for
    - where [executableOutput] is declared: inside the loop body in main.go
      (line 294), once before argument parsing in part_000 (line 105);
    - how a failing executable is reported ([return "", fmt.Errorf(...)]
      against [log.Fatalf(...)]).
    The body is therefore written once, over a state that carries
    [executableOutput], and each variant drives it its own way. *)

Definition languageMap : gmap string string :=
  list_to_map
    [ (".go", "go"); (".js", "javascript"); (".ts", "typescript");
      (".fish", "fish"); (".py", "python"); (".java", "java");
      (".cpp", "cpp"); (".c", "c"); (".html", "html"); (".css", "css");
      (".sh", "bash"); (".md", "markdown"); (".json", "json");
      (".yaml", "yaml"); (".yml", "yaml"); (".rs", "rust"); (".php", "php");
      (".rb", "ruby") ].

Definition language_of (ext : string) : string :=
  let language := default "" (languageMap !! ext) in
  if String.eqb language "" then "plaintext" else language.

Definition fence : string := "```".

Record LoopState : Type := mkLoopState {
  output : string;            (* the strings.Builder *)
  logs : list string;         (* what log.Printf wrote so far *)
  executableOutput : string
}.

Inductive Failure : Type :=
| InvalidExecutable (executable : string)
| ExecFailed (executable filePath err out : string).

Inductive Step : Type :=
| Continue (st : LoopState)
| Abort (logged : list string) (f : Failure).

(** The line logged when a file cannot be read (main.go 312). *)
Definition read_error_line (filePath err : string) : string :=
  "Error reading file " +:+ filePath +:+ ": " +:+ err.

(** The text written to the builder for one file (main.go 323-336). *)
Definition block (wrapCode : bool) (delimiter : string)
    (filePath content executableOutput : string) : string :=
  filePath +:+ nl +:+
  (if wrapCode then fence +:+ language_of (Ext filePath) +:+ nl else "") +:+
  content +:+ nl +:+
  (if wrapCode then fence +:+ nl else "") +:+
  (if String.eqb executableOutput "" then "" else executableOutput +:+ nl) +:+
  delimiter +:+ nl.

Section FileLoop.

Variable w : World.
Variable ignoreRegex : option (string -> bool).
Variable ignoreGitIgnore : bool.
Variable gitIgnoreMatcher : option (string -> bool).
Variable execCommand : string.
Variable finalFileTypeExecutables : gmap string string.
Variable wrapCode : bool.
Variable delimiter : string.

(** main.go 264. *)
Definition regex_ignored (filePath : string) : bool :=
  match ignoreRegex with
  | Some re => re filePath
  | None => false
  end.

(** main.go 284-291. *)
Definition resolve_executable (filePath : string) : string :=
  if negb (String.eqb execCommand "") then execCommand
  else default "" (finalFileTypeExecutables !! Ext filePath).

(** main.go 309-336: read the file, then write its block. *)
Definition read_and_emit (st : LoopState) (filePath : string) : Step :=
  match ReadFile w filePath with
  | Err e =>
      Continue {| output := output st;
                  logs := logs st ++ [read_error_line filePath e];
                  executableOutput := executableOutput st |}
  | Ok content =>
      Continue {| output := output st +:+
                    block wrapCode delimiter filePath content
                          (executableOutput st);
                  logs := logs st;
                  executableOutput := executableOutput st |}
  end.

(** main.go 281-336: from the extension on. *)
Definition run_and_emit (st : LoopState) (filePath : string) : Step :=
  let executable := resolve_executable filePath in
  if String.eqb executable "" then read_and_emit st filePath
  else
    match Fields executable with
    | [] => Abort (logs st) (InvalidExecutable executable)
    | prog :: args =>
        match CombinedOutput w prog (args ++ [filePath]) with
        | (out, Some err) =>
            Abort (logs st) (ExecFailed executable filePath err out)
        | (out, None) =>
            read_and_emit {| output := output st; logs := logs st;
                             executableOutput := out |} filePath
        end
    end.

(** One iteration of the loop body. *)
Definition process_file (st : LoopState) (filePath : string) : Step :=
  if regex_ignored filePath then Continue st
  else
    match (if ignoreGitIgnore then None else gitIgnoreMatcher) with
    | Some matches =>
        match filepath_Rel w filePath with
        | Err e =>
            Continue {| output := output st;
                        logs := logs st ++
                          ["Error getting relative path for " +:+ filePath
                             +:+ ": " +:+ e];
                        executableOutput := executableOutput st |}
        | Ok relPath =>
            if matches relPath then Continue st
            else run_and_emit st filePath
        end
    | None => run_and_emit st filePath
    end.

(** A file that neither filter skips: the iteration reaches line 281. *)
Definition kept (filePath : string) : bool :=
  negb (regex_ignored filePath) &&
  match (if ignoreGitIgnore then None else gitIgnoreMatcher) with
  | Some matches =>
      match filepath_Rel w filePath with
      | Err _ => false
      | Ok relPath => negb (matches relPath)
      end
  | None => true
  end.

(** A file whose iteration runs no executable: a filter skips it, or
    nothing is resolved for it. *)
Definition runs_nothing (filePath : string) : Prop :=
  kept filePath = false \/ resolve_executable filePath = "".

(** The loop of part_000: [executableOutput] lives across iterations. *)
Fixpoint loop_shared (fs : list string) (st : LoopState) : Step :=
  match fs with
  | [] => Continue st
  | filePath :: fs' =>
      match process_file st filePath with
      | Continue st' => loop_shared fs' st'
      | Abort l f => Abort l f
      end
  end.

(** The loop of main.go: [var executableOutput string] is declared in the
    body, so every iteration starts from the empty string, and the
    variable does not exist once the loop is left. *)
Definition fresh (st : LoopState) : LoopState :=
  {| output := output st; logs := logs st; executableOutput := "" |}.

Fixpoint loop_scoped (fs : list string) (st : LoopState) : Step :=
  match fs with
  | [] => Continue (fresh st)
  | filePath :: fs' =>
      match process_file (fresh st) filePath with
      | Continue st' => loop_scoped fs' st'
      | Abort l f => Abort l f
      end
  end.

End FileLoop.

(** What precedes the loop in both variants. *)

(** main.go 207-214, part_000 260-267. *)
Definition compile_ignore (w : World) (ignorePattern : string)
  : result (option (string -> bool)) :=
  if String.eqb ignorePattern "" then Ok None
  else match regexp_Compile w ignorePattern with
       | Ok re => Ok (Some re)
       | Err e => Err e
       end.

(** main.go 217-228, part_000 270-281: the matcher, and what was logged. *)
Definition load_gitignore (w : World) (ignoreGitIgnore : bool)
  : list string * option (string -> bool) :=
  if ignoreGitIgnore then ([], None)
  else match git w with
       | NoRepository => ([], None)
       | PatternsError e =>
           (["Error reading .gitignore patterns: " +:+ e], None)
       | Patterns matches => ([], Some matches)
       end.

(** main.go 231-237, part_000 284-290: command-line pairs override the
    configured ones. *)
Definition merge_executables (fileTypeExecutables : option (gmap string string))
    (fileExecs : gmap string string) : gmap string string :=
  fileExecs ∪ default ∅ fileTypeExecutables.

(** ** What a run of the program leaves behind *)

Inductive Exit : Type :=
| Fatal (msg : string)            (* log.Fatalf(msg): exit status 1 *)
| Saved (c : Config) (d : Disk)   (* the preset was written; return *)
| Copied (text : string).         (* the clipboard holds [text]; return *)

Record Outcome : Type := mkOutcome {
  stdout : list string;    (* one entry per fmt.Print* call *)
  log : list string;       (* log.Printf lines *)
  os_Args : list string;   (* os.Args[1:] when the process ends *)
  exit : Exit
}.

Definition die (out lg osArgs : list string) (msg : string) : Outcome :=
  {| stdout := out; log := lg; os_Args := osArgs; exit := Fatal msg |}.

(** The numbered list of the interactive selection: [i+1], a separator, the
    name, a newline. *)
Definition menu (sep : string) (savedNames : list string) : list string :=
  imap (fun i name => pretty (S i) +:+ sep +:+ name +:+ nl) savedNames.

Definition copied_message : string :=
  "Output has been copied to the clipboard." +:+ nl.

Definition saved_message (saveName currentDir : string) : string :=
  "Arguments saved for name '" +:+ saveName +:+ "' in folder '" +:+
  currentDir +:+ "'" +:+ nl.

Definition config_path (homeDir : string) : string :=
  homeDir +:+ "/.config/your_app_name/config.json".

(** * [src/main.go] *)

Module MainGo.

(** ** [src/main.go]: the configuration store *)

Record App : Type := mkApp {
  AppConfig : Config;
  ConfigPath : string
}.

(** [loadConfig] (main.go 57-69): [json.Unmarshal] gives what the round
    trip leaves of the configuration that was written. *)
Definition loadConfig (app : App) (d : Disk) : result App :=
  match config_file d with
  | Absent => Ok app
  | Unreadable e => Err ("failed to read config file: " +:+ e)
  | Malformed e => Err ("failed to parse config file: " +:+ e)
  | Stored c => Ok {| AppConfig := json_Config c; ConfigPath := ConfigPath app |}
  end.

(** [NewApp] (main.go 41-54). *)
Definition NewApp (configPath : string) (d : Disk) : result App :=
  loadConfig
    {| AppConfig := {| Folders := Some ∅; FileTypeExecutables := Some ∅ |};
       ConfigPath := configPath |} d.

(** [saveConfig] (main.go 72-84).  Marshalling these types cannot fail; the
    file then holds the text written for [app.Config], which [loadConfig]
    reads back coerced. *)
Definition saveConfig (app : App) (d : Disk) : result Disk :=
  match mkdir_error d with
  | Some e => Err ("failed to create config directory: " +:+ e)
  | None =>
      match write_error d with
      | Some e => Err ("failed to write config file: " +:+ e)
      | None => Ok {| config_file := Stored (AppConfig app);
                      mkdir_error := None; write_error := None |}
      end
  end.

(** [getSavedConfig] (main.go 87-93). *)
Definition getSavedConfig (app : App) (currentDir name : string)
  : result (list string) :=
  let notFound :=
    @Err (list string) ("no saved arguments found for name '" +:+ name +:+
         "' in folder '" +:+ currentDir +:+ "'") in
  match map_get (Folders (AppConfig app)) currentDir with
  | None => notFound
  | Some folderConfig =>
      match SavedName folderConfig with
      | None => notFound
      | Some _ =>
          if (length (saved_tokens folderConfig name) =? 0)%nat
          then notFound
          else Ok (saved_tokens folderConfig name)
      end
  end.

(** [filterOutFlag] (main.go 112-123).  The loop index is the position of
    [args] in the original slice; [filteredArgs] is the slice built by
    [append]. *)
Fixpoint filterOutFlag_loop (args : list string) (flag : string)
    (filteredArgs : list string) : list string :=
  match args with
  | [] => filteredArgs
  | a :: rest =>
      if String.eqb a flag
      then match rest with
           | [] => filteredArgs
           | _ :: rest' => filterOutFlag_loop rest' flag filteredArgs
           end
      else filterOutFlag_loop rest flag (filteredArgs ++ [a])
  end.

Definition filterOutFlag (args : list string) (flag : string) : list string :=
  filterOutFlag_loop args flag [].

(** The in-memory part of [saveCurrentConfig] (main.go 97-107). *)
Definition setSavedConfig (app : App) (currentDir name : string)
    (args : list string) : App :=
  let folders := default ∅ (Folders (AppConfig app)) in
  let folderConfig := default zeroFolderConfig (folders !! currentDir) in
  let savedName := default ∅ (SavedName folderConfig) in
  let filteredArgs := filterOutFlag args "-name" in
  let folderConfig' := {| SavedName := Some (<[name := filteredArgs]> savedName) |} in
  {| AppConfig :=
       {| Folders := Some (<[currentDir := folderConfig']> folders);
          FileTypeExecutables := FileTypeExecutables (AppConfig app) |};
     ConfigPath := ConfigPath app |}.

(** [saveCurrentConfig] (main.go 96-109): the updated application and the
    outcome of writing it to disk. *)
Definition saveCurrentConfig (app : App) (d : Disk)
    (currentDir name : string) (args : list string) : App * result Disk :=
  let app' := setSavedConfig app currentDir name args in
  (app', saveConfig app' d).

(** The errors [getData] returns from inside the loop (main.go 299, 304). *)
Definition failure_text (f : Failure) : string :=
  match f with
  | InvalidExecutable executable =>
      "invalid executable command: " +:+ executable
  | ExecFailed executable filePath err out =>
      "failed to run executable '" +:+ executable +:+ "' with file '" +:+
      filePath +:+ "': " +:+ err +:+ nl +:+ "Output: " +:+ out
  end.

(** [getData] (main.go 203-339): what was logged, and the returned pair
    [(string, error)]. *)
Definition getData (w : World) (files : list string) (ignorePattern : string)
    (ignoreGitIgnore : bool) (delimiter : string) (wrapCode : bool)
    (execCommand : string) (fileExecs : gmap string string)
    (fileTypeExecutables : option (gmap string string))
  : list string * result string :=
  match compile_ignore w ignorePattern with
  | Err e => ([], Err ("invalid regex pattern: " +:+ e))
  | Ok ignoreRegex =>
      let '(gitLogs, gitIgnoreMatcher) := load_gitignore w ignoreGitIgnore in
      let finalFileTypeExecutables :=
        merge_executables fileTypeExecutables fileExecs in
      match loop_scoped w ignoreRegex ignoreGitIgnore gitIgnoreMatcher
              execCommand finalFileTypeExecutables wrapCode delimiter files
              {| output := ""; logs := gitLogs; executableOutput := "" |} with
      | Continue st => (logs st, Ok (output st))
      | Abort logged f => (logged, Err (failure_text f))
      end
  end.

(** The error texts of [parseArguments] (main.go 135-196). *)
Definition parse_error_text (e : ParseError) : string :=
  match e with
  | MissingValue flag => "missing value for " +:+ flag
  | InvalidFileExec =>
      "invalid format for -file-exec. Expected '.ext=executable'"
  | UnknownArgument arg => "unknown argument: " +:+ arg
  end.

(** [parseArguments] (main.go 126-200). *)
Definition parseArguments (args : list string) : result Options :=
  match parse_loop args defaultOptions with
  | inl e => Err (parse_error_text e)
  | inr o => Ok o
  end.

(** What the interactive selection prints (main.go 383-387). *)
Definition prompt (savedNames : list string) : list string :=
  ["Select a saved configuration:" +:+ nl] ++
  menu ". " savedNames ++
  ["Enter the number of the configuration to load: "].

(** The interactive selection of [main] (main.go 364-404), entered when
    [len(args) == 0]: what was printed, and the selected token list or the
    text of the fatal error. *)
Definition select_saved (w : World) (app : App)
  : list string * result (list string) :=
  match Getwd w with
  | Err e => ([], Err ("Failed to get current directory: " +:+ e))
  | Ok currentDir =>
      let none :=
        @Err (list string)
          ("No saved configurations found for folder '" +:+ currentDir +:+ "'") in
      match map_get (Folders (AppConfig app)) currentDir with
      | None => ([], none)
      | Some folderConfig =>
          if (map_len (SavedName folderConfig) =? 0)%nat then ([], none)
          else
            let savedNames := range_keys w (default ∅ (SavedName folderConfig)) in
            let out := prompt savedNames in
            match Scanln_d w (stdin w) with
            | Err _ => (out, Err "Invalid choice")
            | Ok choice =>
                if ((choice <? 1) || (Z.of_nat (length savedNames) <? choice))%Z
                then (out, Err "Invalid choice")
                else
                  match savedNames !! Z.to_nat (choice - 1) with
                  | None => (out, Err "index out of range")
                  | Some selectedName =>
                      match getSavedConfig app currentDir selectedName with
                      | Err e =>
                          (out, Err ("Failed to load saved configuration: " +:+ e))
                      | Ok savedArgs => (out, Ok savedArgs)
                      end
                  end
            end
      end
  end.

(** [main] from the parsed options on (main.go 412-440); [args] is the
    token list that was parsed. *)
Definition run_parsed (w : World) (d : Disk) (app : App) (out : list string)
    (args : list string) (o : Options) : Outcome :=
  if negb (String.eqb (saveName o) "") then
    match Getwd w with
    | Err e => die out [] args ("Failed to get current directory: " +:+ e)
    | Ok currentDir =>
        match saveCurrentConfig app d currentDir (saveName o) args with
        | (_, Err e) => die out [] args ("Failed to save configuration: " +:+ e)
        | (app', Ok d') =>
            {| stdout := out ++ [saved_message (saveName o) currentDir];
               log := []; os_Args := args;
               exit := Saved (AppConfig app') d' |}
        end
    end
  else if (length (files o) =? 0)%nat then
    die out [] args "No files specified. Please provide at least one file."
  else
    match getData w (files o) (ignorePattern o) (ignoreGitIgnore o)
            (delimiter o) (wrapCode o) (execCommand o) (fileExecs o)
            (FileTypeExecutables (AppConfig app)) with
    | (lg, Err e) => die out lg args ("Failed to process files: " +:+ e)
    | (lg, Ok text) =>
        match clipboard_WriteAll w text with
        | Some e => die out lg args ("Failed to copy output to clipboard: " +:+ e)
        | None =>
            {| stdout := out ++ [copied_message]; log := lg; os_Args := args;
               exit := Copied text |}
        end
    end.

(** [main] (main.go 341-441), started with [os.Args[1:] = args0]. *)
Definition main (w : World) (d : Disk) (args0 : list string) : Outcome :=
  match UserHomeDir w with
  | Err e => die [] [] args0 ("Failed to get user home directory: " +:+ e)
  | Ok homeDir =>
      match NewApp (config_path homeDir) d with
      | Err e => die [] [] args0 ("Failed to initialize application: " +:+ e)
      | Ok app =>
          let selected :=
            if (length args0 =? 0)%nat then select_saved w app
            else ([], Ok args0) in
          match selected with
          | (out, Err msg) => die out [] args0 msg
          | (out, Ok args) =>
              match parseArguments args with
              | Err e => die out [] args ("Failed to parse arguments: " +:+ e)
              | Ok o => run_parsed w d app out args o
              end
          end
      end
  end.

End MainGo.

(** * [src/unnamed/part_000] *)

Module Part000.

(** [loadConfig] (part_000 44-59): the global [config], or the text of the
    fatal error. *)
Definition loadConfig (d : Disk) : result Config :=
  match config_file d with
  | Absent => Ok {| Folders := Some ∅; FileTypeExecutables := Some ∅ |}
  | Unreadable e => Err ("Failed to read config file: " +:+ e)
  | Malformed e => Err ("Failed to parse config file: " +:+ e)
  | Stored c => Ok (json_Config c)
  end.

(** [saveConfig] (part_000 61-72): the file then holds the text written for
    [config]. *)
Definition saveConfig (config : Config) (d : Disk) : result Disk :=
  match mkdir_error d with
  | Some e => Err ("Failed to create config directory: " +:+ e)
  | None =>
      match write_error d with
      | Some e => Err ("Failed to write config file: " +:+ e)
      | None => Ok {| config_file := Stored config;
                      mkdir_error := None; write_error := None |}
      end
  end.

(** The fatal messages of the parsing loop (part_000 112-174). *)
Definition parse_error_text (e : ParseError) : string :=
  match e with
  | MissingValue flag => "Missing value for " +:+ flag
  | InvalidFileExec =>
      "Invalid format for -file-exec. Expected '.ext=executable'"
  | UnknownArgument arg => "Unknown argument: " +:+ arg
  end.

(** The update of [config] on the [-name] path (part_000 186-200): the
    tokens are stored as they came. *)
Definition save_preset (config : Config) (currentDir saveName : string)
    (osArgs : list string) : Config :=
  let folders := default ∅ (Folders config) in
  let folderConfig := default zeroFolderConfig (folders !! currentDir) in
  let savedName := default ∅ (SavedName folderConfig) in
  {| Folders :=
       Some (<[currentDir :=
                 {| SavedName := Some (<[saveName := osArgs]> savedName) |}]>
               folders);
     FileTypeExecutables := FileTypeExecutables config |}.

Definition usage (w : World) (currentDir : string) : string :=
  "Usage: " +:+ os_Args0 w +:+
  " -files <file1> <file2> ... [-ignore-pattern <regex>] [-ignore-gitignore] [-delimiter <string>] [-wrap-code <true|false>] [-name <name>] [-by-name <name>] [-exec <command>] [-file-exec .ext=executable]"
  +:+ nl +:+ nl +:+
  "No saved arguments found in folder '" +:+ currentDir +:+
  "'. Please save arguments first using the -name option.".

(** What the interactive selection prints (part_000 241-246). *)
Definition prompt (savedNames : list string) : list string :=
  ["Multiple saved names found. Please select one:" +:+ nl] ++
  menu ": " savedNames ++
  ["Enter the number of the name to use: "].

(** The interactive selection (part_000 240-255). *)
Definition choose (w : World) (folderConfig : FolderConfig)
    (savedNames : list string) : list string * result (list string) :=
  let out := prompt savedNames in
  let input := TrimSpace (ReadString_nl (stdin w)) in
  let index := default 0%Z (Sscanf_d w input) in
  if ((index <? 1) || (Z.of_nat (length savedNames) <? index))%Z
  then (out, Err "Invalid selection")
  else
    match savedNames !! Z.to_nat (index - 1) with
    | None => (out, Err "index out of range")
    | Some selectedName => (out, Ok (saved_tokens folderConfig selectedName))
    end.

(** The preset resolver (part_000 208-257): what was printed, and the new
    value of [os.Args[1:]] or the text of the fatal error. *)
Definition resolve (w : World) (config : Config) (o : Options)
    (osArgs : list string) : list string * result (list string) :=
  if negb (String.eqb (byName o) "") then
    match Getwd w with
    | Err e => ([], Err ("Failed to get current directory: " +:+ e))
    | Ok currentDir =>
        let notFound :=
          @Err (list string)
            ("No saved arguments found for name '" +:+ byName o +:+
             "' in folder '" +:+ currentDir +:+ "'") in
        match map_get (Folders config) currentDir with
        | None => ([], notFound)
        | Some folderConfig =>
            match SavedName folderConfig with
            | None => ([], notFound)
            | Some _ =>
                if (length (saved_tokens folderConfig (byName o)) =? 0)%nat
                then ([], notFound)
                else ([], Ok (saved_tokens folderConfig (byName o)))
            end
        end
    end
  else if (length (files o) =? 0)%nat then
    match Getwd w with
    | Err e => ([], Err ("Failed to get current directory: " +:+ e))
    | Ok currentDir =>
        match map_get (Folders config) currentDir with
        | None => ([], Err (usage w currentDir))
        | Some folderConfig =>
            match SavedName folderConfig with
            | None => ([], Err (usage w currentDir))
            | Some names =>
                if (size names =? 0)%nat then ([], Err (usage w currentDir))
                else
                  let savedNames := range_keys w names in
                  match savedNames with
                  | [only] => ([], Ok (saved_tokens folderConfig only))
                  | _ => choose w folderConfig savedNames
                  end
            end
        end
    end
  else ([], Ok osArgs).

(** The fatal messages of the file loop (part_000 332, 337). *)
Definition failure_text (f : Failure) : string :=
  match f with
  | InvalidExecutable executable =>
      "Invalid executable command: " +:+ executable
  | ExecFailed executable filePath err out =>
      "Failed to run executable '" +:+ executable +:+ "' with file '" +:+
      filePath +:+ "': " +:+ err +:+ nl +:+ "Output: " +:+ out
  end.

(** [main] from the regexp on (part_000 259-378).  The options are the ones
    parsed at the head of [main]; [osArgs] is what the resolver left in
    [os.Args[1:]]. *)
Definition process (w : World) (config : Config) (o : Options)
    (out osArgs : list string) : Outcome :=
  match compile_ignore w (ignorePattern o) with
  | Err e => die out [] osArgs ("Invalid regex pattern: " +:+ e)
  | Ok ignoreRegex =>
      let '(gitLogs, gitIgnoreMatcher) :=
        load_gitignore w (ignoreGitIgnore o) in
      let finalFileTypeExecutables :=
        merge_executables (FileTypeExecutables config) (fileExecs o) in
      match loop_shared w ignoreRegex (ignoreGitIgnore o) gitIgnoreMatcher
              (execCommand o) finalFileTypeExecutables (wrapCode o)
              (delimiter o) (files o)
              {| output := ""; logs := gitLogs; executableOutput := "" |} with
      | Abort logged f => die out logged osArgs (failure_text f)
      | Continue st =>
          match clipboard_WriteAll w (output st) with
          | Some e =>
              die out (logs st) osArgs
                  ("Failed to copy output to clipboard: " +:+ e)
          | None =>
              {| stdout := out ++ [copied_message]; log := logs st;
                 os_Args := osArgs; exit := Copied (output st) |}
          end
      end
  end.

(** [init] and [main] (part_000 32-42, 96-379), started with
    [os.Args[1:] = args]. *)
Definition main (w : World) (d : Disk) (args : list string) : Outcome :=
  match UserHomeDir w with
  | Err e => die [] [] args ("Failed to get user home directory: " +:+ e)
  | Ok _ =>
      match loadConfig d with
      | Err msg => die [] [] args msg
      | Ok config =>
          match parse_loop args defaultOptions with
          | inl e => die [] [] args (parse_error_text e)
          | inr o =>
              if negb (String.eqb (saveName o) "") then
                match Getwd w with
                | Err e =>
                    die [] [] args ("Failed to get current directory: " +:+ e)
                | Ok currentDir =>
                    let config' :=
                      save_preset config currentDir (saveName o) args in
                    match saveConfig config' d with
                    | Err msg => die [] [] args msg
                    | Ok d' =>
                        {| stdout := [saved_message (saveName o) currentDir];
                           log := []; os_Args := args;
                           exit := Saved config' d' |}
                    end
                end
              else
                match resolve w config o args with
                | (out, Err msg) => die out [] args msg
                | (out, Ok osArgs) => process w config o out osArgs
                end
          end
      end
  end.

End Part000.

(** ** The preset filter in the words of the specification

    "The token sequence with every occurrence of the [-name] flag and the
    token immediately following it removed, order preserved."  The flag
    occurs where the command line has a flag: the token after a flag that
    takes one value is the value of that flag, whatever it reads, and is
    kept with it. *)

(** The flags other than [-name] that take exactly one value. *)
Definition one_value_flags : list string :=
  ["-ignore-pattern"; "-delimiter"; "-wrap-code"; "-by-name"; "-exec";
   "-file-exec"].

Fixpoint without_name_flag (tokens : list string) : list string :=
  match tokens with
  | [] => []
  | t :: rest =>
      if String.eqb t "-name" then
        match rest with
        | [] => []
        | _ :: rest' => without_name_flag rest'
        end
      else if bool_decide (t ∈ one_value_flags) then
        match rest with
        | [] => [t]
        | v :: rest' => t :: v :: without_name_flag rest'
        end
      else t :: without_name_flag rest
  end.

(** Some flag other than [-name] has the token [-name] as its value, as in
    [-delimiter -name]. *)
Fixpoint name_as_value (tokens : list string) : bool :=
  match tokens with
  | [] => false
  | t :: rest =>
      if String.eqb t "-name" then
        match rest with
        | [] => false
        | _ :: rest' => name_as_value rest'
        end
      else if bool_decide (t ∈ one_value_flags) then
        match rest with
        | [] => false
        | v :: rest' => String.eqb v "-name" || name_as_value rest'
        end
      else name_as_value rest
  end.

(** ** Configurations that were loaded

    The keys of a map the decoder built are valid UTF-8. *)
Definition keys_valid {V} (m : gmap string V) : Prop :=
  forall k, is_Some (m !! k) -> valid_utf8 k.

Definition loaded (c : Config) : Prop :=
  keys_valid (default ∅ (Folders c)) /\
  forall D fc, map_get (Folders c) D = Some fc ->
    keys_valid (default ∅ (SavedName fc)).

(** What the configuration holds under a (directory, name) key. *)
Definition stored (c : Config) (dir name : string) : option (list string) :=
  match map_get (Folders c) dir with
  | Some fc => map_get (SavedName fc) name
  | None => None
  end.

(** ** The executable stage of one iteration

    [exec_stage w execCommand final f eo0 eo]: for file [f], lines 284-307
    of main.go do not abort, and leave [eo] in [executableOutput] when it held
    [eo0] before: either no executable is resolved, or the resolved one ran
    and succeeded with combined output [eo]. *)
Inductive exec_stage (w : World) (execCommand : string)
    (final : gmap string string) (f : string) (eo0 : string) : string -> Prop :=
| exec_stage_none :
    resolve_executable execCommand final f = "" ->
    exec_stage w execCommand final f eo0 eo0
| exec_stage_ran (prog : string) (args : list string) (out : string) :
    resolve_executable execCommand final f <> "" ->
    Fields (resolve_executable execCommand final f) = prog :: args ->
    CombinedOutput w prog (args ++ [f]) = (out, None) ->
    exec_stage w execCommand final f eo0 out.

(** What a finished loop returns to its caller: the builder's text, or the
    failure. *)
Definition outcome_of (s : Step) : Failure + string :=
  match s with
  | Continue st => inr (output st)
  | Abort _ f => inl f
  end.

Definition logged_by (s : Step) : list string :=
  match s with
  | Continue st => logs st
  | Abort l _ => l
  end.

(** ** Substrings and fences *)

(** [contains p s]: [p] occurs in [s] ([strings.Contains(s, p)]). *)
Fixpoint contains (p s : string) : bool :=
  String.prefix p s ||
  match s with
  | EmptyString => false
  | String _ s' => contains p s'
  end.

(** A triple backtick occurs in [s]. *)
Definition has_fence (s : string) : bool := contains fence s.

(** ** The blocks a run wrote

    A finished loop has written one block per file it read: the path, the
    content read, and the captured output that was current. *)

Record Written : Type := mkWritten {
  w_path : string;
  w_content : string;
  w_captured : string
}.

Definition written_text (wrapCode : bool) (delimiter : string) (b : Written)
  : string :=
  block wrapCode delimiter (w_path b) (w_content b) (w_captured b).

Definition concat_text (l : list string) : string :=
  foldr String.append "" l.

(** The files a finished loop wrote a block for: those of the list that no
    filter skips and that [os.ReadFile] reads, in list order. *)
Definition read_files (w : World) (ignoreRegex : option (string -> bool))
    (ignoreGitIgnore : bool) (gitIgnoreMatcher : option (string -> bool))
    (fs : list string) : list string :=
  List.filter
    (fun f => kept w ignoreRegex ignoreGitIgnore gitIgnoreMatcher f &&
              is_ok (ReadFile w f)) fs.

(** The captured output a block can carry: the one the loop started with,
    or what the command resolved for a file of the list printed, when no
    filter skips that file and the command succeeded. *)
Definition captured_by (w : World) (ignoreRegex : option (string -> bool))
    (ignoreGitIgnore : bool) (gitIgnoreMatcher : option (string -> bool))
    (execCommand : string) (final : gmap string string) (fs : list string)
    (initial captured : string) : Prop :=
  captured = initial \/
  exists f prog args,
    f ∈ fs /\
    kept w ignoreRegex ignoreGitIgnore gitIgnoreMatcher f = true /\
    resolve_executable execCommand final f <> "" /\
    Fields (resolve_executable execCommand final f) = prog :: args /\
    CombinedOutput w prog (args ++ [f]) = (captured, None).

(** A block written by a loop over [fs] that started with [initial] as
    captured output. *)
Definition block_of (w : World) (ignoreRegex : option (string -> bool))
    (ignoreGitIgnore : bool) (gitIgnoreMatcher : option (string -> bool))
    (execCommand : string) (final : gmap string string) (fs : list string)
    (initial : string) (b : Written) : Prop :=
  ReadFile w (w_path b) = Ok (w_content b) /\
  captured_by w ignoreRegex ignoreGitIgnore gitIgnoreMatcher execCommand final
              fs initial (w_captured b).

(** What a finished loop over [fs] has added to the builder: the blocks of
    the files read, in list order. *)
Definition blocks_of (w : World) (ignoreRegex : option (string -> bool))
    (ignoreGitIgnore : bool) (gitIgnoreMatcher : option (string -> bool))
    (execCommand : string) (final : gmap string string) (wrapCode : bool)
    (delimiter : string) (fs : list string) (initial : string)
    (before after : string) : Prop :=
  exists bs,
    after = before +:+ concat_text (written_text wrapCode delimiter <$> bs) /\
    w_path <$> bs
    = read_files w ignoreRegex ignoreGitIgnore gitIgnoreMatcher fs /\
    Forall (block_of w ignoreRegex ignoreGitIgnore gitIgnoreMatcher
                     execCommand final fs initial) bs.

(** ** The two-file scenario of the specification *)

Definition scenario_files : list string := ["a.py"; "b.unknown"].

Definition scenario_output : string :=
"a.py
```python
print(1)
```
======
b.unknown
```plaintext
xyz
```
======
".

(** ** A sample world

    Stand-ins for the outside world, used to run the two programs on
    concrete inputs: a file system given by a finite map, a regexp engine
    for literal patterns, two external commands, decimal scanning, and map
    iteration in key order. *)

Definition digit_of (c : ascii) : option Z :=
  let n := nat_of_ascii c in
  if ((48 <=? n) && (n <=? 57))%nat then Some (Z.of_nat (n - 48)) else None.

Fixpoint scan_digits (s : string) (acc : option Z) : option Z :=
  match s with
  | EmptyString => acc
  | String c s' =>
      match digit_of c with
      | Some dg => scan_digits s' (Some (10 * default 0 acc + dg)%Z)
      | None => acc
      end
  end.

Definition sample_files : gmap string string :=
  list_to_map
    [ ("a.py", "print(1)"); ("b.unknown", "xyz"); ("a.go", "package main");
      ("b.txt", "hello"); ("notes.md", "```") ].

Definition sample_world (input : string) : World :=
  {| os_Args0 := "file-extract";
     UserHomeDir := Ok "/home/u";
     Getwd := Ok "/w";
     regexp_Compile := fun pat =>
       if String.eqb pat "(" then Err "missing closing )"
       else Ok (fun path => contains pat path);
     git := NoRepository;
     filepath_Rel := fun path => Ok path;
     CombinedOutput := fun prog args =>
       if String.eqb prog "lint" then ("lint: warning", None)
       else if String.eqb prog "false" then ("boom", Some "exit status 1")
       else ("", None);
     ReadFile := fun path =>
       match sample_files !! path with
       | Some content => Ok content
       | None => Err ("open " +:+ path +:+ ": no such file or directory")
       end;
     clipboard_WriteAll := fun _ => None;
     stdin := input;
     range_keys := fun m => (map_to_list m).*1;
     Sscanf_d := fun s => scan_digits s None;
     Scanln_d := fun s =>
       match scan_digits (TrimSpace (ReadString_nl s)) None with
       | Some n => Ok n
       | None => Err "expected integer"
       end |}.

(** U+00A0, the no-break space, in UTF-8. *)
Definition no_break_space : string :=
  String (ascii_of_nat 194) (String (ascii_of_nat 160) "").

(** Sample values used to run the definitions. *)
Definition sample_app : MainGo.App :=
  {| MainGo.AppConfig := {| Folders := Some ∅; FileTypeExecutables := Some ∅ |};
     MainGo.ConfigPath := "/home/u/.config/your_app_name/config.json" |}.

Definition sample_disk : Disk :=
  {| config_file := Absent; mkdir_error := None; write_error := None |}.

(** The presets stored for a directory. *)
Definition presets_in (c : Config) (dir : string)
  : option (gmap string (list string)) :=
  match map_get (Folders c) dir with
  | Some fc => SavedName fc
  | None => None
  end.

(** A configuration file holding the given presets for the sample
    directory [/w]. *)
Definition sample_config (presets : list (string * list string)) : Config :=
  {| Folders := Some {[ "/w" := {| SavedName := Some (list_to_map presets) |} ]};
     FileTypeExecutables := Some ∅ |}.

Definition sample_disk_with (presets : list (string * list string)) : Disk :=
  {| config_file := Stored (sample_config presets);
     mkdir_error := None; write_error := None |}.

(** ** The inner loop of the [-files] case, by name

    The loop at main.go 172-175 (part_000 150-153), as [parse_loop] runs it
    on the tokens after [-files]: tokens are taken as files until one starts
    with ["-"], where the outer loop goes on. *)
Fixpoint collect_files (l : list string) (o : Options) : ParseError + Options :=
  match l with
  | [] => inr o
  | x :: l' =>
      if HasPrefix x "-" then parse_loop l o
      else collect_files l' (set_files o (files o ++ [x]))
  end.

(** The flags of the [switch] (main.go 133-182). *)
Definition known_flags : list string :=
  ["-ignore-pattern"; "-ignore-gitignore"; "-delimiter"; "-wrap-code";
   "-name"; "-by-name"; "-files"; "-exec"; "-file-exec"].

(** The flags that read [args[i+1]]. *)
Definition value_flags : list string :=
  ["-ignore-pattern"; "-delimiter"; "-wrap-code"; "-name"; "-by-name";
   "-files"; "-exec"; "-file-exec"].

(** A world that differs only in what go-git and [filepath.Rel] answer. *)
Definition with_repository (w : World) (g : GitIgnore)
    (rel : string -> result string) : World :=
  {| os_Args0 := os_Args0 w; UserHomeDir := UserHomeDir w; Getwd := Getwd w;
     regexp_Compile := regexp_Compile w; git := g; filepath_Rel := rel;
     CombinedOutput := CombinedOutput w; ReadFile := ReadFile w;
     clipboard_WriteAll := clipboard_WriteAll w; stdin := stdin w;
     range_keys := range_keys w; Sscanf_d := Sscanf_d w;
     Scanln_d := Scanln_d w |}.

(** A parse result with [saveName] replaced. *)
Definition with_saveName (s : string) (r : ParseError + Options)
  : ParseError + Options :=
  match r with
  | inl e => inl e
  | inr o => inr (set_saveName o s)
  end.

(** * Properties *)

(** ** Byte strings *)

Lemma append_assoc (s1 s2 s3 : string) :
  (s1 +:+ s2) +:+ s3 = s1 +:+ (s2 +:+ s3).
Proof.
  induction s1 as [|c s1 IH]; [done|].
  change (String c ((s1 +:+ s2) +:+ s3) = String c (s1 +:+ (s2 +:+ s3))).
  by f_equal.
Qed.

Lemma append_empty_r (s : string) : s +:+ "" = s.
Proof.
  induction s as [|c s IH]; [done|].
  change (String c (s +:+ "") = String c s). by f_equal.
Qed.

(** ** The JSON round trip *)

Lemma utf8_len_take (l : list ascii) (k : nat) :
  utf8_len l = S k ->
  exists c pre rest, l = c :: pre ++ rest /\ length pre = k /\
    forall X, utf8_len (c :: pre ++ X) = S k.
Proof.
  intros H. destruct l as [|c0 tail]; [done|].
  exists c0, (take k tail), (drop k tail).
  rewrite take_drop. split; [done|].
  destruct tail as [|c1 [|c2 [|c3 t]]]; cbn [utf8_len] in H;
    repeat (case_match; try done); injection H as <-;
    (split; [done|]); intros X; cbn [take app utf8_len];
    repeat match goal with E : _ = _ |- _ => rewrite E end; done.
Qed.

Lemma coerce_bytes_skip (pre rest : list ascii) :
  coerce_bytes (length pre) (pre ++ rest) = pre ++ coerce_bytes 0 rest.
Proof.
  induction pre as [|c pre IH]; [done|].
  cbn [length app coerce_bytes]. by rewrite IH.
Qed.

Lemma coerce_bytes_rune (c : ascii) (pre rest : list ascii) :
  utf8_len (c :: pre ++ rest) = S (length pre) ->
  coerce_bytes 0 (c :: pre ++ rest) = c :: pre ++ coerce_bytes 0 rest.
Proof.
  intros H. cbn [coerce_bytes]. rewrite H. by rewrite coerce_bytes_skip.
Qed.

Lemma coerce_bytes_idemp (l : list ascii) :
  coerce_bytes 0 (coerce_bytes 0 l) = coerce_bytes 0 l.
Proof.
  remember (length l) as n eqn:Hn.
  revert l Hn. induction (lt_wf n) as [n _ IH]. intros l ->.
  destruct l as [|c t]; [done|].
  destruct (utf8_len (c :: t)) as [|k] eqn:Hlen.
  - cbn [coerce_bytes]. rewrite Hlen.
    change (replacement ++ coerce_bytes 0 t)
      with (ascii_of_nat 239 ::
              [ascii_of_nat 191; ascii_of_nat 189] ++ coerce_bytes 0 t).
    rewrite coerce_bytes_rune; [|reflexivity].
    rewrite (IH (length t)); [done| cbn [length]; lia | done].
  - destruct (utf8_len_take _ _ Hlen) as (c' & pre & rest & Hl & Hpre & HX).
    injection Hl as <- ->. subst k.
    rewrite (coerce_bytes_rune c pre rest (HX rest)).
    rewrite (coerce_bytes_rune c pre _ (HX _)).
    rewrite (IH (length rest)); [done| |done].
    cbn [length]. rewrite length_app. lia.
Qed.

Lemma json_string_idemp (s : string) : valid_utf8 (json_string s).
Proof.
  unfold valid_utf8, json_string.
  by rewrite list_ascii_of_string_of_list_ascii, coerce_bytes_idemp.
Qed.

(** *** Maps *)

Section JsonObject.

Context {V : Type}.
Variable f : V -> V.

Local Abbreviation put :=
  (fun (acc : gmap string V) (kv : string * V) =>
     <[json_string kv.1 := f kv.2]> acc).

Lemma foldl_put_other (l : list (string * V)) (acc : gmap string V)
    (K : string) :
  (forall kv, kv ∈ l -> json_string kv.1 <> K) ->
  foldl put acc l !! K = acc !! K.
Proof.
  revert acc. induction l as [|kv l IH]; intros acc Hl; [done|].
  cbn [foldl]. rewrite IH.
  - apply lookup_insert_ne. apply Hl. left.
  - intros kv' Hin. apply Hl. by right.
Qed.

Lemma foldl_put_Some (l : list (string * V)) (acc : gmap string V)
    (K : string) (v : V) :
  foldl put acc l !! K = Some v ->
  acc !! K = Some v \/
  exists kv, kv ∈ l /\ json_string kv.1 = K /\ v = f kv.2.
Proof.
  revert acc. induction l as [|kv l IH]; intros acc H; [by left|].
  cbn [foldl] in H. destruct (IH _ H) as [Hacc | (kv' & Hin & Hk & Hv)].
  - destruct (decide (json_string kv.1 = K)) as [<-|Hne].
    + rewrite lookup_insert_eq in Hacc. injection Hacc as <-.
      right. exists kv. split; [left | done].
    + rewrite lookup_insert_ne in Hacc by done. by left.
  - right. exists kv'. split; [by right | done].
Qed.

Lemma foldl_put_last (l1 l2 : list (string * V)) (kv : string * V)
    (acc : gmap string V) :
  (forall kv', kv' ∈ l2 -> json_string kv'.1 <> json_string kv.1) ->
  foldl put acc (l1 ++ kv :: l2) !! json_string kv.1 = Some (f kv.2).
Proof.
  intros Hl2. rewrite foldl_app. cbn [foldl].
  rewrite foldl_put_other by done. apply lookup_insert_eq.
Qed.

Lemma elem_of_json_entries (m : gmap string V) (k : string) (v : V) :
  (k, v) ∈ merge_sort key_le (map_to_list m) <-> m !! k = Some v.
Proof. by rewrite merge_sort_Permutation, elem_of_map_to_list. Qed.

Lemma json_object_lookup_Some (m : gmap string V) (K : string) (v : V) :
  json_object f m !! K = Some v ->
  exists k v0, m !! k = Some v0 /\ json_string k = K /\ v = f v0.
Proof.
  unfold json_object. intros H.
  destruct (foldl_put_Some _ _ _ _ H) as [H0 | ([k v0] & Hin & Hk & Hv)].
  - by rewrite lookup_empty in H0.
  - exists k, v0. by rewrite <- elem_of_json_entries.
Qed.

Lemma json_object_key_valid (m : gmap string V) (K : string) :
  is_Some (json_object f m !! K) -> valid_utf8 K.
Proof.
  intros [v H]. destruct (json_object_lookup_Some _ _ _ H) as (k & _ & _ & <- & _).
  apply json_string_idemp.
Qed.

Lemma json_object_lookup_none (m : gmap string V) (K : string) :
  (forall k, is_Some (m !! k) -> json_string k <> K) ->
  json_object f m !! K = None.
Proof.
  intros H. unfold json_object. rewrite foldl_put_other; [done|].
  intros [k v] Hin. apply H. exists v. by apply elem_of_json_entries.
Qed.

Lemma json_object_lookup_unique (m : gmap string V) (K : string) (v : V) :
  m !! K = Some v ->
  valid_utf8 K ->
  (forall k, is_Some (m !! k) -> json_string k = K -> k = K) ->
  json_object f m !! K = Some (f v).
Proof.
  intros Hm HK Huniq. unfold json_object.
  assert (Hin : (K, v) ∈ merge_sort key_le (map_to_list m))
    by by apply elem_of_json_entries.
  destruct (list_elem_of_split _ _ Hin) as (l1 & l2 & Hl).
  assert (Hnd : NoDup (merge_sort key_le (map_to_list m)).*1).
  { rewrite merge_sort_Permutation. apply NoDup_fst_map_to_list. }
  rewrite Hl in Hnd |- *.
  rewrite fmap_app, fmap_cons in Hnd.
  apply NoDup_app in Hnd as (_ & _ & Hnd).
  apply NoDup_cons in Hnd as [Hnot _].
  unfold valid_utf8 in HK.
  pose proof (foldl_put_last l1 l2 (K, v) ∅) as Hlast.
  cbn [fst snd] in Hlast. rewrite HK in Hlast. apply Hlast.
  intros [k' v'] Hin' Heq. cbn [fst] in *.
  assert (k' = K) as ->.
  { apply Huniq; [|done]. exists v'. apply elem_of_json_entries.
    rewrite Hl. set_solver. }
  apply Hnot. apply list_elem_of_fmap. by exists (K, v').
Qed.

Lemma json_object_keys_valid (m : gmap string V) : keys_valid (json_object f m).
Proof. intros k. apply json_object_key_valid. Qed.

Lemma json_object_insert (m : gmap string V) (K : string) (v : V) :
  keys_valid m ->
  json_object f (<[K := v]> m) !! K
  = if decide (json_string K = K) then Some (f v) else None.
Proof.
  intros Hm. destruct (decide (json_string K = K)) as [HK | HK].
  - apply json_object_lookup_unique; [apply lookup_insert_eq | done |].
    intros k Hk Heq. destruct (decide (k = K)) as [|Hne]; [done|].
    rewrite lookup_insert_ne in Hk by done.
    rewrite <- Heq. symmetry. by apply Hm.
  - destruct (json_object f (<[K := v]> m) !! K) eqn:E; [|done].
    destruct HK. apply (json_object_key_valid (<[K := v]> m)). by eexists.
Qed.

End JsonObject.

(** ** The configuration store of main.go *)

Section Store.
Import MainGo.

Lemma stored_setSavedConfig (app : App) (D N : string) (A : list string) :
  stored (AppConfig (setSavedConfig app D N A)) D N
  = Some (filterOutFlag A "-name").
Proof.
  unfold stored, setSavedConfig; simpl.
  rewrite lookup_insert_eq; simpl.
  by rewrite lookup_insert_eq.
Qed.

Lemma getSavedConfig_stored (app : App) (D N : string) :
  getSavedConfig app D N =
  match stored (AppConfig app) D N with
  | Some (t :: ts) => Ok (t :: ts)
  | _ => Err ("no saved arguments found for name '" +:+ N +:+
              "' in folder '" +:+ D +:+ "'")
  end.
Proof.
  unfold getSavedConfig, stored, saved_tokens.
  destruct (map_get (Folders (AppConfig app)) D) as [fc|]; [|done].
  destruct (SavedName fc) as [m|]; simpl; [|done].
  destruct (m !! N) as [[|t ts]|]; done.
Qed.

(** part_000 stores the tokens as they came, [-name] and its value
    included. *)
Lemma part000_stores_unfiltered (config : Config) (D N : string)
    (A : list string) :
  stored (Part000.save_preset config D N A) D N = Some A.
Proof.
  unfold stored, Part000.save_preset; simpl.
  rewrite lookup_insert_eq; simpl.
  by rewrite lookup_insert_eq.
Qed.

(** The filter of the code agrees with the words of the specification on
    the command lines where no flag has [-name] as its value. *)
Lemma filterOutFlag_loop_without_name_flag (n : nat) :
  forall args acc,
    length args < n ->
    name_as_value args = false ->
    filterOutFlag_loop args "-name" acc = acc ++ without_name_flag args.
Proof.
  induction n as [|n IH]; intros args acc Hlen Hnv; [lia|].
  destruct args as [|t rest]; [by rewrite app_nil_r|].
  cbn [filterOutFlag_loop without_name_flag name_as_value] in *.
  destruct (String.eqb_spec t "-name") as [->|Ht].
  - destruct rest as [|v rest']; [by rewrite app_nil_r|].
    apply IH; [cbn [length] in Hlen; lia | done].
  - destruct (bool_decide (t ∈ one_value_flags)).
    + destruct rest as [|v rest']; [done|].
      apply orb_false_elim in Hnv as [Hv Hnv].
      cbn [filterOutFlag_loop]. rewrite Hv.
      rewrite IH; [|cbn [length] in Hlen; lia | done].
      by rewrite <- !app_assoc.
    + rewrite IH; [|cbn [length] in Hlen; lia | done].
      by rewrite <- app_assoc.
Qed.

Lemma filterOutFlag_without_name_flag (args : list string) :
  name_as_value args = false ->
  filterOutFlag args "-name" = without_name_flag args.
Proof.
  intros H. unfold filterOutFlag.
  by rewrite (filterOutFlag_loop_without_name_flag (S (length args))) by (done || lia).
Qed.

Lemma without_name_flag_sublist (n : nat) :
  forall args, length args < n -> without_name_flag args `sublist_of` args.
Proof.
  induction n as [|n IH]; intros args Hlen; [lia|].
  destruct args as [|t rest]; [done|].
  cbn [without_name_flag]. cbn [length] in Hlen.
  destruct (String.eqb t "-name").
  - destruct rest as [|v rest']; [apply sublist_nil_l|].
    do 2 apply sublist_cons. apply IH. cbn [length] in Hlen. lia.
  - destruct (bool_decide (t ∈ one_value_flags)).
    + destruct rest as [|v rest']; [done|].
      do 2 apply sublist_skip. apply IH. cbn [length] in Hlen. lia.
    + apply sublist_skip. apply IH. lia.
Qed.

(** Where [-name] is the value of another flag the two differ: the code
    drops the value of [-delimiter] and keeps the name. *)
Lemma filterOutFlag_name_as_value :
  let A := ["-files"; "a.go"; "-delimiter"; "-name"; "-name"; "p"] in
  parseArguments A
  = Ok (mkOptions ["a.go"] "" false "-name" true "p" "" "" ∅) /\
  filterOutFlag A "-name" = ["-files"; "a.go"; "-delimiter"; "p"] /\
  without_name_flag A = ["-files"; "a.go"; "-delimiter"; "-name"].
Proof. by vm_compute. Qed.

(** *** What a reload gives *)

Lemma json_tokens_valid (T : list string) :
  Forall valid_utf8 T -> json_tokens T = T.
Proof.
  unfold json_tokens. induction 1 as [|t T Ht _ IH]; [done|].
  cbn [fmap list_fmap]. cbn [fmap] in IH. by rewrite Ht, IH.
Qed.

Lemma json_Config_loaded (c : Config) : loaded (json_Config c).
Proof.
  split.
  - unfold json_Config. cbn [Folders].
    destruct (Folders c) as [fs|]; cbn [fmap option_fmap option_map default from_option id].
    + apply json_object_keys_valid.
    + intros k [v Hk]. by rewrite lookup_empty in Hk.
  - intros D fc. unfold json_Config. cbn [Folders].
    destruct (Folders c) as [fs|]; cbn [fmap option_fmap option_map map_get]; [|done].
    intros (k & fc0 & _ & _ & ->)%json_object_lookup_Some.
    unfold json_FolderConfig. cbn [SavedName].
    destruct (SavedName fc0) as [names|]; cbn [fmap option_fmap option_map default from_option id].
    + apply json_object_keys_valid.
    + intros k' [v Hk]. by rewrite lookup_empty in Hk.
Qed.

Lemma NewApp_loaded (p : string) (d : Disk) (app : App) :
  NewApp p d = Ok app -> loaded (AppConfig app).
Proof.
  unfold NewApp, loadConfig.
  destruct (config_file d) as [| | |c]; intros [= <-].
  - split; cbn [AppConfig Folders default from_option id map_get].
    + intros k [v Hk]. by rewrite lookup_empty in Hk.
    + intros D fc Hfc. by rewrite lookup_empty in Hfc.
  - apply json_Config_loaded.
Qed.

Lemma part000_loadConfig_loaded (d : Disk) (config : Config) :
  Part000.loadConfig d = Ok config -> loaded config.
Proof.
  unfold Part000.loadConfig.
  destruct (config_file d) as [| | |c]; intros [= <-].
  - split; cbn [Folders default from_option id map_get].
    + intros k [v Hk]. by rewrite lookup_empty in Hk.
    + intros D fc Hfc. by rewrite lookup_empty in Hfc.
  - apply json_Config_loaded.
Qed.

(** The update of both variants, read back from the file: the preset is
    there under (D, N) when both are valid UTF-8, with its tokens coerced;
    otherwise nothing is. *)
Lemma stored_reload (c : Config) (D N : string) (T : list string) :
  loaded c ->
  stored (json_Config (Part000.save_preset c D N T)) D N
  = if decide (json_string D = D /\ json_string N = N)
    then Some (json_tokens T) else None.
Proof.
  intros [Hfs Hnames]. unfold stored, json_Config, Part000.save_preset.
  cbn [Folders fmap option_fmap option_map map_get].
  rewrite json_object_insert by done.
  destruct (decide (json_string D = D)) as [HD|HD].
  - unfold json_FolderConfig at 1.
    cbn [SavedName fmap option_fmap option_map map_get].
    rewrite json_object_insert.
    + destruct (decide (json_string N = N)) as [HN|HN].
      * by rewrite decide_True.
      * rewrite decide_False; [done | tauto].
    + destruct (default ∅ (Folders c) !! D) as [fc|] eqn:Hfc;
        cbn [default from_option id].
      * apply (Hnames D fc).
        destruct (Folders c); cbn [default from_option id map_get] in *;
          [done|]. by rewrite lookup_empty in Hfc.
      * intros k [v Hk]. unfold zeroFolderConfig in Hk.
        cbn [SavedName default from_option id] in Hk.
        by rewrite lookup_empty in Hk.
  - rewrite decide_False; [done | tauto].
Qed.

Lemma setSavedConfig_save_preset (app : App) (D N : string) (A : list string) :
  AppConfig (setSavedConfig app D N A)
  = Part000.save_preset (AppConfig app) D N (filterOutFlag A "-name").
Proof. reflexivity. Qed.

Lemma reload_after_save (app : App) (d d' : Disk) (p : string) :
  saveConfig app d = Ok d' ->
  NewApp p d' = Ok {| AppConfig := json_Config (AppConfig app);
                      ConfigPath := p |}.
Proof.
  unfold saveConfig, NewApp, loadConfig.
  destruct (mkdir_error d); [done|].
  destruct (write_error d); [done|].
  intros [= <-]. done.
Qed.

Lemma json_object_singleton {V} (f : V -> V) (k : string) (v : V) :
  json_object f {[ k := v ]} = {[ json_string k := f v ]}.
Proof.
  unfold json_object.
  assert (H : merge_sort key_le (map_to_list ({[ k := v ]} : gmap string V))
              = [(k, v)]).
  { apply Permutation_singleton_r.
    by rewrite merge_sort_Permutation, map_to_list_singleton. }
  rewrite H. cbn [foldl fst snd]. apply insert_empty.
Qed.

(** The first preset of a directory, read back from the file. *)
Lemma presets_reload_first (c : Config) (D N : string) (T : list string) :
  loaded c ->
  valid_utf8 D -> valid_utf8 N -> Forall valid_utf8 T ->
  map_len (presets_in c D) = 0 ->
  presets_in (json_Config (Part000.save_preset c D N T)) D
  = Some {[ N := T ]}.
Proof.
  intros [Hfs _] HD HN HT Hnone.
  unfold presets_in, json_Config, Part000.save_preset.
  cbn [Folders fmap option_fmap option_map map_get].
  rewrite json_object_insert by done. rewrite decide_True by done.
  unfold json_FolderConfig. cbn [SavedName fmap option_fmap option_map].
  assert (Hempty : default ∅ (SavedName (default zeroFolderConfig
                      (default ∅ (Folders c) !! D))) = ∅).
  { unfold presets_in in Hnone.
    destruct (Folders c) as [fs|];
      cbn [map_get default from_option id] in *.
    - destruct (fs !! D) as [fc|]; cbn [from_option id] in *; [|done].
      destruct (SavedName fc) as [m|]; cbn [map_len from_option id] in *;
        [|done].
      by apply map_size_empty_inv in Hnone.
    - by rewrite lookup_empty. }
  rewrite Hempty, insert_empty, json_object_singleton.
  by rewrite HN, json_tokens_valid.
Qed.

End Store.

(** C1 (amended).  In main.go, for tokens [A] in which [-name] occurs only
    as a flag, saving a preset under [N] in [D] with tokens [A] and then
    looking it up by [(D, N)] returns exactly [A] with every [-name] flag
    and the token following it removed, order preserved, when that
    sequence is not empty, and reports "no saved arguments found" when it
    is empty.  This holds in the process that saved, and, when the
    directory, the name and the tokens are valid UTF-8, in a later process
    that loads the file the save wrote. *)
Theorem C1_save_then_get (app : MainGo.App) (d : Disk) (D N : string)
    (A : list string) :
  name_as_value A = false ->
  let saved := MainGo.saveCurrentConfig app d D N A in
  let answer :=
    match without_name_flag A with
    | [] => Err ("no saved arguments found for name '" +:+ N +:+
                 "' in folder '" +:+ D +:+ "'")
    | t :: ts => Ok (t :: ts)
    end in
  MainGo.getSavedConfig saved.1 D N = answer /\
  (forall home d',
     MainGo.NewApp (config_path home) d = Ok app ->
     valid_utf8 D -> valid_utf8 N ->
     Forall valid_utf8 (without_name_flag A) ->
     saved.2 = Ok d' ->
     exists app', MainGo.NewApp (config_path home) d' = Ok app' /\
       MainGo.getSavedConfig app' D N = answer) /\
  (mkdir_error d = None -> write_error d = None -> is_ok saved.2 = true) /\
  without_name_flag A `sublist_of` A.
Proof.
  intros Hnv saved answer.
  split; [|split; [|split]].
  - rewrite getSavedConfig_stored. unfold saved, MainGo.saveCurrentConfig.
    cbn [fst]. rewrite stored_setSavedConfig.
    by rewrite filterOutFlag_without_name_flag.
  - intros home d' Happ HD HN HA Hsave. eexists. split.
    + apply (reload_after_save (MainGo.setSavedConfig app D N A) d).
      exact Hsave.
    + rewrite getSavedConfig_stored. cbn [MainGo.AppConfig].
      rewrite setSavedConfig_save_preset.
      rewrite stored_reload by by eapply NewApp_loaded.
      rewrite decide_True by done.
      rewrite filterOutFlag_without_name_flag by done.
      by rewrite json_tokens_valid.
  - unfold saved, MainGo.saveCurrentConfig, MainGo.saveConfig. cbn [snd].
    by intros -> ->.
  - apply (without_name_flag_sublist (S (length A))). lia.
Qed.

Lemma C1_save_then_get_witness :
  let A := ["-files"; "a.go"; "-name"; "p"; "-delimiter"; "--"] in
  let saved := MainGo.saveCurrentConfig sample_app sample_disk "/w" "p" A in
  name_as_value A = false /\
  MainGo.getSavedConfig saved.1 "/w" "p"
  = Ok ["-files"; "a.go"; "-delimiter"; "--"] /\
  exists d' app',
    saved.2 = Ok d' /\
    MainGo.NewApp (config_path "/home/u") d' = Ok app' /\
    MainGo.getSavedConfig app' "/w" "p"
    = Ok ["-files"; "a.go"; "-delimiter"; "--"].
Proof.
  intros A saved.
  pose proof (C1_save_then_get sample_app sample_disk "/w" "p" A eq_refl)
    as (Hget & Hreload & _ & _).
  split; [reflexivity|]. split; [exact Hget|].
  destruct (Hreload "/home/u"
              {| config_file := Stored (MainGo.AppConfig saved.1);
                 mkdir_error := None; write_error := None |})
    as (app' & Hload & Hget');
    [reflexivity | reflexivity | reflexivity | by repeat constructor
    | reflexivity |].
  by eexists _, app'.
Defined.

(** C1 as stated fails in main.go when the tokens are only [-name p]: the
    preset is stored as the empty sequence and the lookup reports an error
    instead of returning it. *)
Lemma C1_counterexample :
  MainGo.getSavedConfig
    (MainGo.saveCurrentConfig sample_app sample_disk "/w" "p" ["-name"; "p"]).1
    "/w" "p"
  <> Ok (without_name_flag ["-name"; "p"]).
Proof. vm_compute. discriminate. Qed.

Section EmptyPreset.
Import MainGo.

Lemma parse_name_only (v : string) :
  parseArguments ["-name"; v] = Ok (set_saveName defaultOptions v).
Proof. reflexivity. Qed.

Lemma main_name_only (w : World) (d : Disk) (home D v : string) (app : App) :
  v <> "" ->
  UserHomeDir w = Ok home ->
  Getwd w = Ok D ->
  NewApp (config_path home) d = Ok app ->
  mkdir_error d = None ->
  write_error d = None ->
  exit (main w d ["-name"; v])
  = Saved (AppConfig (setSavedConfig app D v ["-name"; v]))
          {| config_file :=
               Stored (AppConfig (setSavedConfig app D v ["-name"; v]));
             mkdir_error := None; write_error := None |}.
Proof.
  intros Hv Hhome Hwd Happ Hmk Hwr.
  unfold main. rewrite Hhome, Happ. simpl length. simpl Nat.eqb. cbv iota.
  rewrite parse_name_only. unfold run_parsed. simpl saveName.
  apply String.eqb_neq in Hv. rewrite Hv. simpl negb. cbv iota.
  rewrite Hwd. unfold saveCurrentConfig, saveConfig.
  rewrite Hmk, Hwr. reflexivity.
Qed.

End EmptyPreset.

(** C10.  In main.go, [getSavedConfig] answers "no saved arguments found"
    whenever the token list stored under the (directory, name) key is absent
    or empty; so a preset saved from the tokens [-name v] alone is written
    to the configuration, as the empty list, and no later lookup returns
    it, in this process or in one that reloads the written file. *)
Theorem C10_empty_preset_not_retrievable :
  (forall (app : MainGo.App) (D N : string),
     stored (MainGo.AppConfig app) D N = None \/
     stored (MainGo.AppConfig app) D N = Some [] ->
     MainGo.getSavedConfig app D N
     = Err ("no saved arguments found for name '" +:+ N +:+
            "' in folder '" +:+ D +:+ "'")) /\
  (forall (w : World) (d : Disk) (home D v : string) (app : MainGo.App),
     v <> "" ->
     UserHomeDir w = Ok home ->
     Getwd w = Ok D ->
     MainGo.NewApp (config_path home) d = Ok app ->
     mkdir_error d = None ->
     write_error d = None ->
     exists c d',
       exit (MainGo.main w d ["-name"; v]) = Saved c d' /\
       config_file d' = Stored c /\
       stored c D v = Some [] /\
       forall app' p,
         (app' = MainGo.setSavedConfig app D v ["-name"; v] \/
          MainGo.NewApp p d' = Ok app') ->
         MainGo.getSavedConfig app' D v
         = Err ("no saved arguments found for name '" +:+ v +:+
                "' in folder '" +:+ D +:+ "'")).
Proof.
  split.
  - intros app D N H. rewrite getSavedConfig_stored.
    by destruct H as [-> | ->].
  - intros w d home D v app Hv Hhome Hwd Happ Hmk Hwr.
    set (app1 := MainGo.setSavedConfig app D v ["-name"; v]).
    exists (MainGo.AppConfig app1),
           {| config_file := Stored (MainGo.AppConfig app1);
              mkdir_error := None; write_error := None |}.
    split; [by eapply main_name_only|].
    split; [reflexivity|].
    split; [apply stored_setSavedConfig|].
    intros app' p [-> | Hload]; rewrite getSavedConfig_stored.
    + fold app1. unfold app1. by rewrite stored_setSavedConfig.
    + unfold MainGo.NewApp, MainGo.loadConfig in Hload.
      cbn [config_file] in Hload. injection Hload as <-.
      change (stored (MainGo.AppConfig _) D v)
        with (stored (json_Config
                        (Part000.save_preset (MainGo.AppConfig app) D v
                           (MainGo.filterOutFlag ["-name"; v] "-name"))) D v).
      rewrite stored_reload by by eapply NewApp_loaded.
      by destruct (decide _).
Qed.

Lemma C10_empty_preset_not_retrievable_witness :
  MainGo.getSavedConfig sample_app "/w" "p"
  = Err "no saved arguments found for name 'p' in folder '/w'" /\
  exists c d',
    exit (MainGo.main (sample_world "") sample_disk ["-name"; "p"])
    = Saved c d' /\
    stored c "/w" "p" = Some [].
Proof.
  split.
  - apply (proj1 C10_empty_preset_not_retrievable sample_app "/w" "p").
    left. reflexivity.
  - destruct (proj2 C10_empty_preset_not_retrievable (sample_world "")
                sample_disk "/home/u" "/w" "p" sample_app)
      as (c & d' & Hexit & _ & Hstored & _);
      [discriminate | reflexivity | reflexivity | reflexivity | reflexivity
      | reflexivity |].
    by exists c, d'.
Defined.

(** ** The file loop *)

Section LoopFacts.

Variable w : World.
Variable ignoreRegex : option (string -> bool).
Variable ignoreGitIgnore : bool.
Variable gitIgnoreMatcher : option (string -> bool).
Variable execCommand : string.
Variable finalFileTypeExecutables : gmap string string.
Variable wrapCode : bool.
Variable delimiter : string.

Local Abbreviation body :=
  (process_file w ignoreRegex ignoreGitIgnore gitIgnoreMatcher execCommand
                finalFileTypeExecutables wrapCode delimiter).
Local Abbreviation shared :=
  (loop_shared w ignoreRegex ignoreGitIgnore gitIgnoreMatcher execCommand
               finalFileTypeExecutables wrapCode delimiter).
Local Abbreviation scoped :=
  (loop_scoped w ignoreRegex ignoreGitIgnore gitIgnoreMatcher execCommand
               finalFileTypeExecutables wrapCode delimiter).
Local Abbreviation keeps := (kept w ignoreRegex ignoreGitIgnore gitIgnoreMatcher).
Local Abbreviation executable_of :=
  (resolve_executable execCommand finalFileTypeExecutables).
Local Abbreviation run :=
  (run_and_emit w execCommand finalFileTypeExecutables wrapCode delimiter).
Local Abbreviation emit := (read_and_emit w wrapCode delimiter).

Lemma process_file_ignored (st : LoopState) (f : string) :
  regex_ignored ignoreRegex f = true -> body st f = Continue st.
Proof. intros H. unfold process_file. by rewrite H. Qed.

Lemma process_file_kept (st : LoopState) (f : string) :
  keeps f = true -> body st f = run st f.
Proof.
  unfold kept, process_file. intros [H1 H2]%andb_true_iff.
  apply negb_true_iff in H1. rewrite H1.
  destruct (if ignoreGitIgnore then None else gitIgnoreMatcher); [|done].
  destruct (filepath_Rel w f); [|done].
  apply negb_true_iff in H2. by rewrite H2.
Qed.

Lemma process_file_not_kept (st : LoopState) (f : string) :
  keeps f = false ->
  exists lg, body st f =
    Continue {| output := output st; logs := logs st ++ lg;
                executableOutput := executableOutput st |}.
Proof.
  unfold kept, process_file. intros H.
  destruct (regex_ignored ignoreRegex f).
  { exists []. rewrite app_nil_r. by destruct st. }
  simpl in H.
  destruct (if ignoreGitIgnore then None else gitIgnoreMatcher); [|done].
  destruct (filepath_Rel w f); [|by eexists].
  apply negb_false_iff in H. rewrite H.
  exists []. rewrite app_nil_r. by destruct st.
Qed.

Lemma loop_shared_app (fs1 fs2 : list string) (st : LoopState) :
  shared (fs1 ++ fs2) st =
  match shared fs1 st with
  | Continue st' => shared fs2 st'
  | Abort l f => Abort l f
  end.
Proof.
  revert st. induction fs1 as [|f fs1 IH]; intros st; simpl; [done|].
  destruct (body st f); [apply IH | done].
Qed.

Lemma loop_scoped_fresh (fs : list string) (st : LoopState) :
  scoped fs (fresh st) = scoped fs st.
Proof. by destruct fs. Qed.

Lemma loop_scoped_app (fs1 fs2 : list string) (st : LoopState) :
  scoped (fs1 ++ fs2) st =
  match scoped fs1 st with
  | Continue st' => scoped fs2 st'
  | Abort l f => Abort l f
  end.
Proof.
  revert st. induction fs1 as [|f fs1 IH]; intros st; simpl.
  - by rewrite loop_scoped_fresh.
  - destruct (body (fresh st) f); [apply IH | done].
Qed.

Lemma loop_shared_skip_ignored (fs : list string) (st : LoopState) :
  shared fs st
  = shared (List.filter (fun f => negb (regex_ignored ignoreRegex f)) fs) st.
Proof.
  revert st. induction fs as [|f fs IH]; intros st; [done|].
  simpl. destruct (regex_ignored ignoreRegex f) eqn:Hf; simpl.
  - rewrite process_file_ignored by done. apply IH.
  - destruct (body st f); [apply IH | done].
Qed.

Lemma loop_scoped_skip_ignored (fs : list string) (st : LoopState) :
  scoped fs st
  = scoped (List.filter (fun f => negb (regex_ignored ignoreRegex f)) fs) st.
Proof.
  revert st. induction fs as [|f fs IH]; intros st; [done|].
  simpl. destruct (regex_ignored ignoreRegex f) eqn:Hf; simpl.
  - rewrite process_file_ignored by done.
    rewrite loop_scoped_fresh. apply IH.
  - destruct (body (fresh st) f); [apply IH | done].
Qed.

End LoopFacts.

(** C8.  With an ignore pattern supplied (a non-empty pattern that
    compiles), whatever the gitignore state, a run over a file list is the
    run over the list without the files whose path the pattern matches:
    those files contribute no output, no log line and no error.  This holds
    for [getData] of main.go and for the processing part of part_000. *)
Theorem C8_pattern_matches_are_skipped (w : World) (pattern : string)
    (re : string -> bool) :
  pattern <> "" ->
  regexp_Compile w pattern = Ok re ->
  (forall files ignoreGitIgnore delimiter wrapCode execCommand fileExecs
          fileTypeExecutables,
     MainGo.getData w files pattern ignoreGitIgnore delimiter wrapCode
       execCommand fileExecs fileTypeExecutables
     = MainGo.getData w (List.filter (fun f => negb (re f)) files) pattern
         ignoreGitIgnore delimiter wrapCode execCommand fileExecs
         fileTypeExecutables) /\
  (forall config o out osArgs,
     ignorePattern o = pattern ->
     Part000.process w config o out osArgs
     = Part000.process w config
         (set_files o (List.filter (fun f => negb (re f)) (files o)))
         out osArgs).
Proof.
  intros Hne Hre.
  assert (Hc : compile_ignore w pattern = Ok (Some re)).
  { unfold compile_ignore. apply String.eqb_neq in Hne. by rewrite Hne, Hre. }
  split.
  - intros fs igi dl wc ec fe fte. unfold MainGo.getData. rewrite Hc.
    destruct (load_gitignore w igi) as [gitLogs m].
    by rewrite loop_scoped_skip_ignored.
  - intros config o out osArgs Ho. unfold Part000.process.
    cbn [ignorePattern ignoreGitIgnore fileExecs execCommand wrapCode
         delimiter files set_files].
    rewrite Ho, Hc.
    destruct (load_gitignore w (ignoreGitIgnore o)) as [gitLogs m].
    by rewrite loop_shared_skip_ignored.
Qed.

Lemma C8_pattern_matches_are_skipped_witness :
  "tmp" <> "" /\
  regexp_Compile (sample_world "") "tmp" = Ok (fun path => contains "tmp" path) /\
  MainGo.getData (sample_world "") ["a.py"; "x.tmp"; "b.unknown"] "tmp" false
    DefaultDelimiter true "" ∅ None
  = MainGo.getData (sample_world "") ["a.py"; "b.unknown"] "tmp" false
      DefaultDelimiter true "" ∅ None.
Proof.
  split; [discriminate|]. split; [reflexivity|].
  pose proof (C8_pattern_matches_are_skipped (sample_world "") "tmp"
                (fun path => contains "tmp" path)) as H.
  destruct H as [H _]; [discriminate | reflexivity |].
  exact (H ["a.py"; "x.tmp"; "b.unknown"] false DefaultDelimiter true "" ∅ None).
Defined.

Section LoopSteps.

Variable w : World.
Variable ignoreRegex : option (string -> bool).
Variable ignoreGitIgnore : bool.
Variable gitIgnoreMatcher : option (string -> bool).
Variable execCommand : string.
Variable final : gmap string string.
Variable wrapCode : bool.
Variable delimiter : string.

Local Abbreviation body :=
  (process_file w ignoreRegex ignoreGitIgnore gitIgnoreMatcher execCommand
                final wrapCode delimiter).
Local Abbreviation shared :=
  (loop_shared w ignoreRegex ignoreGitIgnore gitIgnoreMatcher execCommand
               final wrapCode delimiter).
Local Abbreviation scoped :=
  (loop_scoped w ignoreRegex ignoreGitIgnore gitIgnoreMatcher execCommand
               final wrapCode delimiter).
Local Abbreviation keeps := (kept w ignoreRegex ignoreGitIgnore gitIgnoreMatcher).
Local Abbreviation emit := (read_and_emit w wrapCode delimiter).

Lemma body_exec_stage (st : LoopState) (f eo : string) :
  keeps f = true ->
  exec_stage w execCommand final f (executableOutput st) eo ->
  body st f = emit {| output := output st; logs := logs st;
                      executableOutput := eo |} f.
Proof.
  intros Hk Hs. rewrite process_file_kept by done.
  unfold run_and_emit. inversion Hs as [Hnone | prog args out Hne HF HC].
  - rewrite Hnone. simpl. by destruct st.
  - apply String.eqb_neq in Hne. rewrite Hne, HF, HC. by subst.
Qed.

Lemma body_read_error (st : LoopState) (f eo e : string) :
  keeps f = true ->
  exec_stage w execCommand final f (executableOutput st) eo ->
  ReadFile w f = Err e ->
  body st f = Continue {| output := output st;
                          logs := logs st ++ [read_error_line f e];
                          executableOutput := eo |}.
Proof.
  intros Hk Hs Hr. rewrite (body_exec_stage st f eo) by done.
  unfold read_and_emit. by rewrite Hr.
Qed.

Lemma body_read_ok (st : LoopState) (f eo content : string) :
  keeps f = true ->
  exec_stage w execCommand final f (executableOutput st) eo ->
  ReadFile w f = Ok content ->
  body st f = Continue {| output := output st +:+
                            block wrapCode delimiter f content eo;
                          logs := logs st;
                          executableOutput := eo |}.
Proof.
  intros Hk Hs Hr. rewrite (body_exec_stage st f eo) by done.
  unfold read_and_emit. by rewrite Hr.
Qed.

Lemma body_exec_fails (st : LoopState) (f prog out err : string)
    (args : list string) :
  keeps f = true ->
  resolve_executable execCommand final f <> "" ->
  Fields (resolve_executable execCommand final f) = prog :: args ->
  CombinedOutput w prog (args ++ [f]) = (out, Some err) ->
  body st f = Abort (logs st)
                (ExecFailed (resolve_executable execCommand final f) f err out).
Proof.
  intros Hk Hne HF HC. rewrite process_file_kept by done.
  unfold run_and_emit. apply String.eqb_neq in Hne.
  by rewrite Hne, HF, HC.
Qed.

(** The builder and the failure do not depend on what was logged. *)
Lemma body_logs_irrelevant (st st' : LoopState) (f : string) :
  output st = output st' ->
  executableOutput st = executableOutput st' ->
  match body st f, body st' f with
  | Continue a, Continue b =>
      output a = output b /\ executableOutput a = executableOutput b
  | Abort _ x, Abort _ y => x = y
  | _, _ => False
  end.
Proof.
  destruct st as [o l e], st' as [o' l' e']. simpl. intros -> ->.
  unfold process_file, run_and_emit, read_and_emit. simpl.
  repeat (case_match; simpl; try done); by simplify_eq.
Qed.

Lemma scoped_logs_irrelevant (fs : list string) (st st' : LoopState) :
  output st = output st' ->
  outcome_of (scoped fs st) = outcome_of (scoped fs st').
Proof.
  revert st st'. induction fs as [|f fs IH]; intros st st' Ho; simpl.
  - by rewrite Ho.
  - pose proof (body_logs_irrelevant (fresh st) (fresh st') f Ho eq_refl) as H.
    destruct (body (fresh st) f), (body (fresh st') f); try done.
    + apply IH. tauto.
    + simpl. by rewrite H.
Qed.

Lemma body_logs_grow (st : LoopState) (f : string) :
  exists l, logged_by (body st f) = logs st ++ l.
Proof.
  unfold process_file, run_and_emit, read_and_emit.
  repeat (case_match; simpl);
    solve [ exists []; by rewrite app_nil_r | eexists; reflexivity ].
Qed.

Lemma scoped_logs_grow (fs : list string) (st : LoopState) :
  exists l, logged_by (scoped fs st) = logs st ++ l.
Proof.
  revert st. induction fs as [|f fs IH]; intros st; simpl.
  - exists []. by rewrite app_nil_r.
  - destruct (body_logs_grow (fresh st) f) as [l Hl].
    destruct (body (fresh st) f) as [st'|lg x]; simpl in Hl.
    + destruct (IH st') as [l' Hl']. exists (l ++ l').
      by rewrite Hl', Hl, app_assoc.
    + by exists l.
Qed.

End LoopSteps.

Section GetData.
Import MainGo.

(** [getData] after its preamble. *)
Lemma getData_loop (w : World) files pat igi dl wc ec fe fte re gl m :
  compile_ignore w pat = Ok re ->
  load_gitignore w igi = (gl, m) ->
  getData w files pat igi dl wc ec fe fte =
  let s := loop_scoped w re igi m ec (merge_executables fte fe) wc dl files
             {| output := ""; logs := gl; executableOutput := "" |} in
  (logged_by s,
   match outcome_of s with
   | inr text => Ok text
   | inl f => Err (failure_text f)
   end).
Proof.
  intros Hc Hg. unfold getData. rewrite Hc, Hg. simpl.
  by destruct (loop_scoped _ _ _ _ _ _ _ _ _ _).
Qed.

End GetData.

(** C9.  A file that reaches the read and cannot be read is logged and
    skipped, and the files after it are processed as if it were not in the
    list: in main.go [getData] returns what it returns without that file;
    in part_000 the loop goes on from the same builder with one more log
    line.  A resolved executable that fails to start or exits non-zero
    ends the run: [getData] returns, and [main] dies with, a message
    carrying the command, the file, the error and the captured output. *)
Theorem C9_read_failure_skips_exec_failure_aborts
    (w : World) (pat : string) (igi : bool) (dl : string) (wc : bool)
    (ec : string) (fe : gmap string string) (fte : option (gmap string string))
    (re : option (string -> bool)) (gl : list string)
    (m : option (string -> bool)) (pre post : list string) (f : string) :
  compile_ignore w pat = Ok re ->
  load_gitignore w igi = (gl, m) ->
  kept w re igi m f = true ->
  let final := merge_executables fte fe in
  let run fs := MainGo.getData w fs pat igi dl wc ec fe fte in
  let loop := loop_shared w re igi m ec final wc dl in
  let start := {| output := ""; logs := gl; executableOutput := "" |} in
  (forall e, ReadFile w f = Err e ->
     (forall eo, exec_stage w ec final f "" eo ->
        (run (pre ++ f :: post)).2 = (run (pre ++ post)).2 /\
        (is_ok (run pre).2 = true ->
         read_error_line f e ∈ (run (pre ++ f :: post)).1)) /\
     (forall st0 st1 eo, loop pre st0 = Continue st1 ->
        exec_stage w ec final f (executableOutput st1) eo ->
        loop (pre ++ f :: post) st0 =
        loop post {| output := output st1;
                     logs := logs st1 ++ [read_error_line f e];
                     executableOutput := eo |})) /\
  (forall prog args out err,
     resolve_executable ec final f <> "" ->
     Fields (resolve_executable ec final f) = prog :: args ->
     CombinedOutput w prog (args ++ [f]) = (out, Some err) ->
     let detail :=
       "run executable '" +:+ resolve_executable ec final f +:+
       "' with file '" +:+ f +:+ "': " +:+ err +:+ nl +:+ "Output: " +:+ out in
     (is_ok (run pre).2 = true ->
        (run (pre ++ f :: post)).2 = Err ("failed to " +:+ detail) /\
        forall d app out0 args0 bn,
          FileTypeExecutables (MainGo.AppConfig app) = fte ->
          exit (MainGo.run_parsed w d app out0 args0
                  (mkOptions (pre ++ f :: post) pat igi dl wc "" bn ec fe))
          = Fatal ("Failed to process files: failed to " +:+ detail)) /\
     (forall st1, loop pre start = Continue st1 ->
        forall config out0 osArgs sn bn,
          FileTypeExecutables config = fte ->
          exit (Part000.process w config
                  (mkOptions (pre ++ f :: post) pat igi dl wc sn bn ec fe)
                  out0 osArgs)
          = Fatal ("Failed to " +:+ detail))).
Proof.
  intros Hc Hg Hk final run loop start.
  assert (Hrun : forall fs, run fs =
            let s := loop_scoped w re igi m ec final wc dl fs start in
            (logged_by s,
             match outcome_of s with
             | inr text => Ok text
             | inl x => Err (MainGo.failure_text x)
             end)).
  { intros fs. apply getData_loop; done. }
  split.
  - intros e He. split.
    + intros eo Hs. rewrite !Hrun. cbn zeta. cbn [fst snd].
      rewrite !loop_scoped_app.
      destruct (loop_scoped w re igi m ec final wc dl pre start)
        as [st1|lg x] eqn:Hpre; [|done].
      cbn [loop_scoped].
      rewrite (body_read_error _ _ _ _ _ _ _ _ (fresh st1) f eo e Hk Hs He).
      cbn [fresh output logs].
      split.
      * erewrite (scoped_logs_irrelevant _ _ _ _ _ _ _ _ post _ st1); done.
      * intros _.
        edestruct (scoped_logs_grow w re igi m ec final wc dl post) as [l ->].
        cbn [logs]. set_solver.
    + intros st0 st1 eo Hpre Hs. unfold loop in *.
      rewrite loop_shared_app, Hpre. cbn [loop_shared].
      by rewrite (body_read_error _ _ _ _ _ _ _ _ st1 f eo e Hk Hs He).
  - intros prog args out err Hne HF HC detail. split.
    + intros Hok.
      assert (Hfail : (run (pre ++ f :: post)).2 = Err ("failed to " +:+ detail)).
      { rewrite Hrun in Hok. rewrite Hrun. cbn zeta in *. cbn [fst snd] in *.
        rewrite loop_scoped_app.
        destruct (loop_scoped w re igi m ec final wc dl pre start)
          as [st1|lg x] eqn:Hpre; [|done].
        cbn [loop_scoped].
        by rewrite (body_exec_fails _ _ _ _ _ _ _ _ (fresh st1) f prog out err
                      args Hk Hne HF HC). }
      split; [exact Hfail|].
      intros d app out0 args0 bn Hfte. unfold MainGo.run_parsed.
      cbn [saveName files ignorePattern ignoreGitIgnore delimiter wrapCode
           execCommand fileExecs]. rewrite Hfte.
      replace (length (pre ++ f :: post) =? 0)%nat with false
        by (by destruct pre).
      cbn [String.eqb negb]. fold (run (pre ++ f :: post)).
      destruct (run (pre ++ f :: post)) as [lg r]. cbn [snd] in Hfail.
      by rewrite Hfail.
    + intros st1 Hpre config out0 osArgs sn bn Hfte. unfold Part000.process.
      cbn [saveName files ignorePattern ignoreGitIgnore delimiter wrapCode
           execCommand fileExecs]. rewrite Hc, Hg, Hfte.
      fold final. fold start. fold loop. unfold loop in *.
      rewrite loop_shared_app, Hpre. cbn [loop_shared].
      by rewrite (body_exec_fails _ _ _ _ _ _ _ _ st1 f prog out err args
                    Hk Hne HF HC).
Qed.

Lemma C9_read_failure_skips_exec_failure_aborts_witness :
  (MainGo.getData (sample_world "") ["a.py"; "missing.txt"; "b.unknown"] ""
     false DefaultDelimiter true "" ∅ None).2
  = (MainGo.getData (sample_world "") ["a.py"; "b.unknown"] ""
       false DefaultDelimiter true "" ∅ None).2 /\
  (MainGo.getData (sample_world "") ["a.py"; "b.unknown"] ""
     false DefaultDelimiter true "false" ∅ None).2
  = Err ("failed to run executable 'false' with file 'a.py': exit status 1"
         +:+ nl +:+ "Output: boom").
Proof.
  split.
  - pose proof (C9_read_failure_skips_exec_failure_aborts (sample_world "") ""
                  false DefaultDelimiter true "" ∅ None None [] None
                  ["a.py"] ["b.unknown"] "missing.txt"
                  eq_refl eq_refl eq_refl) as [H _].
    destruct (H _ eq_refl) as [H1 _].
    apply (H1 ""). apply exec_stage_none. reflexivity.
  - pose proof (C9_read_failure_skips_exec_failure_aborts (sample_world "") ""
                  false DefaultDelimiter true "false" ∅ None None [] None
                  [] ["b.unknown"] "a.py"
                  eq_refl eq_refl eq_refl) as [_ H].
    destruct (H "false" [] "boom" "exit status 1") as [H1 _];
      [vm_compute; discriminate | reflexivity | reflexivity |].
    apply H1. reflexivity.
Defined.

Section Carryover.

Variable w : World.
Variable ignoreRegex : option (string -> bool).
Variable ignoreGitIgnore : bool.
Variable gitIgnoreMatcher : option (string -> bool).
Variable execCommand : string.
Variable final : gmap string string.
Variable wrapCode : bool.
Variable delimiter : string.

Local Abbreviation body :=
  (process_file w ignoreRegex ignoreGitIgnore gitIgnoreMatcher execCommand
                final wrapCode delimiter).
Local Abbreviation shared :=
  (loop_shared w ignoreRegex ignoreGitIgnore gitIgnoreMatcher execCommand
               final wrapCode delimiter).
Local Abbreviation scoped :=
  (loop_scoped w ignoreRegex ignoreGitIgnore gitIgnoreMatcher execCommand
               final wrapCode delimiter).
Local Abbreviation keeps := (kept w ignoreRegex ignoreGitIgnore gitIgnoreMatcher).
Local Abbreviation runs_nothing :=
  (runs_nothing w ignoreRegex ignoreGitIgnore gitIgnoreMatcher execCommand
                final).

Lemma body_runs_nothing (st : LoopState) (f : string) :
  runs_nothing f ->
  exists st', body st f = Continue st' /\
              executableOutput st' = executableOutput st.
Proof.
  intros [Hk | Hx].
  - destruct (process_file_not_kept w ignoreRegex ignoreGitIgnore
                gitIgnoreMatcher execCommand final wrapCode delimiter
                st f Hk) as [l ->].
    by eexists.
  - destruct (keeps f) eqn:Hk.
    + rewrite (body_exec_stage _ _ _ _ _ _ _ _ st f (executableOutput st) Hk)
        by (by apply exec_stage_none).
      unfold read_and_emit. destruct (ReadFile w f); by eexists.
    + destruct (process_file_not_kept w ignoreRegex ignoreGitIgnore
                  gitIgnoreMatcher execCommand final wrapCode delimiter
                  st f Hk) as [l ->].
      by eexists.
Qed.

Lemma shared_runs_nothing (fs : list string) (st : LoopState) :
  Forall runs_nothing fs ->
  exists st', shared fs st = Continue st' /\
              executableOutput st' = executableOutput st.
Proof.
  intros H. revert st. induction H as [|f fs Hf _ IH]; intros st.
  - by exists st.
  - destruct (body_runs_nothing st f Hf) as (st1 & H1 & E1).
    destruct (IH st1) as (st2 & H2 & E2).
    exists st2. simpl. rewrite H1. split; [done | congruence].
Qed.

Lemma scoped_runs_nothing (fs : list string) (st : LoopState) :
  Forall runs_nothing fs ->
  exists st', scoped fs st = Continue st'.
Proof.
  intros H. revert st. induction H as [|f fs Hf _ IH]; intros st.
  - by eexists.
  - destruct (body_runs_nothing (fresh st) f Hf) as (st1 & H1 & _).
    destruct (IH st1) as (st2 & H2).
    exists st2. simpl. by rewrite H1.
Qed.

(** The first file runs an executable that succeeds; the iteration goes
    on whatever the read gives. *)
Lemma body_after_exec (st : LoopState) (k prog o : string)
    (args : list string) :
  keeps k = true ->
  resolve_executable execCommand final k <> "" ->
  Fields (resolve_executable execCommand final k) = prog :: args ->
  CombinedOutput w prog (args ++ [k]) = (o, None) ->
  exists st', body st k = Continue st' /\ executableOutput st' = o.
Proof.
  intros Hk Hne HF HC.
  rewrite (body_exec_stage _ _ _ _ _ _ _ _ st k o Hk)
    by (by eapply exec_stage_ran).
  unfold read_and_emit. destruct (ReadFile w k); by eexists.
Qed.

Lemma block_with_and_without_output (f content o : string) :
  o <> "" ->
  let head :=
    f +:+ nl +:+
    (if wrapCode then fence +:+ language_of (Ext f) +:+ nl else "") +:+
    content +:+ nl +:+ (if wrapCode then fence +:+ nl else "") in
  block wrapCode delimiter f content "" = head +:+ delimiter +:+ nl /\
  block wrapCode delimiter f content o
  = head +:+ o +:+ nl +:+ delimiter +:+ nl.
Proof.
  intros Ho head. unfold block, head.
  apply String.eqb_neq in Ho. rewrite Ho. cbn [String.eqb].
  rewrite !append_assoc. done.
Qed.

End Carryover.

(** C3.  In part_000 [executableOutput] is declared once, before the loop:
    when a file [k] runs an executable that succeeds with a non-empty
    output [o], and a later file [m] that is not skipped resolves no
    executable, with no file in between running one, the block written for
    [m] carries [o] just before the delimiter.  In main.go the variable is
    declared inside the loop body and the block of [m] carries no captured
    output, whatever came before. *)
Theorem C3_captured_output_carryover
    (w : World) (re : option (string -> bool)) (igi : bool)
    (gm : option (string -> bool)) (ec : string) (final : gmap string string)
    (wc : bool) (dl : string)
    (pre mid : list string) (k m prog o content : string) (args : list string) :
  kept w re igi gm k = true ->
  resolve_executable ec final k <> "" ->
  Fields (resolve_executable ec final k) = prog :: args ->
  CombinedOutput w prog (args ++ [k]) = (o, None) ->
  o <> "" ->
  Forall (runs_nothing w re igi gm ec final) mid ->
  kept w re igi gm m = true ->
  resolve_executable ec final m = "" ->
  ReadFile w m = Ok content ->
  let part000 := loop_shared w re igi gm ec final wc dl in
  let maingo := loop_scoped w re igi gm ec final wc dl in
  let head :=
    m +:+ nl +:+ (if wc then fence +:+ language_of (Ext m) +:+ nl else "") +:+
    content +:+ nl +:+ (if wc then fence +:+ nl else "") in
  (forall st0 st1, part000 pre st0 = Continue st1 ->
     exists st2, part000 (pre ++ k :: mid) st0 = Continue st2 /\
       forall post,
         part000 (pre ++ k :: mid ++ m :: post) st0
         = part000 post
             {| output := output st2 +:+ head +:+ o +:+ nl +:+ dl +:+ nl;
                logs := logs st2; executableOutput := o |}) /\
  (forall st0 st1, maingo pre st0 = Continue st1 ->
     exists st2, maingo (pre ++ k :: mid) st0 = Continue st2 /\
       forall post,
         maingo (pre ++ k :: mid ++ m :: post) st0
         = maingo post
             {| output := output st2 +:+ head +:+ dl +:+ nl;
                logs := logs st2; executableOutput := "" |}).
Proof.
  intros Hk Hne HF HC Ho Hmid Hm Hx Hr part000 maingo head.
  destruct (block_with_and_without_output wc dl m content o Ho) as [B0 Bo].
  fold head in B0, Bo.
  split.
  - intros st0 st1 Hpre. unfold part000 in *.
    destruct (body_after_exec w re igi gm ec final wc dl st1 k prog o args
                Hk Hne HF HC) as (sk & Hsk & Ek).
    destruct (shared_runs_nothing w re igi gm ec final wc dl mid sk Hmid)
      as (st2 & H2 & E2).
    exists st2. split.
    + rewrite loop_shared_app, Hpre. cbn [loop_shared]. by rewrite Hsk.
    + intros post.
      replace (pre ++ k :: mid ++ m :: post)
        with ((pre ++ k :: mid) ++ m :: post)
        by (by rewrite <- app_assoc).
      rewrite loop_shared_app.
      rewrite (loop_shared_app _ _ _ _ _ _ _ _ pre), Hpre.
      cbn [loop_shared]. rewrite Hsk, H2.
      rewrite (body_read_ok w re igi gm ec final wc dl st2 m
                 (executableOutput st2) content Hm)
        by (by apply exec_stage_none || done).
      by rewrite E2, Ek, Bo.
  - intros st0 st1 Hpre. unfold maingo in *.
    destruct (body_after_exec w re igi gm ec final wc dl (fresh st1) k prog o
                args Hk Hne HF HC) as (sk & Hsk & Ek).
    destruct (scoped_runs_nothing w re igi gm ec final wc dl mid sk Hmid)
      as (st2 & H2).
    exists st2. split.
    + rewrite loop_scoped_app, Hpre. cbn [loop_scoped]. by rewrite Hsk.
    + intros post.
      replace (pre ++ k :: mid ++ m :: post)
        with ((pre ++ k :: mid) ++ m :: post)
        by (by rewrite <- app_assoc).
      rewrite loop_scoped_app.
      rewrite (loop_scoped_app _ _ _ _ _ _ _ _ pre), Hpre.
      cbn [loop_scoped]. rewrite Hsk, H2.
      rewrite (body_read_ok w re igi gm ec final wc dl (fresh st2) m
                 "" content Hm)
        by (by apply exec_stage_none || done).
      cbn [fresh output logs]. by rewrite B0.
Qed.

Lemma C3_captured_output_carryover_witness :
  let w := sample_world "" in
  let final : gmap string string := {[ ".go" := "lint" ]} in
  let start := {| output := ""; logs := []; executableOutput := "" |} in
  outcome_of (loop_shared w None false None "" final true "======"
                ["a.go"; "b.txt"] start)
  = inr ("a.go" +:+ nl +:+ "```go" +:+ nl +:+ "package main" +:+ nl +:+
         "```" +:+ nl +:+ "lint: warning" +:+ nl +:+ "======" +:+ nl +:+
         "b.txt" +:+ nl +:+ "```plaintext" +:+ nl +:+ "hello" +:+ nl +:+
         "```" +:+ nl +:+ "lint: warning" +:+ nl +:+ "======" +:+ nl) /\
  outcome_of (loop_scoped w None false None "" final true "======"
                ["a.go"; "b.txt"] start)
  = inr ("a.go" +:+ nl +:+ "```go" +:+ nl +:+ "package main" +:+ nl +:+
         "```" +:+ nl +:+ "lint: warning" +:+ nl +:+ "======" +:+ nl +:+
         "b.txt" +:+ nl +:+ "```plaintext" +:+ nl +:+ "hello" +:+ nl +:+
         "```" +:+ nl +:+ "======" +:+ nl).
Proof.
  intros w final start.
  destruct (C3_captured_output_carryover w None false None "" final true
              "======" [] [] "a.go" "b.txt" "lint" "lint: warning" "hello" [])
    as [Hshared Hscoped];
    [ reflexivity | vm_compute; discriminate | reflexivity | reflexivity
    | discriminate | constructor | reflexivity | reflexivity | reflexivity | ].
  split.
  - destruct (Hshared start start eq_refl) as (st2 & E2 & Hpost).
    specialize (Hpost []). cbn [app] in Hpost, E2. rewrite Hpost.
    vm_compute in E2. injection E2 as <-. reflexivity.
  - destruct (Hscoped start start eq_refl) as (st2 & E2 & Hpost).
    specialize (Hpost []). cbn [app] in Hpost, E2. rewrite Hpost.
    vm_compute in E2. injection E2 as <-. reflexivity.
Defined.

(** C6.  With no ignore pattern, no gitignore match, no executable
    resolved, the default delimiter and wrapping on, the list
    [a.py, b.unknown] with contents [print(1)] and [xyz] yields exactly the
    text of the specification's scenario, in both variants; and the tokens
    [-files a.py b.unknown] parse to these options. *)
Theorem C6_two_file_scenario (w : World) (igi : bool)
    (fe : gmap string string) (fte : option (gmap string string))
    (gl : list string) (gm : option (string -> bool)) :
  load_gitignore w igi = (gl, gm) ->
  kept w None igi gm "a.py" = true ->
  kept w None igi gm "b.unknown" = true ->
  resolve_executable "" (merge_executables fte fe) "a.py" = "" ->
  resolve_executable "" (merge_executables fte fe) "b.unknown" = "" ->
  ReadFile w "a.py" = Ok "print(1)" ->
  ReadFile w "b.unknown" = Ok "xyz" ->
  MainGo.getData w scenario_files "" igi DefaultDelimiter true "" fe fte
  = (gl, Ok scenario_output) /\
  (forall config out osArgs sn bn,
     FileTypeExecutables config = fte ->
     clipboard_WriteAll w scenario_output = None ->
     exit (Part000.process w config
             (mkOptions scenario_files "" igi DefaultDelimiter true sn bn "" fe)
             out osArgs)
     = Copied scenario_output) /\
  parse_loop ["-files"; "a.py"; "b.unknown"] defaultOptions
  = inr (mkOptions scenario_files "" false DefaultDelimiter true "" "" "" ∅).
Proof.
  intros Hg Ka Kb Xa Xb Ra Rb.
  split; [|split; [|reflexivity]].
  - unfold MainGo.getData, compile_ignore. cbn [String.eqb]. rewrite Hg.
    unfold scenario_files. cbn [loop_scoped].
    rewrite (body_read_ok _ _ _ _ _ _ _ _ _ "a.py" "" "print(1)" Ka)
      by (by apply exec_stage_none || done).
    cbn [loop_scoped].
    rewrite (body_read_ok _ _ _ _ _ _ _ _ _ "b.unknown" "" "xyz" Kb)
      by (by apply exec_stage_none || done).
    reflexivity.
  - intros config out osArgs sn bn Hfte Hclip. unfold Part000.process.
    cbn [ignorePattern ignoreGitIgnore fileExecs execCommand wrapCode
         delimiter files].
    unfold compile_ignore. cbn [String.eqb]. rewrite Hg, Hfte.
    unfold scenario_files. cbn [loop_shared].
    rewrite (body_read_ok _ _ _ _ _ _ _ _ _ "a.py" "" "print(1)" Ka)
      by (by apply exec_stage_none || done).
    cbn [loop_shared].
    rewrite (body_read_ok _ _ _ _ _ _ _ _ _ "b.unknown" "" "xyz" Kb)
      by (by apply exec_stage_none || done).
    cbn [output logs].
    repeat match goal with
           | |- context [clipboard_WriteAll w ?t] =>
               progress change t with scenario_output
           | |- context [Copied ?t] =>
               progress change t with scenario_output
           end.
    by rewrite Hclip.
Qed.

Lemma C6_two_file_scenario_witness :
  MainGo.getData (sample_world "") scenario_files "" false DefaultDelimiter
    true "" ∅ None
  = ([], Ok scenario_output).
Proof.
  apply (C6_two_file_scenario (sample_world "") false ∅ None [] None);
    reflexivity.
Defined.

(** ** What a loop writes *)

Lemma concat_text_app (l1 l2 : list string) :
  concat_text (l1 ++ l2) = concat_text l1 +:+ concat_text l2.
Proof.
  induction l1 as [|x l1 IH]; [done|].
  cbn [app]. unfold concat_text in *. cbn [foldr].
  by rewrite IH, append_assoc.
Qed.

Section Blocks.

Variable w : World.
Variable ignoreRegex : option (string -> bool).
Variable ignoreGitIgnore : bool.
Variable gitIgnoreMatcher : option (string -> bool).
Variable execCommand : string.
Variable final : gmap string string.
Variable wrapCode : bool.
Variable delimiter : string.

Local Abbreviation body :=
  (process_file w ignoreRegex ignoreGitIgnore gitIgnoreMatcher execCommand
                final wrapCode delimiter).
Local Abbreviation shared :=
  (loop_shared w ignoreRegex ignoreGitIgnore gitIgnoreMatcher execCommand
               final wrapCode delimiter).
Local Abbreviation scoped :=
  (loop_scoped w ignoreRegex ignoreGitIgnore gitIgnoreMatcher execCommand
               final wrapCode delimiter).
Local Abbreviation keeps := (kept w ignoreRegex ignoreGitIgnore gitIgnoreMatcher).
Local Abbreviation run :=
  (run_and_emit w execCommand final wrapCode delimiter).
Local Abbreviation emit := (read_and_emit w wrapCode delimiter).
Local Abbreviation reads :=
  (read_files w ignoreRegex ignoreGitIgnore gitIgnoreMatcher).
Local Abbreviation captured :=
  (captured_by w ignoreRegex ignoreGitIgnore gitIgnoreMatcher execCommand
               final).
Local Abbreviation block_of' :=
  (block_of w ignoreRegex ignoreGitIgnore gitIgnoreMatcher execCommand final).
Local Abbreviation blocks :=
  (blocks_of w ignoreRegex ignoreGitIgnore gitIgnoreMatcher execCommand final
             wrapCode delimiter).

Lemma captured_by_mono (fs fs' : list string) (a b : string) :
  fs ⊆ fs' -> captured fs a b -> captured fs' a b.
Proof.
  intros Hsub [-> | (f & prog & args & Hin & H)]; [by left|].
  right. exists f, prog, args. split; [by apply Hsub | done].
Qed.

Lemma captured_by_trans (fs : list string) (a b c : string) :
  captured fs a b -> captured fs b c -> captured fs a c.
Proof. intros Hab [-> | Hc]; [done | by right]. Qed.

Lemma read_files_cons (f : string) (fs : list string) :
  reads (f :: fs) = reads [f] ++ reads fs.
Proof.
  unfold read_files. cbn [List.filter].
  by destruct (keeps f && is_ok (ReadFile w f)).
Qed.

(** An iteration that reads its file writes the block of that file; any
    other iteration writes nothing. *)
Lemma emit_writes (st st' : LoopState) (f : string) :
  keeps f = true ->
  emit st f = Continue st' ->
  executableOutput st' = executableOutput st /\
  blocks [f] (executableOutput st) (output st) (output st').
Proof.
  intros Hk. unfold read_and_emit, blocks_of, read_files.
  cbn [List.filter]. rewrite Hk.
  destruct (ReadFile w f) as [c|e] eqn:Hr; intros [= <-];
    cbn [executableOutput output andb is_ok]; (split; [done|]).
  - exists [ {| w_path := f; w_content := c;
                w_captured := executableOutput st |} ].
    cbn [fmap list_fmap w_path]. unfold written_text, concat_text.
    cbn [foldr w_path w_content w_captured]. rewrite append_empty_r.
    split; [done|]. split; [done|].
    constructor; [|constructor]. split; [done | by left].
  - exists []. cbn [fmap list_fmap]. unfold concat_text. cbn [foldr].
    rewrite append_empty_r. split; [done|]. split; [done | constructor].
Qed.

Lemma run_writes (st st' : LoopState) (f : string) :
  keeps f = true ->
  run st f = Continue st' ->
  captured [f] (executableOutput st) (executableOutput st') /\
  blocks [f] (executableOutput st) (output st) (output st').
Proof.
  intros Hk. unfold run_and_emit.
  destruct (String.eqb_spec (resolve_executable execCommand final f) "")
    as [|Hne].
  { intros [E H]%emit_writes; [|done]. split; [by left | done]. }
  destruct (Fields _) as [|prog args] eqn:HF; [done|].
  destruct (CombinedOutput w prog (args ++ [f])) as [out [err|]] eqn:HC;
    [done|].
  intros [E (bs & Ho & Hp & Hb)]%emit_writes; [|done].
  cbn [executableOutput output] in *.
  assert (Hcap : captured [f] (executableOutput st) out).
  { right. exists f, prog, args.
    split; [by apply list_elem_of_singleton | done]. }
  split; [by rewrite E|].
  exists bs. split; [done|]. split; [done|].
  eapply Forall_impl; [exact Hb|].
  intros b [Hr Hcb]. split; [done|].
  destruct Hcb as [Heq | Hcb]; [by rewrite Heq | by right].
Qed.

Lemma body_writes (st st' : LoopState) (f : string) :
  body st f = Continue st' ->
  captured [f] (executableOutput st) (executableOutput st') /\
  blocks [f] (executableOutput st) (output st) (output st').
Proof.
  destruct (keeps f) eqn:Hk.
  - rewrite process_file_kept by done. by apply run_writes.
  - destruct (process_file_not_kept w ignoreRegex ignoreGitIgnore
                gitIgnoreMatcher execCommand final wrapCode delimiter st f Hk)
      as [lg ->].
    intros [= <-]. cbn [executableOutput output].
    split; [by left|]. exists []. unfold read_files. cbn [List.filter].
    rewrite Hk. cbn [andb fmap list_fmap]. unfold concat_text. cbn [foldr].
    rewrite append_empty_r. split; [done|]. split; [done | constructor].
Qed.

(** Two stretches of a loop, one after the other. *)
Lemma blocks_of_cons (f : string) (fs : list string) (i0 i1 o0 o1 o2 : string) :
  captured [f] i0 i1 ->
  blocks [f] i0 o0 o1 ->
  blocks fs i1 o1 o2 ->
  blocks (f :: fs) i0 o0 o2.
Proof.
  intros Hc (bs1 & -> & Hp1 & Hb1) (bs2 & -> & Hp2 & Hb2).
  exists (bs1 ++ bs2).
  rewrite !fmap_app, concat_text_app, append_assoc, Hp1, Hp2.
  split; [done|]. split; [symmetry; apply read_files_cons|].
  apply Forall_app. split.
  - eapply Forall_impl; [exact Hb1|]. intros b [Hr Hcap].
    split; [done|]. eapply captured_by_mono; [|exact Hcap].
    apply list_subseteq_skip, list_subseteq_nil.
  - eapply Forall_impl; [exact Hb2|]. intros b [Hr Hcap].
    split; [done|]. eapply captured_by_trans.
    + eapply captured_by_mono; [|exact Hc].
      apply list_subseteq_skip, list_subseteq_nil.
    + eapply captured_by_mono; [|exact Hcap]. by apply list_subseteq_cons.
Qed.

Lemma blocks_of_nil (i o : string) : blocks [] i o o.
Proof.
  exists []. cbn [fmap list_fmap]. unfold concat_text. cbn [foldr].
  rewrite append_empty_r. split; [done|]. split; [done | constructor].
Qed.

Lemma shared_writes (fs : list string) (st st' : LoopState) :
  shared fs st = Continue st' ->
  blocks fs (executableOutput st) (output st) (output st').
Proof.
  revert st. induction fs as [|f fs IH]; intros st.
  - intros [= <-]. apply blocks_of_nil.
  - cbn [loop_shared]. destruct (body st f) as [st1|] eqn:Hb; [|done].
    intros H%IH. destruct (body_writes st st1 f Hb) as [Hc Hw].
    by eapply blocks_of_cons.
Qed.

Lemma scoped_writes (fs : list string) (st st' : LoopState) :
  scoped fs st = Continue st' ->
  blocks fs "" (output st) (output st').
Proof.
  revert st. induction fs as [|f fs IH]; intros st.
  - intros [= <-]. apply blocks_of_nil.
  - cbn [loop_scoped]. destruct (body (fresh st) f) as [st1|] eqn:Hb; [|done].
    intros H%IH. destruct (body_writes (fresh st) st1 f Hb) as [_ Hw].
    cbn [fresh executableOutput output] in Hw.
    apply (blocks_of_cons f fs "" "" _ (output st1)); [by left | done | done].
Qed.

End Blocks.

(** ** Fences *)

Lemma prefix_fence_newline (s t : string) :
  String.prefix fence (s +:+ nl +:+ t) = String.prefix fence s.
Proof.
  destruct s as [|a [|b [|c s]]];
    cbv [fence String.append String.prefix nl];
    repeat (destruct (ascii_dec _ _)); try done.
  by destruct s.
Qed.

Lemma has_fence_newline (s t : string) :
  has_fence (s +:+ nl +:+ t) = has_fence s || has_fence t.
Proof.
  induction s as [|c s IH]; [reflexivity|].
  change (has_fence (String c s +:+ nl +:+ t))
    with (String.prefix fence (String c s +:+ nl +:+ t)
          || has_fence (s +:+ nl +:+ t)).
  change (has_fence (String c s))
    with (String.prefix fence (String c s) || has_fence s).
  rewrite prefix_fence_newline, IH. by rewrite orb_assoc.
Qed.

Lemma has_fence_plain_block (dl f c eo rest : string) :
  has_fence (block false dl f c eo +:+ rest)
  = has_fence f || has_fence c || has_fence eo || has_fence dl
    || has_fence rest.
Proof.
  unfold block. destruct (String.eqb_spec eo "") as [->|_].
  - change (has_fence ((f +:+ nl +:+ c +:+ nl +:+ dl +:+ nl) +:+ rest)
            = has_fence f || has_fence c || false || has_fence dl
              || has_fence rest).
    rewrite !append_assoc, !has_fence_newline.
    by rewrite orb_false_r, !orb_assoc.
  - change (has_fence ((f +:+ nl +:+ c +:+ nl +:+ (eo +:+ nl) +:+ dl +:+ nl)
                       +:+ rest)
            = has_fence f || has_fence c || has_fence eo || has_fence dl
              || has_fence rest).
    rewrite !append_assoc, !has_fence_newline.
    by rewrite !orb_assoc.
Qed.

Lemma has_fence_plain_blocks (dl : string) (bs : list Written) :
  has_fence dl = false ->
  Forall (fun b => has_fence (w_path b) = false /\
                   has_fence (w_content b) = false /\
                   has_fence (w_captured b) = false) bs ->
  has_fence (concat_text (written_text false dl <$> bs)) = false.
Proof.
  intros Hdl. induction 1 as [|b bs (Hp & Hc & He) _ IH]; [reflexivity|].
  change (has_fence (block false dl (w_path b) (w_content b) (w_captured b)
                     +:+ concat_text (written_text false dl <$> bs)) = false).
  by rewrite has_fence_plain_block, Hp, Hc, He, Hdl, IH.
Qed.

(** The static table has no empty label, so a listed extension gets its
    label and any other one gets [plaintext]. *)
Lemma language_of_table (ext : string) :
  match languageMap !! ext with
  | Some lang => language_of ext = lang
  | None => language_of ext = "plaintext"
  end.
Proof.
  unfold language_of. destruct (languageMap !! ext) as [lang|] eqn:E;
    [|reflexivity].
  simpl. destruct (String.eqb_spec lang "") as [->|]; [|done].
  exfalso. unfold languageMap in E.
  apply elem_of_list_to_map_2 in E.
  repeat (apply elem_of_cons in E as [E | E]; [discriminate E|]).
  by apply elem_of_nil in E.
Qed.

(** ** The text of a finished run is the text of its blocks *)

Lemma getData_blocks (w : World) files pat igi dl wc ec fe fte re gl gm lg text :
  compile_ignore w pat = Ok re ->
  load_gitignore w igi = (gl, gm) ->
  MainGo.getData w files pat igi dl wc ec fe fte = (lg, Ok text) ->
  blocks_of w re igi gm ec (merge_executables fte fe) wc dl files "" "" text.
Proof.
  intros Hc Hg. unfold MainGo.getData. rewrite Hc, Hg.
  destruct (loop_scoped _ _ _ _ _ _ _ _ _ _) as [st|] eqn:Hl; [|done].
  intros [= _ <-]. by apply scoped_writes in Hl.
Qed.

Lemma process_blocks (w : World) config o out osArgs re gl gm text :
  compile_ignore w (ignorePattern o) = Ok re ->
  load_gitignore w (ignoreGitIgnore o) = (gl, gm) ->
  exit (Part000.process w config o out osArgs) = Copied text ->
  blocks_of w re (ignoreGitIgnore o) gm (execCommand o)
            (merge_executables (FileTypeExecutables config) (fileExecs o))
            (wrapCode o) (delimiter o) (files o) "" "" text.
Proof.
  intros Hc Hg. unfold Part000.process. rewrite Hc, Hg.
  destruct (loop_shared _ _ _ _ _ _ _ _ _ _) as [st|] eqn:Hl; [|done].
  destruct (clipboard_WriteAll w (output st)); [done|].
  intros [= <-]. by apply shared_writes in Hl.
Qed.

(** C7 (amended).  When a run finishes, the text is the sequence of the
    blocks of the files it read (those of the list that no filter skips and
    that can be read), in list order, one block per file.  With wrapping
    off the tool writes no fence of its own: the text has no triple
    backtick as soon as the delimiter, the paths and contents of the files
    read and the outputs captured from the commands that ran have none.
    With wrapping on, in each block the content read sits between an
    opening fence tagged with the label of the file's extension and a
    closing fence; the label is the table's one for a listed extension and
    [plaintext] otherwise.  Both variants. *)
Theorem C7_fences (w : World) (fs : list string) (pat : string) (igi : bool)
    (dl ec : string) (fe : gmap string string)
    (fte : option (gmap string string)) (re : option (string -> bool))
    (gl : list string) (gm : option (string -> bool)) (text : string) :
  compile_ignore w pat = Ok re ->
  load_gitignore w igi = (gl, gm) ->
  let final := merge_executables fte fe in
  let finished wc :=
    (exists lg, MainGo.getData w fs pat igi dl wc ec fe fte = (lg, Ok text)) \/
    (exists config out osArgs sn bn,
       FileTypeExecutables config = fte /\
       exit (Part000.process w config
               (mkOptions fs pat igi dl wc sn bn ec fe) out osArgs)
       = Copied text) in
  (finished false ->
   has_fence dl = false ->
   (forall f c, f ∈ read_files w re igi gm fs -> ReadFile w f = Ok c ->
      has_fence f = false /\ has_fence c = false) ->
   (forall f prog args out,
      f ∈ fs -> kept w re igi gm f = true ->
      resolve_executable ec final f <> "" ->
      Fields (resolve_executable ec final f) = prog :: args ->
      CombinedOutput w prog (args ++ [f]) = (out, None) ->
      has_fence out = false) ->
   has_fence text = false) /\
  (finished true ->
   exists bs,
     text = concat_text (written_text true dl <$> bs) /\
     w_path <$> bs = read_files w re igi gm fs /\
     Forall (fun b =>
               ReadFile w (w_path b) = Ok (w_content b) /\
               exists rest,
                 written_text true dl b
                 = w_path b +:+ nl +:+
                   fence +:+ language_of (Ext (w_path b)) +:+ nl +:+
                   w_content b +:+ nl +:+
                   fence +:+ nl +:+ rest) bs) /\
  (forall ext,
     match languageMap !! ext with
     | Some lang => language_of ext = lang
     | None => language_of ext = "plaintext"
     end).
Proof.
  intros Hc Hg final finished.
  assert (Hbs : forall wc, finished wc ->
            blocks_of w re igi gm ec final wc dl fs "" "" text).
  { intros wc [[lg H] | (config & out & osArgs & sn & bn & <- & H)].
    - by eapply getData_blocks.
    - by apply (process_blocks w config _ out osArgs re gl gm) in H. }
  split; [|split; [|apply language_of_table]].
  - intros (bs & -> & Hp & Hf)%Hbs Hdl Hfiles Hcaptured.
    apply has_fence_plain_blocks; [done|].
    apply Forall_forall. intros b Hb.
    destruct (proj1 (Forall_forall _ _) Hf b Hb) as [Hr Hcap].
    assert (Hin : w_path b ∈ read_files w re igi gm fs).
    { rewrite <- Hp. by apply list_elem_of_fmap_2. }
    destruct (Hfiles _ _ Hin Hr) as [Hpath Hcontent].
    split; [done|]. split; [done|].
    destruct Hcap as [-> | (f & prog & args & Hf' & Hk & Hne & HF & HC)];
      [reflexivity | by eapply Hcaptured].
  - intros (bs & -> & Hp & Hf)%Hbs.
    exists bs. split; [done|]. split; [done|].
    eapply Forall_impl; [exact Hf|].
    intros b (Hr & _). split; [done|].
    unfold written_text, block.
    eexists. rewrite !append_assoc. reflexivity.
Qed.

(** C7 as stated fails: with wrapping off, a file whose content is a
    triple backtick is copied as it is, and the output contains one. *)
Lemma C7_counterexample :
  exists text,
    MainGo.getData (sample_world "") ["notes.md"] "" false DefaultDelimiter
      false "" ∅ None = ([], Ok text) /\
    has_fence text = true.
Proof. eexists. split; [vm_compute; reflexivity | reflexivity]. Qed.

Lemma C7_fences_witness :
  has_fence ("a.py" +:+ nl +:+ "print(1)" +:+ nl +:+ "======" +:+ nl +:+
             "b.unknown" +:+ nl +:+ "xyz" +:+ nl +:+ "======" +:+ nl) = false /\
  exists bs,
    scenario_output = concat_text (written_text true DefaultDelimiter <$> bs) /\
    w_path <$> bs = ["a.py"; "b.unknown"].
Proof.
  split.
  - refine (proj1 (C7_fences (sample_world "") scenario_files "" false
                     DefaultDelimiter "" ∅ None None [] None _
                     eq_refl eq_refl) _ eq_refl _ _).
    + left. exists []. vm_compute. reflexivity.
    + intros f c Hf. change (f ∈ ["a.py"; "b.unknown"]) in Hf.
      repeat (apply elem_of_cons in Hf as [-> | Hf];
              [by intros [= <-]|]).
      by apply elem_of_nil in Hf.
    + intros f prog args out _ _ Hne. by destruct Hne.
  - destruct (proj1 (proj2 (C7_fences (sample_world "") scenario_files ""
                              false DefaultDelimiter "" ∅ None None [] None
                              scenario_output eq_refl eq_refl)))
      as (bs & Htext & Hpaths & _).
    + left. exists []. vm_compute. reflexivity.
    + by exists bs.
Defined.

(** ** The preset resolver *)

Section Replay.
Import MainGo.

(** main.go parses the tokens of the preset chosen interactively. *)
Lemma main_go_reparses_selection (w : World) (d : Disk) (home : string)
    (app : App) (out savedArgs : list string) :
  UserHomeDir w = Ok home ->
  NewApp (config_path home) d = Ok app ->
  select_saved w app = (out, Ok savedArgs) ->
  main w d [] =
  match parseArguments savedArgs with
  | Err e => die out [] savedArgs ("Failed to parse arguments: " +:+ e)
  | Ok o => run_parsed w d app out savedArgs o
  end.
Proof.
  intros Hhome Happ Hsel. unfold main. rewrite Hhome, Happ.
  cbn [length Nat.eqb]. by rewrite Hsel.
Qed.

(** main.go drops the value of [-by-name]: the run is the one of the same
    tokens with another name after the flag. *)
Lemma main_go_ignores_by_name (w : World) (d : Disk) (app : App)
    (out args : list string) (o : Options) (other : string) :
  run_parsed w d app out args o = run_parsed w d app out args (set_byName o other).
Proof. reflexivity. Qed.

End Replay.

(** part_000 from the parsed options on. *)
Lemma part000_main_resolve (w : World) (d : Disk) (home : string)
    (config : Config) (args : list string) (o : Options) :
  UserHomeDir w = Ok home ->
  Part000.loadConfig d = Ok config ->
  parse_loop args defaultOptions = inr o ->
  saveName o = "" ->
  Part000.main w d args =
  match Part000.resolve w config o args with
  | (out, Err msg) => die out [] args msg
  | (out, Ok osArgs) => Part000.process w config o out osArgs
  end.
Proof.
  intros Hhome Hload Hparse Hsave. unfold Part000.main.
  by rewrite Hhome, Hload, Hparse, Hsave.
Qed.

(** part_000 reports a missing preset with the folder and the name. *)
Lemma part000_by_name_missing (w : World) (config : Config) (o : Options)
    (args : list string) (D : string) :
  byName o <> "" ->
  Getwd w = Ok D ->
  stored config D (byName o) = None \/ stored config D (byName o) = Some [] ->
  Part000.resolve w config o args
  = ([], Err ("No saved arguments found for name '" +:+ byName o +:+
              "' in folder '" +:+ D +:+ "'")).
Proof.
  intros Hb Hwd Hst. unfold Part000.resolve.
  apply String.eqb_neq in Hb. rewrite Hb, Hwd. cbn [negb].
  unfold stored in Hst.
  destruct (map_get (Folders config) D) as [fc|]; [|done].
  unfold saved_tokens. destruct (SavedName fc) as [names|]; [|done].
  simpl in *. by destruct Hst as [-> | ->].
Qed.

(** part_000 puts a stored preset in [os.Args] and processes the options it
    parsed before. *)
Lemma part000_by_name_found (w : World) (d : Disk) (home : string)
    (config : Config) (args : list string) (o : Options) (D t : string)
    (ts : list string) :
  UserHomeDir w = Ok home ->
  Part000.loadConfig d = Ok config ->
  parse_loop args defaultOptions = inr o ->
  saveName o = "" ->
  byName o <> "" ->
  Getwd w = Ok D ->
  stored config D (byName o) = Some (t :: ts) ->
  Part000.main w d args = Part000.process w config o [] (t :: ts).
Proof.
  intros Hhome Hload Hparse Hsave Hb Hwd Hst.
  rewrite (part000_main_resolve w d home config args o) by done.
  unfold Part000.resolve.
  apply String.eqb_neq in Hb. rewrite Hb, Hwd. cbn [negb].
  unfold stored in Hst.
  destruct (map_get (Folders config) D) as [fc|]; [|done].
  unfold saved_tokens. destruct (SavedName fc) as [names|]; [|done].
  simpl in *. by rewrite Hst.
Qed.

(** C2, evaluated on part_000.  With the preset [p = -files a.go] stored,
    [-by-name p] and the automatic selection put the stored tokens in
    [os.Args] and then process the options parsed from the original tokens:
    nothing is processed, or the file named on the command line, never the
    file of the preset. *)
Theorem C2_part000_selected_preset_not_reparsed :
  let w := sample_world "" in
  let d := sample_disk_with [("p", ["-files"; "a.go"])] in
  let replayed :=
    "a.go" +:+ nl +:+ "```go" +:+ nl +:+ "package main" +:+ nl +:+ "```"
    +:+ nl +:+ "======" +:+ nl in
  exit (Part000.main w d ["-files"; "a.go"]) = Copied replayed /\
  (os_Args (Part000.main w d ["-by-name"; "p"]) = ["-files"; "a.go"] /\
   exit (Part000.main w d ["-by-name"; "p"]) = Copied "") /\
  (os_Args (Part000.main w d []) = ["-files"; "a.go"] /\
   exit (Part000.main w d []) = Copied "") /\
  (os_Args (Part000.main w d ["-by-name"; "p"; "-files"; "b.txt"])
   = ["-files"; "a.go"] /\
   exit (Part000.main w d ["-by-name"; "p"; "-files"; "b.txt"])
   = Copied ("b.txt" +:+ nl +:+ "```plaintext" +:+ nl +:+ "hello" +:+ nl +:+
             "```" +:+ nl +:+ "======" +:+ nl)).
Proof. vm_compute. repeat split. Qed.

(** C4, evaluated on both variants.  main.go parses [-by-name p] and drops
    the name: with or without a stored preset [p] the run dies for want of
    files, naming neither the folder nor the preset.  part_000 names both
    when the preset is missing, and when it exists copies an empty text
    instead of replaying it. *)
Theorem C4_by_name_not_replayed :
  let w := sample_world "" in
  let with_p := sample_disk_with [("p", ["-files"; "a.go"])] in
  exit (MainGo.main w sample_disk ["-by-name"; "p"])
  = Fatal "No files specified. Please provide at least one file." /\
  exit (MainGo.main w with_p ["-by-name"; "p"])
  = Fatal "No files specified. Please provide at least one file." /\
  exit (Part000.main w sample_disk ["-by-name"; "p"])
  = Fatal "No saved arguments found for name 'p' in folder '/w'" /\
  exit (Part000.main w with_p ["-by-name"; "p"]) = Copied "".
Proof. vm_compute. repeat split. Qed.

(** ** Selecting among the presets of the directory *)

Lemma range_keys_length (w : World) (names : gmap string (list string)) :
  range_keys_ok w -> length (range_keys w names) = size names.
Proof.
  intros Hok. rewrite (Permutation_length (Hok names)).
  by rewrite length_fmap, length_map_to_list.
Qed.

Lemma range_keys_lookup (w : World) (names : gmap string (list string))
    (i : nat) (n : string) :
  range_keys_ok w ->
  range_keys w names !! i = Some n ->
  exists toks, names !! n = Some toks.
Proof.
  intros Hok Hi. apply list_elem_of_lookup_2 in Hi.
  rewrite (Hok names) in Hi.
  apply list_elem_of_fmap in Hi as ([k toks] & -> & Hin).
  apply elem_of_map_to_list in Hin. by exists toks.
Qed.

Lemma range_keys_single (w : World) (names : gmap string (list string)) :
  range_keys_ok w ->
  size names = 1 ->
  exists n toks, range_keys w names = [n] /\ names !! n = Some toks.
Proof.
  intros Hok Hsize.
  pose proof (range_keys_length w names Hok) as Hlen. rewrite Hsize in Hlen.
  destruct (range_keys w names) as [|n [|? ?]] eqn:E; try done.
  destruct (range_keys_lookup w names 0 n Hok) as [toks Ht];
    [by rewrite E|].
  by exists n, toks.
Qed.

Lemma range_keys_choice (w : World) (names : gmap string (list string))
    (i : Z) :
  range_keys_ok w ->
  (1 <= i <= Z.of_nat (length (range_keys w names)))%Z ->
  exists n toks,
    range_keys w names !! Z.to_nat (i - 1) = Some n /\
    names !! n = Some toks.
Proof.
  intros Hok Hi.
  destruct (lookup_lt_is_Some_2 (range_keys w names) (Z.to_nat (i - 1)))
    as [n Hn]; [lia|].
  destruct (range_keys_lookup w names _ n Hok Hn) as [toks Ht].
  by exists n, toks.
Qed.

Lemma menu_lookup (sep : string) (savedNames : list string) (i : nat)
    (name : string) :
  savedNames !! i = Some name ->
  menu sep savedNames !! i = Some (pretty (S i) +:+ sep +:+ name +:+ nl).
Proof. intros H. unfold menu. by rewrite list_lookup_imap, H. Qed.

Lemma part000_auto_select (w : World) (d : Disk) (home : string)
    (config : Config) (args : list string) (o : Options) (D : string) :
  UserHomeDir w = Ok home ->
  Part000.loadConfig d = Ok config ->
  parse_loop args defaultOptions = inr o ->
  saveName o = "" ->
  byName o = "" ->
  files o = [] ->
  Getwd w = Ok D ->
  range_keys_ok w ->
  let run := Part000.main w d args in
  (map_len (presets_in config D) = 0 ->
   run = die [] [] args (Part000.usage w D)) /\
  (forall names,
     presets_in config D = Some names -> size names = 1 ->
     exists n toks,
       names !! n = Some toks /\
       run = Part000.process w config o [] toks) /\
  (forall names,
     presets_in config D = Some names -> 1 < size names ->
     let listed := range_keys w names in
     let shown := Part000.prompt listed in
     match Sscanf_d w (TrimSpace (ReadString_nl (stdin w))) with
     | Some i =>
         if ((1 <=? i) && (i <=? Z.of_nat (length listed)))%Z
         then exists n toks,
                listed !! Z.to_nat (i - 1) = Some n /\
                names !! n = Some toks /\
                run = Part000.process w config o shown toks
         else run = die shown [] args "Invalid selection"
     | None => run = die shown [] args "Invalid selection"
     end).
Proof.
  intros Hhome Hload Hparse Hsave Hby Hfiles Hwd Hok run.
  unfold run. rewrite (part000_main_resolve w d home config args o) by done.
  unfold Part000.resolve, presets_in.
  rewrite Hby, Hfiles, Hwd. cbn [String.eqb negb length Nat.eqb].
  destruct (map_get (Folders config) D) as [fc|];
    [|split; [done | split; intros ? [=]]].
  cbv beta iota.
  destruct (SavedName fc) as [names|] eqn:Efc;
    [|split; [done | split; intros ? [=]]].
  cbn [map_len map_get]. split; [|split].
  - intros ->. done.
  - intros ? [= <-] Hsize. rewrite Hsize. cbn [Nat.eqb].
    destruct (range_keys_single w names Hok Hsize) as (n & toks & -> & Ht).
    exists n, toks. unfold saved_tokens. by rewrite Efc; cbn [map_get]; rewrite Ht.
  - intros ? [= <-] Hsize.
    pose proof (range_keys_length w names Hok) as Hlen.
    destruct (size names =? 0)%nat eqn:E0; [apply Nat.eqb_eq in E0; lia|].
    destruct (range_keys w names) as [|n1 [|n2 rest]] eqn:El;
      [simpl in Hlen; lia | simpl in Hlen; lia |].
    rewrite <- El. cbn zeta. unfold Part000.choose.
    destruct (Sscanf_d w (TrimSpace (ReadString_nl (stdin w)))) as [i|];
      cbn [from_option id]; [|done].
    destruct (Z.ltb_spec i 1) as [Hlo|Hlo].
    { replace (1 <=? i)%Z with false by lia. cbn [orb andb]. done. }
    replace (1 <=? i)%Z with true by lia. cbn [orb andb].
    destruct (Z.ltb_spec (Z.of_nat (length (range_keys w names))) i)
      as [Hhi|Hhi].
    { replace (i <=? Z.of_nat (length (range_keys w names)))%Z with false
        by lia. cbn [orb andb]. done. }
    replace (i <=? Z.of_nat (length (range_keys w names)))%Z with true by lia.
    destruct (range_keys_choice w names i Hok) as (n & toks & Hn & Ht);
      [lia|].
    exists n, toks. rewrite Hn. unfold saved_tokens.
    rewrite Efc. cbn [map_get]. by rewrite Ht.
Qed.

Section MainGoSelect.
Import MainGo.

Lemma main_go_select (w : World) (d : Disk) (home : string) (app : App)
    (D : string) :
  UserHomeDir w = Ok home ->
  NewApp (config_path home) d = Ok app ->
  Getwd w = Ok D ->
  range_keys_ok w ->
  let run := main w d [] in
  let presets := presets_in (AppConfig app) D in
  (map_len presets = 0 ->
   run = die [] [] []
           ("No saved configurations found for folder '" +:+ D +:+ "'")) /\
  (forall names,
     presets = Some names -> 0 < size names ->
     let listed := range_keys w names in
     let shown := prompt listed in
     match Scanln_d w (stdin w) with
     | Ok i =>
         if ((1 <=? i) && (i <=? Z.of_nat (length listed)))%Z
         then exists n toks,
                listed !! Z.to_nat (i - 1) = Some n /\
                names !! n = Some toks /\
                run = match getSavedConfig app D n with
                      | Err e =>
                          die shown [] []
                              ("Failed to load saved configuration: " +:+ e)
                      | Ok savedArgs =>
                          match parseArguments savedArgs with
                          | Err e =>
                              die shown [] savedArgs
                                  ("Failed to parse arguments: " +:+ e)
                          | Ok o => run_parsed w d app shown savedArgs o
                          end
                      end
         else run = die shown [] [] "Invalid choice"
     | Err _ => run = die shown [] [] "Invalid choice"
     end) /\
  (forall a args o,
     parseArguments (a :: args) = Ok o ->
     saveName o = "" -> files o = [] ->
     main w d (a :: args)
     = die [] [] (a :: args)
           "No files specified. Please provide at least one file.").
Proof.
  intros Hhome Happ Hwd Hok run presets.
  unfold run, presets, main, presets_in. rewrite Hhome, Happ.
  cbn [length Nat.eqb]. unfold select_saved. rewrite Hwd.
  split; [|split].
  - destruct (map_get (Folders (AppConfig app)) D) as [fc|]; [|done].
    cbv beta iota. intros ->. done.
  - intros names Hnames Hsize.
    destruct (map_get (Folders (AppConfig app)) D) as [fc|]; [|done].
    cbv beta iota in Hnames. rewrite Hnames. cbn [map_len from_option id].
    destruct (size names =? 0)%nat eqn:E0; [apply Nat.eqb_eq in E0; lia|].
    cbn zeta.
    destruct (Scanln_d w (stdin w)) as [i|e]; [|done].
    destruct (Z.ltb_spec i 1) as [Hlo|Hlo].
    { replace (1 <=? i)%Z with false by lia. cbn [orb andb]. done. }
    replace (1 <=? i)%Z with true by lia. cbn [orb andb].
    destruct (Z.ltb_spec (Z.of_nat (length (range_keys w names))) i)
      as [Hhi|Hhi].
    { replace (i <=? Z.of_nat (length (range_keys w names)))%Z with false
        by lia. cbn [orb andb]. done. }
    replace (i <=? Z.of_nat (length (range_keys w names)))%Z with true by lia.
    destruct (range_keys_choice w names i Hok) as (n & toks & Hn & Ht);
      [lia|].
    exists n, toks. rewrite Hn.
    split; [done|]. split; [done|].
    destruct (getSavedConfig app D n); [|done].
    by destruct (parseArguments a).
  - intros a args o Hparse Hsave Hfiles. rewrite Hparse.
    unfold run_parsed. by rewrite Hsave, Hfiles.
Qed.

End MainGoSelect.

Lemma sample_range_keys_ok (input : string) : range_keys_ok (sample_world input).
Proof. intros m. reflexivity. Qed.

(** C5 (amended).  In part_000, an invocation with no save name, no
    [-by-name] and no files looks at the presets of the current directory:
    none is a fatal error whose text tells the user to save one with
    [-name]; exactly one is taken without any prompt; with more than one the
    numbered list is printed, one line is read and scanned as a 1-based
    index, and a line that does not scan or an index out of range is fatal.
    In main.go the selection is entered only when there is no token at
    all: no preset is a fatal error naming the folder; one or more presets
    are listed and chosen by number, a bad number being fatal; and tokens
    without files are a fatal "No files specified". *)
Theorem C5_selection_without_name_or_files (w : World) (d : Disk)
    (home D : string) :
  UserHomeDir w = Ok home ->
  Getwd w = Ok D ->
  range_keys_ok w ->
  (forall config args o,
     Part000.loadConfig d = Ok config ->
     parse_loop args defaultOptions = inr o ->
     saveName o = "" -> byName o = "" -> files o = [] ->
     let run := Part000.main w d args in
     (map_len (presets_in config D) = 0 ->
      run = die [] [] args (Part000.usage w D)) /\
     (forall names,
        presets_in config D = Some names -> size names = 1 ->
        exists n toks,
          names !! n = Some toks /\
          run = Part000.process w config o [] toks) /\
     (forall names,
        presets_in config D = Some names -> 1 < size names ->
        let listed := range_keys w names in
        let shown := Part000.prompt listed in
        match Sscanf_d w (TrimSpace (ReadString_nl (stdin w))) with
        | Some i =>
            if ((1 <=? i) && (i <=? Z.of_nat (length listed)))%Z
            then exists n toks,
                   listed !! Z.to_nat (i - 1) = Some n /\
                   names !! n = Some toks /\
                   run = Part000.process w config o shown toks
            else run = die shown [] args "Invalid selection"
        | None => run = die shown [] args "Invalid selection"
        end)) /\
  (forall app,
     MainGo.NewApp (config_path home) d = Ok app ->
     let run := MainGo.main w d [] in
     let presets := presets_in (MainGo.AppConfig app) D in
     (map_len presets = 0 ->
      run = die [] [] []
              ("No saved configurations found for folder '" +:+ D +:+ "'")) /\
     (forall names,
        presets = Some names -> 0 < size names ->
        let listed := range_keys w names in
        let shown := MainGo.prompt listed in
        match Scanln_d w (stdin w) with
        | Ok i =>
            if ((1 <=? i) && (i <=? Z.of_nat (length listed)))%Z
            then exists n toks,
                   listed !! Z.to_nat (i - 1) = Some n /\
                   names !! n = Some toks /\
                   run = match MainGo.getSavedConfig app D n with
                         | Err e =>
                             die shown [] []
                                 ("Failed to load saved configuration: " +:+ e)
                         | Ok savedArgs =>
                             match MainGo.parseArguments savedArgs with
                             | Err e =>
                                 die shown [] savedArgs
                                     ("Failed to parse arguments: " +:+ e)
                             | Ok o =>
                                 MainGo.run_parsed w d app shown savedArgs o
                             end
                         end
            else run = die shown [] [] "Invalid choice"
        | Err _ => run = die shown [] [] "Invalid choice"
        end) /\
     (forall a args o,
        MainGo.parseArguments (a :: args) = Ok o ->
        saveName o = "" -> files o = [] ->
        MainGo.main w d (a :: args)
        = die [] [] (a :: args)
              "No files specified. Please provide at least one file.")) /\
  (forall sep listed i name,
     listed !! i = Some name ->
     menu sep listed !! i = Some (pretty (S i) +:+ sep +:+ name +:+ nl)).
Proof.
  intros Hhome Hwd Hok. split; [|split].
  - intros config args o Hload Hparse Hsave Hby Hfiles.
    by apply (part000_auto_select w d home config args o D).
  - intros app Happ. by apply (main_go_select w d home app D).
  - apply menu_lookup.
Qed.

Lemma C5_selection_without_name_or_files_witness :
  Part000.main (sample_world "x")
    (sample_disk_with [("p", ["-files"; "a.go"]); ("q", ["-files"; "b.txt"])])
    []
  = die (Part000.prompt ["q"; "p"]) [] [] "Invalid selection".
Proof.
  pose (presets := [("p", ["-files"; "a.go"]); ("q", ["-files"; "b.txt"])]).
  destruct (C5_selection_without_name_or_files (sample_world "x")
              (sample_disk_with presets) "/home/u" "/w" eq_refl eq_refl
              (sample_range_keys_ok "x")) as [H _].
  destruct (H (sample_config presets) [] defaultOptions
              eq_refl eq_refl eq_refl eq_refl eq_refl) as (_ & _ & H3).
  assert (Hsize : 1 < size (list_to_map presets : gmap string (list string)))
    by (vm_compute; lia).
  specialize (H3 (list_to_map presets) eq_refl Hsize).
  vm_compute in H3. vm_compute. exact H3.
Defined.

(** C5 as stated fails on main.go: with exactly one preset stored and no
    token, the preset is not taken silently; the list and the prompt are
    printed and the answer decides, a bad one being fatal.  With no preset,
    the fatal text names the folder and says nothing about saving. *)
Lemma C5_counterexample :
  let one := sample_disk_with [("p", ["-files"; "a.go"])] in
  size (list_to_map [("p", ["-files"; "a.go"])] : gmap string (list string)) = 1 /\
  stdout (MainGo.main (sample_world "x") one [])
  = ["Select a saved configuration:" +:+ nl; "1. p" +:+ nl;
     "Enter the number of the configuration to load: "] /\
  exit (MainGo.main (sample_world "x") one []) = Fatal "Invalid choice" /\
  exit (MainGo.main (sample_world "") sample_disk [])
  = Fatal "No saved configurations found for folder '/w'".
Proof. vm_compute. repeat split. Qed.

(** * Further properties of the code *)

(** ** The argument parser *)

Lemma parse_loop_files (x : string) (l : list string) (o : Options) :
  parse_loop ("-files" :: x :: l) o = collect_files (x :: l) o.
Proof.
  revert x o. induction l as [|y l IH]; intros x o.
  - cbn. by destruct (HasPrefix x "-").
  - change (parse_loop ("-files" :: x :: y :: l) o)
      with (if HasPrefix x "-" then parse_loop (x :: y :: l) o
            else parse_loop ("-files" :: y :: l)
                   (set_files o (files o ++ [x]))).
    rewrite IH. reflexivity.
Qed.

(** One turn of the loop. *)
Lemma parse_loop_step (a : string) (rest : list string) (o : Options) :
  parse_loop (a :: rest) o =
  if String.eqb a "-ignore-pattern" then
    match rest with
    | [] => inl (MissingValue a)
    | v :: rest' => parse_loop rest' (set_ignorePattern o v)
    end
  else if String.eqb a "-ignore-gitignore" then
    parse_loop rest (set_ignoreGitIgnore o true)
  else if String.eqb a "-delimiter" then
    match rest with
    | [] => inl (MissingValue a)
    | v :: rest' => parse_loop rest' (set_delimiter o v)
    end
  else if String.eqb a "-wrap-code" then
    match rest with
    | [] => inl (MissingValue a)
    | v :: rest' =>
        parse_loop rest'
          (if String.eqb v "false" then set_wrapCode o false else o)
    end
  else if String.eqb a "-name" then
    match rest with
    | [] => inl (MissingValue a)
    | v :: rest' => parse_loop rest' (set_saveName o v)
    end
  else if String.eqb a "-by-name" then
    match rest with
    | [] => inl (MissingValue a)
    | v :: rest' => parse_loop rest' (set_byName o v)
    end
  else if String.eqb a "-files" then
    match rest with
    | [] => inl (MissingValue a)
    | _ :: _ => collect_files rest o
    end
  else if String.eqb a "-exec" then
    match rest with
    | [] => inl (MissingValue a)
    | v :: rest' => parse_loop rest' (set_execCommand o v)
    end
  else if String.eqb a "-file-exec" then
    match rest with
    | [] => inl (MissingValue a)
    | v :: rest' =>
        match file_exec_pairs (Fields v) (fileExecs o) with
        | None => inl InvalidFileExec
        | Some fe => parse_loop rest' (set_fileExecs o fe)
        end
    end
  else inl (UnknownArgument a).
Proof.
  destruct (String.eqb_spec a "-files") as [->|Hne].
  - destruct rest as [|x l]; [reflexivity|].
    change (parse_loop ("-files" :: x :: l) o = collect_files (x :: l) o).
    apply parse_loop_files.
  - apply String.eqb_neq in Hne.
    destruct rest as [|v rest']; cbn [parse_loop]; rewrite Hne; reflexivity.
Qed.

Section ParseInvariant.

(** [I] is kept by every assignment the loop can make, when the values it
    assigns are tokens satisfying [T]. *)
Variable I : Options -> Prop.
Variable T : string -> Prop.
Hypothesis I_ignorePattern : forall o v, I o -> T v -> I (set_ignorePattern o v).
Hypothesis I_ignoreGitIgnore : forall o, I o -> I (set_ignoreGitIgnore o true).
Hypothesis I_delimiter : forall o v, I o -> T v -> I (set_delimiter o v).
Hypothesis I_wrapCode : forall o, I o -> I (set_wrapCode o false).
Hypothesis I_saveName : forall o v, I o -> T v -> I (set_saveName o v).
Hypothesis I_byName : forall o v, I o -> T v -> I (set_byName o v).
Hypothesis I_files :
  forall o x, I o -> T x -> HasPrefix x "-" = false ->
              I (set_files o (files o ++ [x])).
Hypothesis I_execCommand : forall o v, I o -> T v -> I (set_execCommand o v).
Hypothesis I_fileExecs : forall o fe, I o -> I (set_fileExecs o fe).

Lemma collect_files_invariant (l : list string) :
  (forall args o o', length args <= length l -> Forall T args -> I o ->
                     parse_loop args o = inr o' -> I o') ->
  forall o o', Forall T l -> I o -> collect_files l o = inr o' -> I o'.
Proof.
  induction l as [|x l IH]; intros Hp o o' HT Ho H.
  - by injection H as <-.
  - cbn [collect_files] in H. inversion HT as [|? ? Hx Hl]; subst.
    destruct (HasPrefix x "-") eqn:Ex.
    + by apply (Hp (x :: l) o o').
    + apply (IH (fun args o0 o0' Hlen => Hp args o0 o0' (le_S _ _ Hlen))
               (set_files o (files o ++ [x])) o'); [done | | done].
      by apply I_files.
Qed.

Lemma parse_loop_invariant (args : list string) (o o' : Options) :
  Forall T args -> I o -> parse_loop args o = inr o' -> I o'.
Proof.
  remember (length args) as n eqn:Hn.
  assert (Hlen : length args <= n) by lia. clear Hn.
  revert args o o' Hlen.
  induction n as [|n IH]; intros args o o' Hlen HT Ho H.
  { destruct args; [|simpl in Hlen; lia]. by injection H as <-. }
  destruct args as [|a rest]; [by injection H as <-|].
  simpl in Hlen. inversion HT as [|? ? Ha Hrest]; subst.
  rewrite parse_loop_step in H.
  assert (Hval : forall (set : Options -> string -> Options),
            (forall o v, I o -> T v -> I (set o v)) ->
            match rest with
            | [] => inl (MissingValue a)
            | v :: rest' => parse_loop rest' (set o v)
            end = inr o' -> I o').
  { intros set Hset Hm. destruct rest as [|v rest']; [done|].
    inversion Hrest; subst.
    apply (IH rest' (set o v) o'); [simpl in Hlen; lia | done | | done].
    by apply Hset. }
  destruct (String.eqb a "-ignore-pattern"); [by apply (Hval set_ignorePattern)|].
  destruct (String.eqb a "-ignore-gitignore").
  { apply (IH rest (set_ignoreGitIgnore o true) o'); [lia | done | | done].
    by apply I_ignoreGitIgnore. }
  destruct (String.eqb a "-delimiter"); [by apply (Hval set_delimiter)|].
  destruct (String.eqb a "-wrap-code").
  { destruct rest as [|v rest']; [done|]. inversion Hrest; subst.
    refine (IH rest' _ o' _ _ _ H); [simpl in Hlen; lia | done |].
    destruct (String.eqb v "false"); [by apply I_wrapCode | done]. }
  destruct (String.eqb a "-name"); [by apply (Hval set_saveName)|].
  destruct (String.eqb a "-by-name"); [by apply (Hval set_byName)|].
  destruct (String.eqb a "-files").
  { destruct rest as [|x l]; [done|].
    apply (collect_files_invariant (x :: l)) with (o := o); try done.
    intros args0 o0 o0' Hl0. apply IH. lia. }
  destruct (String.eqb a "-exec"); [by apply (Hval set_execCommand)|].
  destruct (String.eqb a "-file-exec"); [|done].
  destruct rest as [|v rest']; [done|]. inversion Hrest; subst.
  destruct (file_exec_pairs (Fields v) (fileExecs o)) as [fe|]; [|done].
  apply (IH rest' (set_fileExecs o fe) o'); [simpl in Hlen; lia | done | | done].
  by apply I_fileExecs.
Qed.

End ParseInvariant.

(** A token list is empty or starts with a token that begins with ["-"]. *)
Lemma starts_flag_cases (rest : list string) :
  (rest = [] \/ exists t r, rest = t :: r /\ HasPrefix t "-" = true) ->
  forall o, collect_files rest o = parse_loop rest o.
Proof.
  intros [-> | (t & r & -> & Ht)] o; [reflexivity|].
  cbn [collect_files]. by rewrite Ht.
Qed.

Lemma collect_files_app (l rest : list string) :
  (rest = [] \/ exists t r, rest = t :: r /\ HasPrefix t "-" = true) ->
  (forall pre o o1, length pre <= length l ->
     parse_loop pre o = inr o1 ->
     parse_loop (pre ++ rest) o = parse_loop rest o1) ->
  forall o o1, collect_files l o = inr o1 ->
               collect_files (l ++ rest) o = parse_loop rest o1.
Proof.
  intros Hrest. induction l as [|x l IH]; intros Hp o o1 H.
  - injection H as <-. by apply starts_flag_cases.
  - cbn [collect_files app] in *. destruct (HasPrefix x "-").
    + by apply (Hp (x :: l)).
    + apply IH; [|done].
      intros pre o0 o0' Hlen. apply Hp. simpl. lia.
Qed.

Lemma parse_loop_app (pre rest : list string) (o o1 : Options) :
  (rest = [] \/ exists t r, rest = t :: r /\ HasPrefix t "-" = true) ->
  parse_loop pre o = inr o1 ->
  parse_loop (pre ++ rest) o = parse_loop rest o1.
Proof.
  intros Hrest.
  remember (length pre) as n eqn:Hn.
  assert (Hlen : length pre <= n) by lia. clear Hn.
  revert pre o o1 Hlen.
  induction n as [|n IH]; intros pre o o1 Hlen H.
  { destruct pre; [|simpl in Hlen; lia]. by injection H as <-. }
  destruct pre as [|a pre]; [by injection H as <-|].
  simpl in Hlen. cbn [app]. rewrite parse_loop_step in H.
  rewrite parse_loop_step.
  assert (Hval : forall (set : Options -> string -> Options),
            match pre with
            | [] => inl (MissingValue a)
            | v :: rest' => parse_loop rest' (set o v)
            end = inr o1 ->
            match pre ++ rest with
            | [] => inl (MissingValue a)
            | v :: rest' => parse_loop rest' (set o v)
            end = parse_loop rest o1).
  { intros set Hm. destruct pre as [|v pre']; [done|].
    cbn [app]. apply IH; [simpl in Hlen; lia | done]. }
  destruct (String.eqb a "-ignore-pattern"); [by apply Hval|].
  destruct (String.eqb a "-ignore-gitignore"); [apply IH; [lia | done]|].
  destruct (String.eqb a "-delimiter"); [by apply Hval|].
  destruct (String.eqb a "-wrap-code").
  { destruct pre as [|v pre']; [done|]. cbn [app].
    apply IH; [simpl in Hlen; lia | done]. }
  destruct (String.eqb a "-name"); [by apply Hval|].
  destruct (String.eqb a "-by-name"); [by apply Hval|].
  destruct (String.eqb a "-files").
  { destruct pre as [|x l]; [done|]. cbn [app].
    change (x :: l ++ rest) with ((x :: l) ++ rest).
    apply collect_files_app; [done | | done].
    intros pre0 o0 o0' Hl0. apply IH. lia. }
  destruct (String.eqb a "-exec"); [by apply Hval|].
  destruct (String.eqb a "-file-exec"); [|done].
  destruct pre as [|v pre']; [done|]. cbn [app].
  destruct (file_exec_pairs (Fields v) (fileExecs o)) as [fe|]; [|done].
  apply IH; [simpl in Hlen; lia | done].
Qed.

(** A token the loop accepts at a flag position is one of the nine flags. *)
Lemma parse_loop_head_known (a : string) (rest : list string)
    (o o' : Options) :
  parse_loop (a :: rest) o = inr o' -> a ∈ known_flags.
Proof.
  rewrite parse_loop_step. unfold known_flags.
  repeat match goal with
         | |- context [String.eqb a ?f] =>
             destruct (String.eqb_spec a f) as [->|_];
             [intros _; solve [repeat constructor]|]
         end.
  done.
Qed.

Lemma known_flags_dash (a : string) : a ∈ known_flags -> HasPrefix a "-" = true.
Proof.
  unfold known_flags. intros H.
  repeat (apply elem_of_cons in H as [-> | H]; [reflexivity|]).
  by apply elem_of_nil in H.
Qed.

Lemma parse_loop_ok_starts_flag (rest : list string) (o o' : Options) :
  parse_loop rest o = inr o' ->
  rest = [] \/ exists t r, rest = t :: r /\ HasPrefix t "-" = true.
Proof.
  destruct rest as [|t r]; [by left|]. intros H. right. exists t, r.
  split; [done|]. eapply known_flags_dash, parse_loop_head_known, H.
Qed.

(** Tokens without [-name] leave [saveName] as it was: the run from
    another [saveName] is the same run with that field changed. *)
Lemma collect_files_saveName (l : list string) (s : string) :
  (forall args o, length args <= length l -> "-name" ∉ args ->
     parse_loop args (set_saveName o s) = with_saveName s (parse_loop args o)) ->
  forall o, "-name" ∉ l ->
    collect_files l (set_saveName o s) = with_saveName s (collect_files l o).
Proof.
  induction l as [|x l IH]; intros Hp o Hl; [reflexivity|].
  cbn [collect_files]. destruct (HasPrefix x "-").
  - by apply Hp.
  - apply not_elem_of_cons in Hl as [_ Hl].
    apply (IH (fun args o0 Hlen => Hp args o0 (le_S _ _ Hlen))
              (set_files o (files o ++ [x])) Hl).
Qed.

Lemma parse_loop_saveName (args : list string) (o : Options) (s : string) :
  "-name" ∉ args ->
  parse_loop args (set_saveName o s) = with_saveName s (parse_loop args o).
Proof.
  remember (length args) as n eqn:Hn.
  assert (Hlen : length args <= n) by lia. clear Hn.
  revert args o Hlen.
  induction n as [|n IH]; intros args o Hlen Hno.
  { destruct args; [reflexivity | simpl in Hlen; lia]. }
  destruct args as [|a rest]; [reflexivity|].
  simpl in Hlen. apply not_elem_of_cons in Hno as [Ha Hrest].
  rewrite !parse_loop_step.
  assert (Hval : forall (set : Options -> string -> Options),
            (forall o v, set (set_saveName o s) v = set_saveName (set o v) s) ->
            match rest with
            | [] => inl (MissingValue a)
            | v :: rest' => parse_loop rest' (set (set_saveName o s) v)
            end =
            with_saveName s
              match rest with
              | [] => inl (MissingValue a)
              | v :: rest' => parse_loop rest' (set o v)
              end).
  { intros set Hset. destruct rest as [|v rest']; [reflexivity|].
    apply not_elem_of_cons in Hrest as [_ Hrest].
    rewrite Hset. apply IH; [simpl in Hlen; lia | done]. }
  destruct (String.eqb a "-ignore-pattern"); [by apply Hval|].
  destruct (String.eqb a "-ignore-gitignore").
  { apply (IH rest (set_ignoreGitIgnore o true)); [lia | done]. }
  destruct (String.eqb a "-delimiter"); [by apply Hval|].
  destruct (String.eqb a "-wrap-code").
  { destruct rest as [|v rest']; [reflexivity|].
    apply not_elem_of_cons in Hrest as [_ Hrest].
    destruct (String.eqb v "false").
    - apply (IH rest' (set_wrapCode o false)); [simpl in Hlen; lia | done].
    - apply IH; [simpl in Hlen; lia | done]. }
  destruct (String.eqb_spec a "-name") as [->|_]; [done|].
  destruct (String.eqb a "-by-name"); [by apply Hval|].
  destruct (String.eqb a "-files").
  { destruct rest as [|x l]; [reflexivity|].
    apply collect_files_saveName; [|done].
    intros args0 o0 Hl0. apply IH. lia. }
  destruct (String.eqb a "-exec"); [by apply Hval|].
  destruct (String.eqb a "-file-exec"); [|reflexivity].
  destruct rest as [|v rest']; [reflexivity|].
  apply not_elem_of_cons in Hrest as [_ Hrest].
  cbn [fileExecs set_saveName].
  destruct (file_exec_pairs (Fields v) (fileExecs o)) as [fe|]; [|reflexivity].
  apply (IH rest' (set_fileExecs o fe)); [simpl in Hlen; lia | done].
Qed.

(** [filterOutFlag] on tokens around one flag pair. *)
Lemma filterOutFlag_loop_no_flag (pre rest acc : list string) (flag : string) :
  flag ∉ pre ->
  MainGo.filterOutFlag_loop (pre ++ rest) flag acc
  = MainGo.filterOutFlag_loop rest flag (acc ++ pre).
Proof.
  revert acc. induction pre as [|a pre IH]; intros acc Hno.
  - by rewrite app_nil_r.
  - apply not_elem_of_cons in Hno as [Ha Hno].
    cbn [app MainGo.filterOutFlag_loop].
    destruct (String.eqb_spec a flag) as [->|_]; [done|].
    rewrite IH by done. by rewrite <- app_assoc.
Qed.

Lemma parseArguments_ok (args : list string) (o : Options) :
  MainGo.parseArguments args = Ok o <-> parse_loop args defaultOptions = inr o.
Proof.
  unfold MainGo.parseArguments.
  destruct (parse_loop args defaultOptions); split; congruence.
Qed.

(** X1.  Every file the parser collects is one of the tokens and does not
    start with ["-"]: a path beginning with a dash cannot be passed. *)
Theorem parsed_files_are_plain_tokens (args : list string) (o : Options) :
  MainGo.parseArguments args = Ok o ->
  Forall (fun f => f ∈ args /\ HasPrefix f "-" = false) (files o).
Proof.
  intros H%parseArguments_ok.
  apply (parse_loop_invariant
           (fun o => Forall (fun f => f ∈ args /\ HasPrefix f "-" = false)
                            (files o))
           (fun x => x ∈ args)) with (args := args) (o := defaultOptions);
    try done.
  - intros o0 x Ho Hx Hd. cbn [files set_files].
    apply Forall_app. split; [done|]. by repeat constructor.
  - by apply Forall_forall.
Qed.

Lemma parsed_files_are_plain_tokens_witness :
  Forall (fun f => f ∈ ["-files"; "a.py"; "b.unknown"; "-delimiter"; "--"] /\
                   HasPrefix f "-" = false)
         ["a.py"; "b.unknown"].
Proof.
  apply (parsed_files_are_plain_tokens
           ["-files"; "a.py"; "b.unknown"; "-delimiter"; "--"]
           (mkOptions ["a.py"; "b.unknown"] "" false "--" true "" "" "" ∅)).
  reflexivity.
Defined.

(** X2.  After a prefix that parses on its own, the loop goes on from the
    options of the prefix, provided the next token starts with ["-"] (or
    there is none): parsing composes at flag boundaries. *)
Theorem parse_continues_after_prefix (pre rest : list string)
    (o o1 : Options) :
  parse_loop pre o = inr o1 ->
  (rest = [] \/ exists t r, rest = t :: r /\ HasPrefix t "-" = true) ->
  parse_loop (pre ++ rest) o = parse_loop rest o1.
Proof. intros H Hrest. by apply parse_loop_app. Qed.

Lemma parse_continues_after_prefix_witness :
  parse_loop (["-files"; "a.py"] ++ ["-delimiter"; "--"]) defaultOptions
  = parse_loop ["-delimiter"; "--"] (set_files defaultOptions ["a.py"]).
Proof.
  apply parse_continues_after_prefix; [reflexivity|].
  right. exists "-delimiter", ["--"]. split; reflexivity.
Defined.

(** X3.  Parsing is all or nothing: after a prefix that parses, a token
    that is none of the nine flags (at the very start, or starting with
    ["-"]) fails the parse with "unknown argument", and a flag that takes
    a value and is the last token fails it with "missing value". *)
Theorem parse_rejects_unknown_and_missing (pre : list string) (o1 : Options) :
  parse_loop pre defaultOptions = inr o1 ->
  (forall t rest,
     t ∉ known_flags -> (pre = [] \/ HasPrefix t "-" = true) ->
     MainGo.parseArguments (pre ++ t :: rest)
     = Err ("unknown argument: " +:+ t)) /\
  (forall f,
     f ∈ value_flags ->
     MainGo.parseArguments (pre ++ [f]) = Err ("missing value for " +:+ f)).
Proof.
  intros Hpre. split.
  - intros t rest Hunknown Hpos. unfold MainGo.parseArguments.
    assert (Hrun : parse_loop (pre ++ t :: rest) defaultOptions
                   = parse_loop (t :: rest) o1).
    { destruct Hpos as [-> | Hdash].
      - by injection Hpre as <-.
      - apply parse_loop_app; [|done]. right. by exists t, rest. }
    rewrite Hrun, parse_loop_step. unfold known_flags in Hunknown.
    repeat match goal with
           | |- context [String.eqb t ?f] =>
               destruct (String.eqb_spec t f) as [->|_];
               [exfalso; apply Hunknown; solve [repeat constructor]|]
           end.
    reflexivity.
  - intros f Hf. unfold MainGo.parseArguments.
    assert (Hdash : HasPrefix f "-" = true).
    { unfold value_flags in Hf.
      repeat (apply elem_of_cons in Hf as [-> | Hf]; [reflexivity|]).
      by apply elem_of_nil in Hf. }
    rewrite (parse_loop_app pre [f] defaultOptions o1); [|by right; exists f, []|done].
    unfold value_flags in Hf.
    repeat (apply elem_of_cons in Hf as [-> | Hf]; [reflexivity|]).
    by apply elem_of_nil in Hf.
Qed.

Lemma parse_rejects_unknown_and_missing_witness :
  MainGo.parseArguments (["-files"; "a.py"] ++ "-verbose" :: ["x"])
  = Err "unknown argument: -verbose" /\
  MainGo.parseArguments (["-files"; "a.py"] ++ ["-delimiter"])
  = Err "missing value for -delimiter".
Proof.
  destruct (parse_rejects_unknown_and_missing ["-files"; "a.py"]
              (set_files defaultOptions ["a.py"]) eq_refl) as [H1 H2].
  split.
  - apply H1; [|by right].
    unfold known_flags. intros H.
    repeat (apply elem_of_cons in H as [H | H]; [discriminate H|]).
    by apply elem_of_nil in H.
  - apply H2. unfold value_flags. repeat constructor.
Defined.

(** X4.  The two switches only go one way: once [-wrap-code false] has
    been read, no later token (not even [-wrap-code true]) turns wrapping
    on again, and once [-ignore-gitignore] has been read nothing turns
    the gitignore filter back on. *)
Theorem parse_switches_are_sticky (pre post : list string)
    (o0 o1 o2 : Options) :
  parse_loop pre o0 = inr o1 ->
  (parse_loop (pre ++ "-wrap-code" :: "false" :: post) o0 = inr o2 ->
   wrapCode o2 = false) /\
  (parse_loop (pre ++ "-ignore-gitignore" :: post) o0 = inr o2 ->
   ignoreGitIgnore o2 = true).
Proof.
  intros Hpre. split; intros H.
  - rewrite (parse_loop_app pre _ o0 o1) in H;
      [|by right; exists "-wrap-code", ("false" :: post)|done].
    change (parse_loop post (set_wrapCode o1 false) = inr o2) in H.
    by apply (parse_loop_invariant (fun o => wrapCode o = false)
                (fun _ => True)) in H; try done; apply Forall_true.
  - rewrite (parse_loop_app pre _ o0 o1) in H;
      [|by right; exists "-ignore-gitignore", post|done].
    change (parse_loop post (set_ignoreGitIgnore o1 true) = inr o2) in H.
    by apply (parse_loop_invariant (fun o => ignoreGitIgnore o = true)
                (fun _ => True)) in H; try done; apply Forall_true.
Qed.

Lemma parse_switches_are_sticky_witness :
  exists o2,
    parse_loop (["-files"; "a.py"] ++
                "-wrap-code" :: "false" :: ["-wrap-code"; "true"])
      defaultOptions = inr o2 /\
    wrapCode o2 = false.
Proof.
  eexists. split; [reflexivity|].
  refine (proj1 (parse_switches_are_sticky ["-files"; "a.py"]
                   ["-wrap-code"; "true"] defaultOptions
                   (set_files defaultOptions ["a.py"]) _ eq_refl) eq_refl).
Defined.

(** X5.  Replaying a preset parses like the original command.  When the
    tokens are a prefix that parses on its own, then [-name N], then the
    rest, with no other [-name] token, the tokens stored by
    [saveCurrentConfig] are the prefix followed by the rest, and they
    parse to the options of the original command with the save name
    emptied. *)
Theorem stored_tokens_parse_like_original (pre post : list string)
    (N : string) (o1 o : Options) :
  parse_loop pre defaultOptions = inr o1 ->
  "-name" ∉ pre ->
  "-name" ∉ post ->
  MainGo.parseArguments (pre ++ "-name" :: N :: post) = Ok o ->
  MainGo.filterOutFlag (pre ++ "-name" :: N :: post) "-name" = pre ++ post /\
  MainGo.parseArguments (pre ++ post) = Ok (set_saveName o "") /\
  saveName o = N.
Proof.
  intros Hpre Hnp Hnq H%parseArguments_ok.
  rewrite (parse_loop_app pre _ defaultOptions o1) in H;
    [|by right; exists "-name", (N :: post)|done].
  change (parse_loop post (set_saveName o1 N) = inr o) in H.
  rewrite parse_loop_saveName in H by done.
  destruct (parse_loop post o1) as [e|o2] eqn:Hpost; [done|].
  injection H as <-.
  split; [|split; [|reflexivity]].
  - unfold MainGo.filterOutFlag.
    rewrite filterOutFlag_loop_no_flag by done.
    cbn [MainGo.filterOutFlag_loop String.eqb Ascii.eqb Bool.eqb app].
    rewrite <- (app_nil_r post) at 1.
    rewrite filterOutFlag_loop_no_flag by done. reflexivity.
  - apply parseArguments_ok.
    assert (Hall : parse_loop (pre ++ post) defaultOptions = inr o2).
    { rewrite (parse_loop_app pre post defaultOptions o1); [done| |done].
      by eapply parse_loop_ok_starts_flag. }
    assert (Hnot : "-name" ∉ pre ++ post) by (apply not_elem_of_app; by split).
    pose proof (parse_loop_saveName (pre ++ post) defaultOptions "" Hnot) as Hs.
    change (set_saveName defaultOptions "") with defaultOptions in Hs.
    rewrite Hall in Hs. cbn [with_saveName] in Hs.
    rewrite Hall. exact Hs.
Qed.

Lemma stored_tokens_parse_like_original_witness :
  MainGo.parseArguments (["-files"; "a.py"] ++ ["-delimiter"; "--"])
  = Ok (set_saveName
          (mkOptions ["a.py"] "" false "--" true "p" "" "" ∅) "").
Proof.
  refine (proj1 (proj2 (stored_tokens_parse_like_original
                          ["-files"; "a.py"] ["-delimiter"; "--"] "p"
                          (set_files defaultOptions ["a.py"])
                          (mkOptions ["a.py"] "" false "--" true "p" "" "" ∅)
                          eq_refl _ _ eq_refl))).
  - intros H.
    repeat (apply elem_of_cons in H as [H | H]; [discriminate H|]).
    by apply elem_of_nil in H.
  - intros H.
    repeat (apply elem_of_cons in H as [H | H]; [discriminate H|]).
    by apply elem_of_nil in H.
Defined.

(** ** The configuration store *)

Lemma filterOutFlag_loop_kept (flag : string) (args : list string) :
  (forall acc, exists kept,
     MainGo.filterOutFlag_loop args flag acc = acc ++ kept /\
     kept `sublist_of` args /\ flag ∉ kept) /\
  (forall a acc, exists kept,
     MainGo.filterOutFlag_loop (a :: args) flag acc = acc ++ kept /\
     kept `sublist_of` (a :: args) /\ flag ∉ kept).
Proof.
  induction args as [|b rest [IH1 IH2]].
  - split.
    + intros acc. exists []. rewrite app_nil_r.
      repeat split; [done | apply not_elem_of_nil].
    + intros a acc. cbn [MainGo.filterOutFlag_loop].
      destruct (String.eqb_spec a flag) as [->|Hne].
      * exists []. rewrite app_nil_r.
        repeat split; [apply sublist_nil_l | apply not_elem_of_nil].
      * exists [a]. repeat split; [done|].
        apply not_elem_of_cons. split; [congruence | apply not_elem_of_nil].
  - split; [exact (IH2 b)|].
    intros a acc.
    change (MainGo.filterOutFlag_loop (a :: b :: rest) flag acc) with
      (if String.eqb a flag then MainGo.filterOutFlag_loop rest flag acc
       else MainGo.filterOutFlag_loop (b :: rest) flag (acc ++ [a])).
    destruct (String.eqb_spec a flag) as [->|Hne].
    + destruct (IH1 acc) as (kept & -> & Hs & Hn).
      exists kept. repeat split; [by do 2 apply sublist_cons | done].
    + destruct (IH2 b (acc ++ [a])) as (kept & -> & Hs & Hn).
      exists (a :: kept). rewrite <- app_assoc.
      repeat split; [by apply sublist_skip|].
      apply not_elem_of_cons. split; [congruence | done].
Qed.

(** X6.  [filterOutFlag], for any flag: the result has no token equal to
    the flag, keeps the order of the tokens it keeps, is the argument
    itself when the flag does not occur, and filtering twice is filtering
    once. *)
Theorem filterOutFlag_properties (args : list string) (flag : string) :
  (flag ∉ MainGo.filterOutFlag args flag) /\
  (MainGo.filterOutFlag args flag `sublist_of` args) /\
  (flag ∉ args -> MainGo.filterOutFlag args flag = args) /\
  MainGo.filterOutFlag (MainGo.filterOutFlag args flag) flag
  = MainGo.filterOutFlag args flag.
Proof.
  assert (Hid : forall l, flag ∉ l -> MainGo.filterOutFlag l flag = l).
  { intros l Hl. unfold MainGo.filterOutFlag.
    rewrite <- (app_nil_r l) at 1.
    by rewrite filterOutFlag_loop_no_flag. }
  destruct (proj1 (filterOutFlag_loop_kept flag args) [])
    as (kept & Hk & Hs & Hn).
  cbn [app] in Hk. fold (MainGo.filterOutFlag args flag) in Hk.
  rewrite Hk. split; [done|]. split; [done|]. split; [|by apply Hid].
  intros Hno. rewrite <- Hk. by apply Hid.
Qed.

Lemma filterOutFlag_properties_witness :
  MainGo.filterOutFlag ["-files"; "a.py"; "-delimiter"; "--"] "-name"
  = ["-files"; "a.py"; "-delimiter"; "--"].
Proof.
  refine (proj1 (proj2 (proj2 (filterOutFlag_properties
                                 ["-files"; "a.py"; "-delimiter"; "--"]
                                 "-name"))) _).
  intros H.
  repeat (apply elem_of_cons in H as [H | H]; [discriminate H|]).
  by apply elem_of_nil in H.
Defined.




(** X8.  [getSavedConfig] succeeds exactly on the keys that hold a
    non-empty token list, and then returns that list: it never returns an
    empty list. *)
Theorem getSavedConfig_ok_iff (app : MainGo.App) (D N : string)
    (l : list string) :
  MainGo.getSavedConfig app D N = Ok l <->
  stored (MainGo.AppConfig app) D N = Some l /\ l <> [].
Proof.
  rewrite getSavedConfig_stored.
  destruct (stored (MainGo.AppConfig app) D N) as [[|t ts]|]; split.
  all: try (intros [= <-]; done).
  all: try (intros [[= <-] Hne]; done).
  all: try done.
  all: intros [[=] _].
Qed.

(** ** Which executable a file gets *)

(** X9.  The command for a file is, in this order: the [-exec] command
    when it is not empty; else the [-file-exec] entry for the file's
    extension, even an empty one, which then switches off the configured
    command; else the configured command for the extension; else none. *)
Theorem executable_priority (execCommand : string)
    (fileExecs : gmap string string)
    (fileTypeExecutables : option (gmap string string)) (filePath : string) :
  resolve_executable execCommand
    (merge_executables fileTypeExecutables fileExecs) filePath
  = if negb (String.eqb execCommand "") then execCommand
    else match fileExecs !! Ext filePath with
         | Some cmd => cmd
         | None =>
             default "" (map_get fileTypeExecutables (Ext filePath))
         end.
Proof.
  unfold resolve_executable, merge_executables.
  destruct (negb (String.eqb execCommand "")); [reflexivity|].
  rewrite lookup_union.
  destruct (fileExecs !! Ext filePath) as [cmd|].
  - by destruct (default ∅ fileTypeExecutables !! Ext filePath).
  - destruct fileTypeExecutables as [m|]; cbn [default from_option id map_get].
    + by destruct (m !! Ext filePath).
    + by rewrite lookup_empty.
Qed.

(** ** [getData] over a concatenated file list *)

Section Shift.

Variable w : World.
Variable ignoreRegex : option (string -> bool).
Variable ignoreGitIgnore : bool.
Variable gitIgnoreMatcher : option (string -> bool).
Variable execCommand : string.
Variable final : gmap string string.
Variable wrapCode : bool.
Variable delimiter : string.

Local Abbreviation body :=
  (process_file w ignoreRegex ignoreGitIgnore gitIgnoreMatcher execCommand
                final wrapCode delimiter).
Local Abbreviation scoped :=
  (loop_scoped w ignoreRegex ignoreGitIgnore gitIgnoreMatcher execCommand
               final wrapCode delimiter).

(** What an iteration does to the builder does not depend on what the
    builder already holds. *)
Lemma body_shift (p : string) (st st' : LoopState) (f : string) :
  output st = p +:+ output st' ->
  executableOutput st = executableOutput st' ->
  match body st f, body st' f with
  | Continue a, Continue b =>
      output a = p +:+ output b /\ executableOutput a = executableOutput b
  | Abort _ x, Abort _ y => x = y
  | _, _ => False
  end.
Proof.
  destruct st as [q l e], st' as [q' l' e']. simpl. intros -> ->.
  unfold process_file, run_and_emit, read_and_emit. simpl.
  repeat (case_match; simpl; try done); simplify_eq;
    split; try done; apply append_assoc.
Qed.

Lemma scoped_shift (p : string) (fs : list string) (st st' : LoopState) :
  output st = p +:+ output st' ->
  outcome_of (scoped fs st)
  = match outcome_of (scoped fs st') with
    | inr t => inr (p +:+ t)
    | inl x => inl x
    end.
Proof.
  revert st st'. induction fs as [|f fs IH]; intros st st' Ho; simpl.
  - by rewrite Ho.
  - pose proof (body_shift p (fresh st) (fresh st') f Ho eq_refl) as H.
    destruct (body (fresh st) f), (body (fresh st') f); try done.
    + apply IH. tauto.
    + simpl. by rewrite H.
Qed.

End Shift.

(** X10.  In main.go the text for a concatenated list is the
    concatenation of the texts: [getData] on [fs1 ++ fs2] fails as it does
    on [fs1], else as it does on [fs2], else returns the text of [fs1]
    followed by the text of [fs2]. *)
Theorem getData_concatenates (w : World) (fs1 fs2 : list string)
    (pat : string) (igi : bool) (dl : string) (wc : bool) (ec : string)
    (fe : gmap string string) (fte : option (gmap string string)) :
  let run fs := (MainGo.getData w fs pat igi dl wc ec fe fte).2 in
  run (fs1 ++ fs2)
  = match run fs1 with
    | Err e => Err e
    | Ok t1 =>
        match run fs2 with
        | Err e => Err e
        | Ok t2 => Ok (t1 +:+ t2)
        end
    end.
Proof.
  intros run. unfold run.
  destruct (compile_ignore w pat) as [re|e] eqn:Hc.
  2:{ unfold MainGo.getData. by rewrite Hc. }
  destruct (load_gitignore w igi) as [gl gm] eqn:Hg.
  rewrite !(getData_loop w _ pat igi dl wc ec fe fte re gl gm Hc Hg).
  cbn zeta. cbn [snd]. rewrite loop_scoped_app.
  set (start := {| output := ""; logs := gl; executableOutput := "" |}).
  destruct (loop_scoped w re igi gm ec (merge_executables fte fe) wc dl fs1
              start) as [st1|lg x]; [|done].
  cbn [outcome_of].
  rewrite (scoped_shift w re igi gm ec (merge_executables fte fe) wc dl
             (output st1) fs2 st1 start)
    by (by rewrite append_empty_r).
  by destruct (outcome_of _).
Qed.

(** ** The gitignore filter *)

Section Repository.

Variable w : World.
Variable g : GitIgnore.
Variable rel : string -> result string.

Lemma loop_scoped_no_gitignore re igi igi' gm gm' ec final wc dl fs st :
  (igi = true \/ gm = None) -> (igi' = true \/ gm' = None) ->
  loop_scoped (with_repository w g rel) re igi gm ec final wc dl fs st
  = loop_scoped w re igi' gm' ec final wc dl fs st.
Proof.
  intros H H'. revert st. induction fs as [|f fs IH]; intros st; [done|].
  cbn [loop_scoped].
  assert (Hb : forall s,
            process_file (with_repository w g rel) re igi gm ec final wc dl s f
            = process_file w re igi' gm' ec final wc dl s f).
  { intros s. destruct H as [-> | ->], H' as [-> | ->];
      try destruct igi; try destruct igi'; reflexivity. }
  rewrite Hb. destruct (process_file w _ _ _ _ _ _ _ _ _); [apply IH | done].
Qed.

Lemma loop_shared_no_gitignore re igi igi' gm gm' ec final wc dl fs st :
  (igi = true \/ gm = None) -> (igi' = true \/ gm' = None) ->
  loop_shared (with_repository w g rel) re igi gm ec final wc dl fs st
  = loop_shared w re igi' gm' ec final wc dl fs st.
Proof.
  intros H H'. revert st. induction fs as [|f fs IH]; intros st; [done|].
  cbn [loop_shared].
  assert (Hb : forall s,
            process_file (with_repository w g rel) re igi gm ec final wc dl s f
            = process_file w re igi' gm' ec final wc dl s f).
  { intros s. destruct H as [-> | ->], H' as [-> | ->];
      try destruct igi; try destruct igi'; reflexivity. }
  rewrite Hb. destruct (process_file w _ _ _ _ _ _ _ _ _); [apply IH | done].
Qed.

End Repository.

Lemma with_repository_same (w : World) :
  with_repository w (git w) (filepath_Rel w) = w.
Proof. by destruct w. Qed.

(** X11.  With [-ignore-gitignore] the run does not depend on the
    repository: whatever go-git and [filepath.Rel] would answer, [getData]
    and the processing part of part_000 give the same result.  And outside
    a repository the flag changes nothing. *)
Theorem ignore_gitignore_ignores_repository (w : World) (g : GitIgnore)
    (rel : string -> result string) :
  (forall fs pat dl wc ec fe fte,
     MainGo.getData (with_repository w g rel) fs pat true dl wc ec fe fte
     = MainGo.getData w fs pat true dl wc ec fe fte) /\
  (forall config o out osArgs,
     ignoreGitIgnore o = true ->
     Part000.process (with_repository w g rel) config o out osArgs
     = Part000.process w config o out osArgs) /\
  (git w = NoRepository ->
   forall fs pat dl wc ec fe fte,
     MainGo.getData w fs pat false dl wc ec fe fte
     = MainGo.getData w fs pat true dl wc ec fe fte).
Proof.
  split; [|split].
  - intros fs pat dl wc ec fe fte. unfold MainGo.getData.
    change (compile_ignore (with_repository w g rel) pat)
      with (compile_ignore w pat).
    destruct (compile_ignore w pat) as [re|]; [|done].
    cbn [load_gitignore].
    by rewrite (loop_scoped_no_gitignore w g rel re true true None None)
      by (by left).
  - intros config o out osArgs Ho. unfold Part000.process.
    change (compile_ignore (with_repository w g rel) (ignorePattern o))
      with (compile_ignore w (ignorePattern o)).
    destruct (compile_ignore w (ignorePattern o)) as [re|]; [|done].
    rewrite Ho. cbn [load_gitignore].
    by rewrite (loop_shared_no_gitignore w g rel re true true None None)
      by (by left).
  - intros Hgit fs pat dl wc ec fe fte. unfold MainGo.getData.
    destruct (compile_ignore w pat) as [re|]; [|done].
    unfold load_gitignore. rewrite Hgit.
    rewrite <- (with_repository_same w) at 1.
    by rewrite (loop_scoped_no_gitignore w (git w) (filepath_Rel w) re false
                  true None None) by (by right).
Qed.

Lemma ignore_gitignore_ignores_repository_witness :
  MainGo.getData
    (with_repository (sample_world "") (Patterns (fun _ => true))
       (fun p => Ok p))
    scenario_files "" true DefaultDelimiter true "" ∅ None
  = ([], Ok scenario_output) /\
  MainGo.getData (sample_world "") scenario_files "" false DefaultDelimiter
    true "" ∅ None
  = ([], Ok scenario_output).
Proof.
  destruct (ignore_gitignore_ignores_repository (sample_world "")
              (Patterns (fun _ => true)) (fun p => Ok p)) as (H1 & _ & H3).
  split.
  - rewrite H1. reflexivity.
  - rewrite (H3 eq_refl). reflexivity.
Defined.

(** ** Saving and replaying, at the level of [main] *)

Lemma parse_without_name (args : list string) (o : Options) :
  parse_loop args defaultOptions = inr o -> "-name" ∉ args -> saveName o = "".
Proof.
  intros H Hno.
  pose proof (parse_loop_saveName args defaultOptions "" Hno) as Hs.
  change (set_saveName defaultOptions "") with defaultOptions in Hs.
  rewrite H in Hs. cbn [with_saveName] in Hs. injection Hs as ->.
  reflexivity.
Qed.

Section MainGoSave.
Import MainGo.

(** X12.  In main.go a run whose tokens carry a non-empty [-name] only
    saves: it prints the confirmation, leaves a configuration in memory and
    on disk that holds the filtered tokens under (cwd, name), and reads no
    file, runs no command and writes no clipboard, whatever the other
    tokens are.  When the directory or the file cannot be written the run
    is fatal. *)
Theorem save_run_only_saves (w : World) (d : Disk) (home D : string)
    (app : App) (args : list string) (o : Options) :
  UserHomeDir w = Ok home ->
  NewApp (config_path home) d = Ok app ->
  Getwd w = Ok D ->
  parseArguments args = Ok o ->
  saveName o <> "" ->
  let c := AppConfig (setSavedConfig app D (saveName o) args) in
  "-name" ∈ args /\
  stored c D (saveName o) = Some (filterOutFlag args "-name") /\
  (mkdir_error d = None -> write_error d = None ->
   main w d args
   = {| stdout := [saved_message (saveName o) D]; log := [];
        os_Args := args;
        exit := Saved c {| config_file := Stored c; mkdir_error := None;
                           write_error := None |} |}) /\
  (forall e, mkdir_error d = Some e ->
     exit (main w d args)
     = Fatal ("Failed to save configuration: failed to create config directory: "
              +:+ e)) /\
  (forall e, mkdir_error d = None -> write_error d = Some e ->
     exit (main w d args)
     = Fatal ("Failed to save configuration: failed to write config file: "
              +:+ e)).
Proof.
  intros Hhome Happ Hwd Hparse Hsave c.
  assert (Hin : "-name" ∈ args).
  { destruct (decide ("-name" ∈ args)) as [|Hno]; [done|].
    exfalso. apply Hsave.
    by apply (parse_without_name args o); [apply parseArguments_ok|]. }
  assert (Hmain : main w d args = run_parsed w d app [] args o).
  { unfold main. rewrite Hhome, Happ.
    destruct args as [|a args]; [by apply elem_of_nil in Hin|].
    cbn [length Nat.eqb]. by rewrite Hparse. }
  apply String.eqb_neq in Hsave.
  split; [done|]. split; [apply stored_setSavedConfig|].
  rewrite Hmain. unfold run_parsed, saveCurrentConfig, saveConfig.
  rewrite Hsave, Hwd. cbn [negb].
  split; [|split].
  - intros -> ->. reflexivity.
  - by intros e ->.
  - by intros e -> ->.
Qed.

Lemma save_run_only_saves_witness :
  stdout (main (sample_world "") sample_disk
            ["-files"; "missing.txt"; "-exec"; "false"; "-name"; "p"])
  = ["Arguments saved for name 'p' in folder '/w'" +:+ nl].
Proof.
  pose proof (save_run_only_saves (sample_world "") sample_disk "/home/u"
                "/w" sample_app
                ["-files"; "missing.txt"; "-exec"; "false"; "-name"; "p"]
                (mkOptions ["missing.txt"] "" false DefaultDelimiter true
                           "p" "" "false" ∅)
                eq_refl eq_refl eq_refl eq_refl) as H.
  destruct H as (_ & _ & H & _); [discriminate|].
  by rewrite (H eq_refl eq_refl).
Defined.

Lemma run_parsed_out (w : World) (d : Disk) (app : App)
    (out args : list string) (o : Options) :
  exit (run_parsed w d app out args o) = exit (run_parsed w d app [] args o) /\
  stdout (run_parsed w d app out args o)
  = out ++ stdout (run_parsed w d app [] args o) /\
  os_Args (run_parsed w d app out args o) = args.
Proof.
  unfold run_parsed, saveCurrentConfig, die.
  destruct (negb (String.eqb (saveName o) "")).
  { destruct (Getwd w) as [currentDir|]; [|by rewrite app_nil_r].
    destruct (saveConfig _ d); [done | by rewrite app_nil_r]. }
  destruct (length (files o) =? 0)%nat; [by rewrite app_nil_r|].
  destruct (getData _ _ _ _ _ _ _ _ _) as [lg [text|e]];
    [|by rewrite app_nil_r].
  destruct (clipboard_WriteAll w text); [by rewrite app_nil_r | done].
Qed.

(** X14.  Saving then replaying in main.go.  In a directory without
    presets, after a preset [N] has been saved from tokens [A] whose
    filtered form is not empty, a later run without tokens that is answered
    [1] parses and runs the stored tokens: it ends like the run started
    with those tokens, after printing the list and the prompt.  The later
    run reads the file the save wrote, so the directory, the name and the
    stored tokens are taken valid UTF-8. *)
Theorem save_then_replay (w2 : World) (d d' : Disk) (home D N : string)
    (app : App) (A : list string) :
  NewApp (config_path home) d = Ok app ->
  valid_utf8 D ->
  valid_utf8 N ->
  Forall valid_utf8 (filterOutFlag A "-name") ->
  map_len (presets_in (AppConfig app) D) = 0 ->
  (saveCurrentConfig app d D N A).2 = Ok d' ->
  filterOutFlag A "-name" <> [] ->
  UserHomeDir w2 = Ok home ->
  Getwd w2 = Ok D ->
  range_keys_ok w2 ->
  Scanln_d w2 (stdin w2) = Ok 1%Z ->
  let stored_tokens := filterOutFlag A "-name" in
  exit (main w2 d' []) = exit (main w2 d' stored_tokens) /\
  stdout (main w2 d' [])
  = prompt [N] ++ stdout (main w2 d' stored_tokens) /\
  os_Args (main w2 d' []) = stored_tokens.
Proof.
  intros Happ HD HN HT Hnone Hsaved Hne Hhome Hwd Hok Hscan T.
  set (app1 := setSavedConfig app D N A).
  set (app' := {| AppConfig := json_Config (AppConfig app1);
                  ConfigPath := config_path home |}).
  assert (Hload : NewApp (config_path home) d' = Ok app').
  { apply (reload_after_save app1 d). exact Hsaved. }
  pose proof (NewApp_loaded _ _ _ Happ) as Hloaded.
  assert (Hnames : presets_in (AppConfig app') D = Some {[ N := T ]}).
  { unfold app', app1. cbn [AppConfig].
    rewrite setSavedConfig_save_preset. by apply presets_reload_first. }
  assert (Hget : getSavedConfig app' D N = Ok T).
  { rewrite getSavedConfig_stored. unfold app', app1. cbn [AppConfig].
    rewrite setSavedConfig_save_preset, stored_reload by done.
    rewrite decide_True by done. rewrite json_tokens_valid by done.
    fold T. fold T in Hne. clear -Hne. generalize dependent T.
    by intros [|t ts]. }
  destruct (main_go_select w2 d' home app' D Hhome Hload Hwd Hok)
    as (_ & Hsel & _).
  specialize (Hsel {[ N := T ]} Hnames).
  rewrite map_size_singleton in Hsel. specialize (Hsel (le_n 1)).
  cbn zeta in Hsel. rewrite Hscan in Hsel.
  pose proof (range_keys_length w2 {[ N := T ]} Hok) as Hlen.
  rewrite map_size_singleton in Hlen. rewrite Hlen in Hsel.
  cbn [Z.leb Z.compare Z.of_nat Pos.of_succ_nat Pos.compare Pos.compare_cont
       andb] in Hsel.
  destruct Hsel as (n & toks & Hn & Ht & Hrun).
  apply lookup_singleton_Some in Ht as [<- <-].
  assert (Hlisted : range_keys w2 {[ N := T ]} = [N]).
  { destruct (range_keys w2 {[ N := T ]}) as [|x [|y l]];
      simpl in Hlen; try lia.
    simpl in Hn. by injection Hn as ->. }
  rewrite Hlisted, Hget in Hrun.
  assert (HTrun : main w2 d' T =
               match parseArguments T with
               | Err e => die [] [] T ("Failed to parse arguments: " +:+ e)
               | Ok o => run_parsed w2 d' app' [] T o
               end).
  { unfold main. rewrite Hhome, Hload.
    replace (length T =? 0)%nat with false; [reflexivity|].
    fold T in Hne. clear -Hne. generalize dependent T.
    by intros [|t ts]. }
  rewrite Hrun, HTrun.
  destruct (parseArguments T) as [o|e].
  - destruct (run_parsed_out w2 d' app' (prompt [N]) T o) as (He & Hs & Ha).
    by rewrite He, Hs, Ha.
  - done.
Qed.

End MainGoSave.

Lemma save_then_replay_witness :
  let one := sample_disk_with [("p", ["-files"; "a.go"])] in
  let w2 := sample_world ("1" +:+ nl) in
  exit (MainGo.main w2 one []) = exit (MainGo.main w2 one ["-files"; "a.go"]) /\
  os_Args (MainGo.main w2 one []) = ["-files"; "a.go"].
Proof.
  intros one w2.
  destruct (save_then_replay w2 sample_disk one "/home/u" "/w" "p" sample_app
              ["-files"; "a.go"; "-name"; "p"])
    as (He & _ & Ha);
    [ reflexivity | reflexivity | reflexivity | by repeat constructor
    | reflexivity | reflexivity | vm_compute; discriminate | reflexivity
    | reflexivity | apply sample_range_keys_ok | reflexivity | ].
  split; [exact He | exact Ha].
Defined.

Lemma process_os_Args (w : World) (config : Config) (o : Options)
    (out osArgs : list string) :
  os_Args (Part000.process w config o out osArgs) = osArgs.
Proof.
  unfold Part000.process, die.
  destruct (compile_ignore w (ignorePattern o)); [|done].
  destruct (load_gitignore w (ignoreGitIgnore o)) as [gl gm].
  destruct (loop_shared _ _ _ _ _ _ _ _ _ _) as [st|]; [|done].
  by destruct (clipboard_WriteAll w (output st)).
Qed.

(** X13.  Saving then replaying by name in part_000.  A run whose tokens
    [A] carry a non-empty [-name N] stores [A] itself, [-name] included,
    under (cwd, N); a later run [-by-name N] of the same user from the same
    directory reads the written file, finds the preset and leaves exactly
    [A] in [os.Args], when the directory, the name and the tokens are valid
    UTF-8. *)
Theorem part000_save_then_by_name (w w2 : World) (d : Disk)
    (home D : string) (config : Config) (A : list string)
    (o : Options) :
  UserHomeDir w = Ok home ->
  Getwd w = Ok D ->
  Part000.loadConfig d = Ok config ->
  parse_loop A defaultOptions = inr o ->
  saveName o <> "" ->
  mkdir_error d = None ->
  write_error d = None ->
  UserHomeDir w2 = Ok home ->
  Getwd w2 = Ok D ->
  valid_utf8 D ->
  valid_utf8 (saveName o) ->
  Forall valid_utf8 A ->
  exists c d',
    exit (Part000.main w d A) = Saved c d' /\
    stored c D (saveName o) = Some A /\
    "-name" ∈ A /\
    os_Args (Part000.main w2 d' ["-by-name"; saveName o]) = A.
Proof.
  intros Hhome Hwd Hload Hparse Hsave Hmk Hwr Hhome2 Hwd2 HD HN HA.
  set (c := Part000.save_preset config D (saveName o) A).
  exists c, {| config_file := Stored c; mkdir_error := None;
               write_error := None |}.
  assert (Hin : "-name" ∈ A).
  { destruct (decide ("-name" ∈ A)) as [|Hno]; [done|].
    exfalso. apply Hsave. by apply (parse_without_name A o). }
  assert (Hst : stored c D (saveName o) = Some A)
    by apply part000_stores_unfiltered.
  assert (Hre : stored (json_Config c) D (saveName o) = Some A).
  { unfold c. rewrite stored_reload by by eapply part000_loadConfig_loaded.
    rewrite decide_True by done. by rewrite json_tokens_valid. }
  split; [|split; [done|split; [done|]]].
  - unfold Part000.main, Part000.saveConfig.
    rewrite Hhome, Hload, Hparse, Hwd, Hmk, Hwr.
    apply String.eqb_neq in Hsave. by rewrite Hsave.
  - destruct A as [|t ts]; [by apply elem_of_nil in Hin|].
    rewrite (part000_by_name_found w2 _ home (json_Config c)
               ["-by-name"; saveName o]
               (set_byName defaultOptions (saveName o)) D t ts);
      try done.
    apply process_os_Args.
Qed.

Lemma part000_save_then_by_name_witness :
  exists c d',
    exit (Part000.main (sample_world "") sample_disk
            ["-files"; "a.go"; "-name"; "p"]) = Saved c d' /\
    os_Args (Part000.main (sample_world "") d' ["-by-name"; "p"])
    = ["-files"; "a.go"; "-name"; "p"].
Proof.
  destruct (part000_save_then_by_name (sample_world "") (sample_world "")
              sample_disk "/home/u" "/w"
              {| Folders := Some ∅; FileTypeExecutables := Some ∅ |}
              ["-files"; "a.go"; "-name"; "p"]
              (mkOptions ["a.go"] "" false DefaultDelimiter true "p" "" "" ∅))
    as (c & d' & He & _ & _ & Ha);
    [ reflexivity | reflexivity | reflexivity | reflexivity | discriminate
    | reflexivity | reflexivity | reflexivity | reflexivity | reflexivity
    | reflexivity | by repeat constructor | ].
  by exists c, d'.
Defined.

(** ** Two more ways an iteration can end *)

(** X15.  A resolved command that is not empty but holds only white space
    has no program to run: the first file that reaches it ends the run
    with "invalid executable command", in both variants. *)
Theorem blank_executable_is_fatal
    (w : World) (pat : string) (igi : bool) (dl : string) (wc : bool)
    (ec : string) (fe : gmap string string) (fte : option (gmap string string))
    (re : option (string -> bool)) (gl : list string)
    (gm : option (string -> bool)) (pre post : list string) (f : string) :
  compile_ignore w pat = Ok re ->
  load_gitignore w igi = (gl, gm) ->
  kept w re igi gm f = true ->
  let exe := resolve_executable ec (merge_executables fte fe) f in
  exe <> "" ->
  Fields exe = [] ->
  let run fs := MainGo.getData w fs pat igi dl wc ec fe fte in
  let start := {| output := ""; logs := gl; executableOutput := "" |} in
  (is_ok (run pre).2 = true ->
   (run (pre ++ f :: post)).2 = Err ("invalid executable command: " +:+ exe)) /\
  (forall st1,
     loop_shared w re igi gm ec (merge_executables fte fe) wc dl pre start
     = Continue st1 ->
     forall config out0 osArgs sn bn,
       FileTypeExecutables config = fte ->
       exit (Part000.process w config
               (mkOptions (pre ++ f :: post) pat igi dl wc sn bn ec fe)
               out0 osArgs)
       = Fatal ("Invalid executable command: " +:+ exe)).
Proof.
  intros Hc Hg Hk exe Hne HF run start.
  assert (Hbody : forall st,
            process_file w re igi gm ec (merge_executables fte fe) wc dl st f
            = Abort (logs st) (InvalidExecutable exe)).
  { intros st. rewrite process_file_kept by done. unfold run_and_emit.
    fold exe. apply String.eqb_neq in Hne. by rewrite Hne, HF. }
  split.
  - intros Hok. unfold run in *.
    rewrite (getData_loop w pre pat igi dl wc ec fe fte re gl gm Hc Hg) in Hok.
    rewrite (getData_loop w _ pat igi dl wc ec fe fte re gl gm Hc Hg).
    cbn zeta in *. cbn [fst snd] in *. rewrite loop_scoped_app.
    fold start in Hok |- *.
    destruct (loop_scoped w re igi gm ec (merge_executables fte fe) wc dl pre
                start) as [st1|lg x]; [|done].
    cbn [loop_scoped]. by rewrite Hbody.
  - intros st1 Hpre config out0 osArgs sn bn Hfte. unfold Part000.process.
    cbn [files ignorePattern ignoreGitIgnore delimiter wrapCode execCommand
         fileExecs]. rewrite Hc, Hg, Hfte. fold start.
    rewrite loop_shared_app, Hpre. cbn [loop_shared]. by rewrite Hbody.
Qed.

Lemma blank_executable_is_fatal_witness :
  (MainGo.getData (sample_world "") ["a.py"; "b.unknown"] "" false
     DefaultDelimiter true " " ∅ None).2
  = Err "invalid executable command:  " /\
  (MainGo.getData (sample_world "") ["a.py"; "b.unknown"] "" false
     DefaultDelimiter true (no_break_space +:+ " ") ∅ None).2
  = Err ("invalid executable command: " +:+ no_break_space +:+ " ").
Proof.
  split.
  - refine (proj1 (blank_executable_is_fatal (sample_world "") "" false
                     DefaultDelimiter true " " ∅ None None [] None
                     [] ["b.unknown"] "a.py" eq_refl eq_refl eq_refl _ eq_refl)
              eq_refl).
    discriminate.
  - refine (proj1 (blank_executable_is_fatal (sample_world "") "" false
                     DefaultDelimiter true (no_break_space +:+ " ") ∅ None
                     None [] None [] ["b.unknown"] "a.py" eq_refl eq_refl
                     eq_refl _ eq_refl)
              eq_refl).
    discriminate.
Defined.

(** X16.  With the gitignore filter active, a file whose path cannot be
    made relative is logged and skipped: in main.go [getData] returns what
    it returns without that file, and the log has the line naming the file
    and the error. *)
Theorem rel_failure_skips_file
    (w : World) (pat : string) (dl : string) (wc : bool)
    (ec : string) (fe : gmap string string) (fte : option (gmap string string))
    (re : option (string -> bool)) (m : string -> bool)
    (pre post : list string) (f e : string) :
  compile_ignore w pat = Ok re ->
  regex_ignored re f = false ->
  git w = Patterns m ->
  filepath_Rel w f = Err e ->
  let run fs := MainGo.getData w fs pat false dl wc ec fe fte in
  (run (pre ++ f :: post)).2 = (run (pre ++ post)).2 /\
  (is_ok (run pre).2 = true ->
   ("Error getting relative path for " +:+ f +:+ ": " +:+ e)
     ∈ (run (pre ++ f :: post)).1).
Proof.
  intros Hc Hre Hgit Hrel run.
  assert (Hg : load_gitignore w false = ([], Some m)).
  { unfold load_gitignore. by rewrite Hgit. }
  set (final := merge_executables fte fe).
  assert (Hbody : forall st,
            process_file w re false (Some m) ec final wc dl st f
            = Continue {| output := output st;
                          logs := logs st ++
                            ["Error getting relative path for " +:+ f +:+
                             ": " +:+ e];
                          executableOutput := executableOutput st |}).
  { intros st. unfold process_file. by rewrite Hre, Hrel. }
  unfold run.
  rewrite !(getData_loop w _ pat false dl wc ec fe fte re [] (Some m) Hc Hg).
  cbn zeta. cbn [fst snd]. rewrite !loop_scoped_app. fold final.
  destruct (loop_scoped w re false (Some m) ec final wc dl pre _)
    as [st1|lg x]; [|done].
  cbn [loop_scoped]. rewrite Hbody. cbn [fresh output logs executableOutput].
  split.
  - erewrite (scoped_logs_irrelevant _ _ _ _ _ _ _ _ post _ st1); done.
  - intros _.
    edestruct (scoped_logs_grow w re false (Some m) ec final wc dl post)
      as [l ->].
    cbn [logs]. set_solver.
Qed.

Lemma rel_failure_skips_file_witness :
  let w := with_repository (sample_world "") (Patterns (fun _ => false))
             (fun p => if String.eqb p "/abs/x.py"
                       then Err "Rel: can't make /abs/x.py relative to ."
                       else Ok p) in
  (MainGo.getData w ["a.py"; "/abs/x.py"; "b.unknown"] "" false
     DefaultDelimiter true "" ∅ None).2
  = (MainGo.getData w ["a.py"; "b.unknown"] "" false
       DefaultDelimiter true "" ∅ None).2.
Proof.
  intros w.
  refine (proj1 (rel_failure_skips_file w "" DefaultDelimiter true "" ∅ None
                   None (fun _ => false) ["a.py"] ["b.unknown"] "/abs/x.py"
                   "Rel: can't make /abs/x.py relative to ."
                   eq_refl eq_refl eq_refl eq_refl)).
Defined.
